(** * Sparse edge tensors and the Lambda builders of [Modules/st.py]

    A shallow embedding of the [SparseTensor] class and of the two free
    functions [compute_Lambdas] and [compute_Lambdas_dSIR], followed by the
    properties of the construction, of the accessors and of the builders.

    Conventions of the embedding.
    - Python integers are [Z]; a Python list is a [list]; subscripting follows
      Python: an index [k] with [-len <= k < 0] counts from the end and any
      other index outside [0, len) raises [IndexError].
    - A numpy array of floats is a nested list of rationals [Q]: the float64
      arithmetic of the source is read as exact arithmetic.  Equality of
      entries is therefore stated with [==] (equality of rationals).  What
      is stated of computed values is what rounding to float64 keeps: the
      values 0, 1 and those of the scenario, which float64 holds exactly,
      the order of values, and the equality of values that the code
      computes by the same operations on the same operands.  The lemmas
      that give a value as an exact product are steps of these proofs.
    - A call either returns a value or raises: [result A] is [Ok a] or
      [Raise e], sequenced with [x ← m; k].
    - [np.asarray(contacts, dtype="int")] is the identity on the integer
      columns (node indices and times are machine sized). *)

From Stdlib Require Import ZArith QArith Lia Lqa.
From stdpp Require Import base list sorting.

Local Open Scope Z_scope.
Local Coercion Z.of_nat : nat >-> Z.

(** ** Exceptions and results *)

Inductive exn := IndexError | ValueError | ZeroDivisionError.

(** Python's exception hierarchy: [IndexError] derives from [LookupError];
    [ValueError] and [ZeroDivisionError] do not. *)
Definition is_LookupError (e : exn) : bool :=
  match e with
  | IndexError => true
  | ValueError | ZeroDivisionError => false
  end.

Inductive result (A : Type) :=
| Ok (a : A)
| Raise (e : exn).
Arguments Ok {A} a.
Arguments Raise {A} e.

#[global] Instance result_ret : MRet result := @Ok.
#[global] Instance result_bind : MBind result := λ A B f m,
  match m with
  | Ok a => f a
  | Raise e => Raise e
  end.

#[global] Instance exn_eq_dec : EqDecision exn.
Proof. solve_decision. Defined.

#[global] Instance result_eq_dec `{EqDecision A} : EqDecision (result A).
Proof. solve_decision. Defined.

(** [for x in l: s = f(s, x)] where [f] may raise. *)
Fixpoint for_each {S X} (f : S → X → result S) (s : S) (l : list X) : result S :=
  match l with
  | [] => Ok s
  | x :: l' => s' ← f s x; for_each f s' l'
  end.

(** [[f(x) for x in l]] where [f] may raise. *)
Fixpoint collect {X Y} (f : X → result Y) (l : list X) : result (list Y) :=
  match l with
  | [] => Ok []
  | x :: l' => y ← f x; ys ← collect f l'; Ok (y :: ys)
  end.

(** ** Python and numpy primitives *)

(** Normalisation of a subscript against a sequence of length [len]. *)
Definition py_index (len : nat) (k : Z) : result nat :=
  if bool_decide (0 ≤ k < len) then Ok (Z.to_nat k)
  else if bool_decide (- len ≤ k < 0) then Ok (Z.to_nat (k + len))
  else Raise IndexError.

(** [l[k]] *)
Definition getitem {A} (l : list A) (k : Z) : result A :=
  p ← py_index (length l) k;
  match l !! p with
  | Some x => Ok x
  | None => Raise IndexError
  end.

(** [l.index(x)]: position of the first occurrence, [ValueError] if none. *)
Fixpoint list_index (l : list Z) (x : Z) : result Z :=
  match l with
  | [] => Raise ValueError
  | y :: l' => if bool_decide (y = x) then Ok 0
               else k ← list_index l' x; Ok (k + 1)
  end.

(** [np.arange(a, b)] *)
Definition arange (a b : Z) : list Z :=
  (λ k : nat, a + k) <$> seq 0 (Z.to_nat (b - a)).

(** [range(n)] *)
Definition range (n : Z) : list Z := arange 0 n.

(** Rows of a two-column integer array, compared lexicographically. *)
Definition row := (Z * Z)%type.

Definition row_lt (a b : row) : Prop :=
  a.1 < b.1 ∨ (a.1 = b.1 ∧ a.2 < b.2).

#[global] Instance row_lt_dec a b : Decision (row_lt a b).
Proof. unfold row_lt. apply _. Defined.

Fixpoint insert_row (e : row) (l : list row) : list row :=
  match l with
  | [] => [e]
  | x :: l' =>
      if bool_decide (row_lt e x) then e :: x :: l'
      else if bool_decide (e = x) then x :: l'
      else x :: insert_row e l'
  end.

(** [np.unique(a, axis=0)]: the distinct rows in lexicographic order. *)
Definition np_unique (a : list row) : list row := foldr insert_row [] a.

(** [np.flip(a, 1)]: every row reversed. *)
Definition np_flip (a : list row) : list row := (λ e : row, (e.2, e.1)) <$> a.

Abbreviation matrix := (list (list Q)).

(** [np.full((e, r, c), x)]; a negative dimension is a [ValueError]. *)
Definition np_full (e : nat) (r c : Z) (x : Q) : result (list matrix) :=
  if bool_decide (r < 0 ∨ c < 0) then Raise ValueError
  else Ok (replicate e (replicate (Z.to_nat r) (replicate (Z.to_nat c) x))).

(** [a / b] on Python integers (true division). *)
Definition true_div (a b : Z) : result Q :=
  if bool_decide (b = 0) then Raise ZeroDivisionError
  else Ok (inject_Z a / inject_Z b)%Q.

(** [values[:] = x] *)
Definition fill (x : Q) (v : list matrix) : list matrix :=
  fmap (M := list) (fmap (M := list) (fmap (M := list) (λ _, x))) v.

(** [values.shape[1]]: the number of rows of every matrix, read off the
    first one.  A nested list with no matrix has lost its shape; the builders
    use the number for the triangular assignment only, on two tensors with
    the same number of edges, and with no matrix the assignment touches
    nothing. *)
Definition shape1 (v : list matrix) : nat :=
  match v with
  | [] => 0%nat
  | m :: _ => length m
  end.

(** [np.tril_indices(n, k)]: the positions [(r, c)] of an [n × n] matrix
    with [c <= r + k], row by row. *)
Definition tril_indices (n : nat) (k : Z) : list (nat * nat) :=
  seq 0 n ≫= λ r : nat,
    seq 0 n ≫= λ c : nat,
      if bool_decide ((c : Z) ≤ r + k) then [(r, c)] else [].

(** [m[a, b] = x] for the index pairs [(a, b)] of [idx]. *)
Definition assign_at (idx : list (nat * nat)) (x : Q) (m : matrix) : matrix :=
  foldl (λ (m : matrix) (p : nat * nat), alter (<[p.2 := x]>) p.1 m) m idx.

(** [values[:, a, b] = 0] with [a, b = np.tril_indices(n, k)] *)
Definition tril_zero (n : nat) (k : Z) (v : list matrix) : list matrix :=
  assign_at (tril_indices n k) 0%Q <$> v.

(** [values * M]: the matrix [M] is broadcast over the edges. *)
Definition mul_mask (v : list matrix) (M : matrix) : list matrix :=
  (λ m : matrix, zip_with (zip_with Qmult) m M) <$> v.

(** [1 - values] *)
Definition one_minus (v : list matrix) : list matrix :=
  fmap (M := list) (fmap (M := list) (fmap (M := list) (λ x, 1 - x)%Q)) v.

(** [np.cumprod] of one row: running product from the left. *)
Fixpoint cumprod_from (acc : Q) (l : list Q) : list Q :=
  match l with
  | [] => []
  | x :: l' => (acc * x)%Q :: cumprod_from (acc * x)%Q l'
  end.

Definition cumprod_row (l : list Q) : list Q :=
  match l with
  | [] => []
  | x :: l' => x :: cumprod_from x l'
  end.

(** [np.cumprod(values, axis=2)] *)
Definition cumprod (v : list matrix) : list matrix :=
  fmap (M := list) (fmap (M := list) cumprod_row) v.

(** ** The class [SparseTensor] *)

(** A contact [(i, j, t, lambda_ij(t))]. *)
Definition contact := (Z * Z * Z * Q)%type.
Definition cc0 (cc : contact) : Z := cc.1.1.1.
Definition cc1 (cc : contact) : Z := cc.1.1.2.
Definition cc2 (cc : contact) : Z := cc.1.2.
Definition cc3 (cc : contact) : Q := cc.2.

Record SparseTensor := {
  idx_list : list (list Z);
  adj_list : list (list Z);
  tensor_N : Z;
  tensor_T : Z;
  num_direct_edges : nat;
  degree : list Z;
  values : list matrix
}.

Definition set_values (v : list matrix) (t : SparseTensor) : SparseTensor :=
  {| idx_list := idx_list t; adj_list := adj_list t;
     tensor_N := tensor_N t; tensor_T := tensor_T t;
     num_direct_edges := num_direct_edges t; degree := degree t;
     values := v |}.

(** The edge array computed at the start of [init]. *)
Definition edge_list_of (contacts : list contact) : list row :=
  match contacts with
  | [] => []
  | _ =>
      let edge_list := np_unique ((λ cc, (cc0 cc, cc1 cc)) <$> contacts) in
      let edge_list := edge_list ++ np_flip edge_list in
      np_unique edge_list
  end.

(** [adj_list[e[0]].append(e[1])] *)
Definition append_edge (adj : list (list Z)) (e : row) : result (list (list Z)) :=
  p ← py_index (length adj) e.1;
  Ok (alter (λ a, a ++ [e.2]) p adj).

(** The loop filling [idx_list] from the degrees, [c] being the next free
    slot. *)
Fixpoint fill_idx_list (c : Z) (degree : list Z) : list (list Z) :=
  match degree with
  | [] => []
  | d :: ds => arange c (c + d) :: fill_idx_list (c + d) ds
  end.

Definition init (N T : Z) (contacts : list contact) : result SparseTensor :=
  let adj0 : list (list Z) := replicate (Z.to_nat N) [] in
  let edge_list := edge_list_of contacts in
  let num := length edge_list in
  adj ← for_each append_edge adj0 edge_list;
  let deg : list Z := (λ a : list Z, Z.of_nat (length a)) <$> adj in
  let idx := fill_idx_list 0 deg in
  x ← true_div 1 ((T + 2) * (T + 2));
  v ← np_full num (T + 2) (T + 2) x;
  Ok {| idx_list := idx; adj_list := adj; tensor_N := N; tensor_T := T;
        num_direct_edges := num; degree := deg; values := v |}.

Definition init_like (Tensor : SparseTensor) : result SparseTensor :=
  v ← np_full (num_direct_edges Tensor)
        (tensor_T Tensor + 2) (tensor_T Tensor + 2) 1%Q;
  Ok (set_values v Tensor).

(** [SparseTensor(N, T, contacts, Tensor_to_copy)] *)
Definition new_SparseTensor (N T : Z) (contacts : list contact)
    (Tensor_to_copy : option SparseTensor) : result SparseTensor :=
  match Tensor_to_copy with
  | None => init N T contacts
  | Some Tensor => init_like Tensor
  end.

Definition get_idx_ij (t : SparseTensor) (i j : Z) : result Z :=
  a ← getitem (adj_list t) j;
  idx_i ← list_index a i;
  r ← getitem (idx_list t) j;
  getitem r idx_i.

(** [values[idx]] with an integer [idx] is basic indexing: numpy hands back
    a view, a window on slot [view_slot] of the buffer of [values]. *)
Record view := View { view_slot : nat }.

Definition get_ij (t : SparseTensor) (i j : Z) : result view :=
  idx ← get_idx_ij t i j;
  p ← py_index (length (values t)) idx;
  Ok (View p).

(** Reading a view of the buffer of [t]. *)
Definition view_read (t : SparseTensor) (w : view) : option matrix :=
  values t !! view_slot w.

(** In-place write through a view of the buffer of [t]. *)
Definition view_write (t : SparseTensor) (w : view) (f : matrix → matrix) : SparseTensor :=
  set_values (alter f (view_slot w) (values t)) t.

(** [values[idx_list[i]]] with an index array is advanced indexing: numpy
    hands back a new array holding copies of the selected matrices. *)
Definition get_neigh_i (t : SparseTensor) (i : Z) : result (list matrix) :=
  r ← getitem (idx_list t) i;
  collect (getitem (values t)) r.

Definition get_all_indices (t : SparseTensor) (i : Z) : result (list Z * list Z) :=
  incoming_indices ← getitem (idx_list t) i;
  a ← getitem (adj_list t) i;
  outgoing_indices ← collect (λ j, get_idx_ij t i j) a;
  Ok (incoming_indices, outgoing_indices).

(** ** The Lambda builders *)

(** Number of columns of a view. *)
Definition ncols (m : matrix) : nat :=
  match m with
  | [] => 0%nat
  | r :: _ => length r
  end.

(** [w[:, col] = x] for a view [w] of [t]. *)
Definition view_set_col (t : SparseTensor) (w : view) (col : Z) (x : Q) : result SparseTensor :=
  c ← py_index (ncols (default [] (view_read t w))) col;
  Ok (view_write t w (fmap (M := list) (<[c := x]>))).

(** One iteration of the loop over the contacts.  The builders mutate their
    two arguments and return nothing; the embedding threads the pair
    (Lambda0, Lambda1) through and returns it.  The two tensors are distinct
    objects with distinct [values] buffers, as [init] and [init_like] make
    them. *)
Definition populate (L : SparseTensor * SparseTensor) (cc : contact)
    : result (SparseTensor * SparseTensor) :=
  w1 ← get_ij L.2 (cc0 cc) (cc1 cc);
  Lambda1 ← view_set_col L.2 w1 (cc2 cc + 2) (cc3 cc);
  w0 ← get_ij L.1 (cc0 cc) (cc1 cc);
  Lambda0 ← view_set_col L.1 w0 (cc2 cc + 1) (cc3 cc);
  Ok (Lambda0, Lambda1).

Definition compute_Lambdas (Lambda0 Lambda1 : SparseTensor) (contacts : list contact)
    : result (SparseTensor * SparseTensor) :=
  let Lambda1 := set_values (fill 0%Q (values Lambda1)) Lambda1 in
  let Lambda0 := set_values (fill 0%Q (values Lambda0)) Lambda0 in
  L ← for_each populate (Lambda0, Lambda1) contacts;
  let n_dim := shape1 (values L.2) in
  let v1 := tril_zero n_dim 1 (values L.2) in
  let v0 := tril_zero n_dim 0 (values L.1) in
  let v1 := one_minus v1 in
  let v0 := one_minus v0 in
  let v1 := cumprod v1 in
  let v0 := cumprod v0 in
  Ok (set_values v0 L.1, set_values v1 L.2).

(** [([1]*ones + mask + [0]*(Tp2 - len(mask) - ones))[:Tp2]] *)
Definition mask_row (ones : Z) (mask : list Q) (Tp2 : Z) : list Q :=
  take (Z.to_nat Tp2)
    (replicate (Z.to_nat ones) 1%Q ++ mask ++
     replicate (Z.to_nat (Tp2 - length mask - ones)) 0%Q).

Definition Mask1 (mask : list Q) (Tp2 : Z) : matrix :=
  (λ tj, mask_row (tj + 2) mask Tp2) <$> range Tp2.

Definition Mask0 (mask : list Q) (Tp2 : Z) : matrix :=
  (λ tj, mask_row (tj + 1) mask Tp2) <$> range Tp2.

Definition compute_Lambdas_dSIR (Lambda0 Lambda1 : SparseTensor)
    (contacts : list contact) (mask : list Q)
    : result (SparseTensor * SparseTensor) :=
  m0 ← getitem (values Lambda0) 0;
  r0 ← getitem m0 0;
  let Tp2 : Z := length r0 in
  let Lambda1 := set_values (fill 0%Q (values Lambda1)) Lambda1 in
  let Lambda0 := set_values (fill 0%Q (values Lambda0)) Lambda0 in
  L ← for_each populate (Lambda0, Lambda1) contacts;
  let n_dim := shape1 (values L.2) in
  let v1 := tril_zero n_dim 1 (values L.2) in
  let v0 := tril_zero n_dim 0 (values L.1) in
  let v1 := mul_mask v1 (Mask1 mask Tp2) in
  let v0 := mul_mask v0 (Mask0 mask Tp2) in
  let v1 := one_minus v1 in
  let v0 := one_minus v0 in
  let v1 := cumprod v1 in
  let v0 := cumprod v0 in
  Ok (set_values v0 L.1, set_values v1 L.2).

(** ** Vocabulary of the statements *)

(** Entry [(r, c)] of the matrix in slot [e]. *)
Definition entry (v : list matrix) (e r c : nat) : option Q :=
  m ← v !! e; row ← m !! r; row !! c.

(** Two arrays of the same shape with equal entries. *)
Definition same_values (v v' : list matrix) : Prop :=
  Forall2 (Forall2 (Forall2 Qeq)) v v'.

(** Two tensors over the same topology. *)
Definition same_topology (t t' : SparseTensor) : Prop :=
  idx_list t = idx_list t' ∧ adj_list t = adj_list t' ∧
  tensor_N t = tensor_N t' ∧ tensor_T t = tensor_T t' ∧
  num_direct_edges t = num_direct_edges t' ∧ degree t = degree t'.


(** The edge [i → j] exists: [i] is in [adj_list[j]]. *)
Definition edge_exists (t : SparseTensor) (i j : Z) : Prop :=
  ∃ a, getitem (adj_list t) j = Ok a ∧ i ∈ a.

(** The contacts name nodes of [0 .. N-1] only. *)
Definition valid_nodes (N : Z) (contacts : list contact) : Prop :=
  Forall (λ cc, (0 ≤ cc0 cc < N) ∧ (0 ≤ cc1 cc < N)) contacts.

(** Two contact lists with the same set of node pairs. *)
Definition same_pairs (cs1 cs2 : list contact) : Prop :=
  ∀ i j, (∃ cc, cc ∈ cs1 ∧ cc0 cc = i ∧ cc1 cc = j) ↔
         (∃ cc, cc ∈ cs2 ∧ cc0 cc = i ∧ cc1 cc = j).

(** The edges sent to the adjacency list in position [p] by the loop over
    the edge array, [n] being the number of adjacency lists. *)
Definition edges_into (n p : nat) (edges : list row) : list row :=
  filter (λ e : row, py_index n e.1 = Ok p) edges.

Definition sumZ (l : list Z) : Z := foldr Z.add 0 l.

(** [values] has shape (_, n, n). *)
Definition square_values (n : nat) (v : list matrix) : Prop :=
  Forall (λ m : matrix, length m = n ∧ Forall (λ r : list Q, length r = n) m) v.

(** The layout that construction establishes: the index list of a node is a
    run of consecutive slots, as long as the node's adjacency list, inside
    [values], and every matrix is (T+2) × (T+2). *)
Record layout (t : SparseTensor) : Prop := {
  layout_length : length (idx_list t) = length (adj_list t);
  layout_run : ∀ (p : nat) a, adj_list t !! p = Some a →
    ∃ c : Z, idx_list t !! p = Some (arange c (c + length a)) ∧
             0 ≤ c ∧ c + length a ≤ length (values t);
  layout_edges : length (values t) = num_direct_edges t;
  layout_square : square_values (Z.to_nat (tensor_T t + 2)) (values t);
  layout_T : -1 ≤ tensor_T t
}.

(** The array returned by [get_neigh_i] owns its data: an in-place write
    into its entry [k] changes that array and no tensor. *)
Definition owned_write (ms : list matrix) (k : nat) (f : matrix → matrix) : list matrix :=
  alter f k ms.

(** Every entry of [values] satisfies [P]. *)
Definition all_entries (P : Q → Prop) (v : list matrix) : Prop :=
  Forall (Forall (Forall P)) v.

Definition in_unit (x : Q) : Prop := (0 <= x <= 1)%Q.

(** A pair of tensors fit for the builders: the same number of edges and
    matrices of the same square shape. *)
Record lambda_pair (n : nat) (Lambda0 Lambda1 : SparseTensor) : Prop := {
  pair_edges : length (values Lambda0) = length (values Lambda1);
  pair_square0 : square_values n (values Lambda0);
  pair_square1 : square_values n (values Lambda1)
}.

(** A contact the loop can file: its edge exists in both tensors and its
    columns [t + 1] and [t + 2] exist. *)
Definition contact_fits (L : SparseTensor * SparseTensor) (cc : contact) : Prop :=
  edge_exists L.1 (cc0 cc) (cc1 cc) ∧ edge_exists L.2 (cc0 cc) (cc1 cc) ∧
  0 ≤ cc2 cc ∧ cc2 cc < tensor_T L.2 ∧ cc2 cc ≤ tensor_T L.1.

#[global] Instance view_eq_dec : EqDecision view.
Proof. solve_decision. Defined.

(** The contact [cc] is filed in column [c] of slot [e] of a tensor whose
    columns are the times shifted by [off] (2 for Lambda1, 1 for Lambda0). *)
Definition files_at (t : SparseTensor) (off : Z) (e c : nat) (cc : contact) : Prop :=
  get_ij t (cc0 cc) (cc1 cc) = Ok (View e) ∧ cc2 cc + off = c.

#[global] Instance files_at_dec t off e c cc : Decision (files_at t off e c cc).
Proof. unfold files_at. apply _. Defined.

(** The value that the contacts, taken in order from the value [x0], leave
    in column [c] of slot [e]: the rate of the last contact filed there. *)
Definition written_from (t : SparseTensor) (off : Z) (e c : nat) (x0 : Q)
    (contacts : list contact) : Q :=
  foldl (λ x cc, if decide (files_at t off e c cc) then cc3 cc else x) x0 contacts.

Definition written (t : SparseTensor) (off : Z) (contacts : list contact)
    (e c : nat) : Q :=
  written_from t off e c 0%Q contacts.

(** Product of the entries of a row. *)
Definition prodQ (l : list Q) : Q := foldr Qmult 1%Q l.

(** Probability of no transmission up to column [c] when [a c'] is the rate
    in column [c']. *)
Definition survival (a : nat → Q) (c : nat) : Q :=
  prodQ ((λ c' : nat, 1 - a c')%Q <$> seq 0 (S c)).

(** The coefficient in column [c] of a mask row with [ones] leading ones:
    1 under the leading ones, then the mask, then 0. *)
Definition mask_at (ones : Z) (mask : list Q) (c : nat) : Q :=
  if decide ((c : Z) < ones) then 1%Q
  else default 0%Q (mask !! (c - Z.to_nat ones)%nat).

(** What one iteration of the loop needs of its contact on matrices with
    [n] columns: the edge has a view in both tensors and the columns
    [t + 2] and [t + 1] are subscripts of a row. *)
Definition contact_filed (n : nat) (L : SparseTensor * SparseTensor) (cc : contact) : Prop :=
  (∃ w, get_ij L.2 (cc0 cc) (cc1 cc) = Ok w) ∧
  (∃ c, py_index n (cc2 cc + 2) = Ok c) ∧
  (∃ w, get_ij L.1 (cc0 cc) (cc1 cc) = Ok w) ∧
  (∃ c, py_index n (cc2 cc + 1) = Ok c).

(** Contacts that address the same matrix of [t] at the same time carry the
    same rate. *)
Definition consistent_rates (t : SparseTensor) (cs : list contact) : Prop :=
  ∀ cc cc', cc ∈ cs → cc' ∈ cs →
    get_ij t (cc0 cc) (cc1 cc) = get_ij t (cc0 cc') (cc1 cc') →
    cc2 cc = cc2 cc' → cc3 cc = cc3 cc'.

(** The scenario of the specification. *)
Definition scenario_contacts : list contact := [(0, 1, 0, (1 # 2)%Q)].

(** The tensor that construction returns for N = 2, T = 1 and the contacts
    of the scenario (see [init_scenario]). *)
Definition scenario_tensor : SparseTensor :=
  {| idx_list := [[0]; [1]]; adj_list := [[1]; [0]];
     tensor_N := 2; tensor_T := 1; num_direct_edges := 2; degree := [1; 1];
     values := replicate 2 (replicate 3 (replicate 3 (1 # 9)%Q)) |}.

(** The tensor that construction returns for N = 2, T = 2 and contacts
    between the nodes 0 and 1 (see [init_two_steps]). *)
Definition two_steps_tensor : SparseTensor :=
  {| idx_list := [[0]; [1]]; adj_list := [[1]; [0]];
     tensor_N := 2; tensor_T := 2; num_direct_edges := 2; degree := [1; 1];
     values := replicate 2 (replicate 4 (replicate 4 (1 # 16)%Q)) |}.

Definition two_steps_contacts : list contact :=
  [(0, 1, 0, (1 # 2)%Q); (0, 1, 1, (1 # 3)%Q)].

Definition scenario : result (SparseTensor * SparseTensor) :=
  Lambda0 ← new_SparseTensor 2 1 scenario_contacts None;
  Lambda1 ← new_SparseTensor 0 0 [] (Some Lambda0);
  compute_Lambdas Lambda0 Lambda1 scenario_contacts.

(** ** Tactics *)

(** Splits a hypothesis [H : (x ← m; k) = Ok y] into [E : m = Ok x] and
    [H : k = Ok y]. *)
Ltac inv_bind H :=
  let x := fresh "x" in
  let E := fresh "E" in
  let H' := fresh in
  cbv beta in H;
  lazymatch type of H with
  | mbind ?f ?m = Ok ?y =>
      assert (∃ x, m = Ok x ∧ f x = Ok y) as H'
        by (destruct m; [eexists; split; [reflexivity|exact H] | discriminate H]);
      clear H; destruct H' as (x & E & H); cbv beta in H
  end.

(** Decides a [Forall] over a concrete list whose property is linear
    arithmetic on the elements. *)
Ltac forall_concrete :=
  repeat (apply Forall_cons; split;
          [cbv [cc0 cc1 cc2 cc3 in_unit]; simpl; (lia || lra)|]);
  apply Forall_nil_2.

(** Decides [square_values] on a concrete array. *)
Ltac square_concrete :=
  repeat (constructor; [vm_compute; by repeat constructor|]); constructor.

(** * Properties *)

(** ** Results *)

Lemma bind_Ok {A B} (m : result A) (f : A → result B) (y : B) :
  m ≫= f = Ok y ↔ ∃ x, m = Ok x ∧ f x = Ok y.
Proof.
  destruct m as [a|e]; simpl; split.
  - intros H. by exists a.
  - by intros (x & [= ->] & H).
  - intros [=].
  - by intros (x & [=] & _).
Qed.

Lemma collect_Ok {X Y} (f : X → result Y) l ys :
  collect f l = Ok ys ↔ Forall2 (λ x y, f x = Ok y) l ys.
Proof.
  revert ys. induction l as [|x l IH]; intros ys; simpl.
  - split; [intros [= <-]; constructor | by inversion 1].
  - split.
    + intros H. inv_bind H. inv_bind H. injection H as <-.
      constructor; [done | by apply IH].
    + inversion 1 as [|? y ? ys' Hy Hys]; subst.
      rewrite Hy. simpl. apply IH in Hys. by rewrite Hys.
Qed.

(** ** Subscripts *)

Lemma py_index_Ok (len : nat) k p :
  py_index len k = Ok p →
  (p < len)%nat ∧ ((0 ≤ k ∧ (p : Z) = k) ∨ (k < 0 ∧ (p : Z) = k + len)).
Proof.
  unfold py_index. repeat case_bool_decide; intros [= <-]; lia.
Qed.

Lemma py_index_nat len (p : nat) : (p < len)%nat → py_index len p = Ok p.
Proof.
  intros H. unfold py_index. rewrite bool_decide_true by lia.
  by rewrite Nat2Z.id.
Qed.

Lemma py_index_raise (len : nat) k :
  ¬ (- len ≤ k < len) → py_index len k = Raise IndexError.
Proof. intros H. unfold py_index. by rewrite !bool_decide_false by lia. Qed.

Lemma py_index_inv (len : nat) k e : py_index len k = Raise e → e = IndexError ∧ ¬ (- len ≤ k < len).
Proof. unfold py_index. repeat case_bool_decide; intros [= <-]; split; [done | lia]. Qed.

Lemma getitem_Ok {A} (l : list A) k x :
  getitem l k = Ok x ↔ ∃ p, py_index (length l) k = Ok p ∧ l !! p = Some x.
Proof.
  unfold getitem. rewrite bind_Ok. split.
  - intros (p & Hp & H). exists p. split; [done|].
    destruct (l !! p); by inversion H.
  - intros (p & Hp & H). exists p. by rewrite H.
Qed.

Lemma getitem_nat {A} (l : list A) (p : nat) x :
  l !! p = Some x → getitem l p = Ok x.
Proof.
  intros H. apply getitem_Ok. exists p. split; [|done].
  apply py_index_nat. by eapply lookup_lt_Some.
Qed.

Lemma getitem_in_range {A} (l : list A) k :
  - length l ≤ k < length l → ∃ x, getitem l k = Ok x.
Proof.
  intros H. unfold getitem, py_index.
  case_bool_decide as H1; simpl.
  - destruct (lookup_lt_is_Some_2 l (Z.to_nat k)) as [x Hx]; [lia|].
    exists x. by rewrite Hx.
  - rewrite bool_decide_true by lia. simpl.
    destruct (lookup_lt_is_Some_2 l (Z.to_nat (k + length l))) as [x Hx]; [lia|].
    exists x. by rewrite Hx.
Qed.

Lemma list_index_Ok l x k :
  list_index l x = Ok k → ∃ p : nat, k = p ∧ l !! p = Some x ∧ ∀ q y, (q < p)%nat → l !! q = Some y → y ≠ x.
Proof.
  revert k. induction l as [|y l IH]; intros k; simpl; [done|].
  case_bool_decide as Hy.
  - intros [= <-]. exists 0%nat. subst. split_and!; [done|done|lia].
  - intros H. inv_bind H. injection H as <-.
    destruct (IH _ E) as (p & -> & Hp & Hfirst).
    exists (S p). split; [lia|]. split; [done|].
    intros [|q] z Hq; simpl; [by intros [= <-]|].
    apply Hfirst. lia.
Qed.

Lemma list_index_elem_of l x : x ∈ l → ∃ k, list_index l x = Ok k.
Proof.
  induction 1 as [x l|x y l _ [k IH]]; simpl.
  - rewrite bool_decide_true by done. eauto.
  - case_bool_decide; [eauto|]. rewrite IH. simpl. eauto.
Qed.

Lemma list_index_not_elem_of l x : x ∉ l → list_index l x = Raise ValueError.
Proof.
  induction l as [|y l IH]; simpl; [done|].
  intros H. apply not_elem_of_cons in H as [H1 H2].
  rewrite bool_decide_false by done. by rewrite IH.
Qed.

(** ** [np.arange] *)

Lemma length_arange a b : length (arange a b) = Z.to_nat (b - a).
Proof. unfold arange. by rewrite length_fmap, length_seq. Qed.

Lemma lookup_arange a b (k : nat) :
  a + k < b → arange a b !! k = Some (a + k).
Proof.
  intros H. unfold arange. rewrite list_lookup_fmap, lookup_seq_lt by lia. done.
Qed.

Lemma arange_app a b c : a ≤ b → b ≤ c → arange a b ++ arange b c = arange a c.
Proof.
  intros Hab Hbc. unfold arange.
  replace (Z.to_nat (c - a)) with (Z.to_nat (b - a) + Z.to_nat (c - b))%nat by lia.
  rewrite seq_app, fmap_app. f_equal. simpl.
  assert (seq (Z.to_nat (b - a)) (Z.to_nat (c - b))
          = Nat.add (Z.to_nat (b - a)) <$> seq 0 (Z.to_nat (c - b))) as ->.
  { rewrite fmap_add_seq. f_equal. lia. }
  rewrite <- list_fmap_compose.
  apply list_fmap_ext. intros _ k _. simpl. lia.
Qed.

(** ** [np.unique] on rows *)

#[global] Instance row_lt_irrefl : Irreflexive row_lt.
Proof. intros [a b] H. unfold row_lt in H. simpl in H. lia. Qed.

#[global] Instance row_lt_trans : Transitive row_lt.
Proof. intros [a b] [c d] [e f]. unfold row_lt. simpl. lia. Qed.

Lemma row_lt_trichotomy (a b : row) : row_lt a b ∨ a = b ∨ row_lt b a.
Proof.
  destruct a as [a1 a2], b as [b1 b2]. unfold row_lt. simpl.
  destruct (Z.lt_trichotomy a1 b1) as [?|[->|?]]; [auto| |auto].
  destruct (Z.lt_trichotomy a2 b2) as [?|[->|?]]; auto.
Qed.

Lemma elem_of_insert_row e l x : x ∈ insert_row e l ↔ x = e ∨ x ∈ l.
Proof.
  induction l as [|y l IH]; simpl.
  - rewrite list_elem_of_singleton, elem_of_nil. tauto.
  - repeat case_bool_decide; subst; rewrite ?elem_of_cons, ?IH, ?elem_of_cons; tauto.
Qed.

Lemma insert_row_sorted e l :
  StronglySorted row_lt l → StronglySorted row_lt (insert_row e l).
Proof.
  induction 1 as [|x l Hl IH Hx]; simpl.
  - repeat constructor.
  - case_bool_decide as H1; [|case_bool_decide as H2].
    + constructor; [by constructor|].
      constructor; [done|]. eapply Forall_impl; [exact Hx|].
      intros y Hy. by etrans.
    + by constructor.
    + constructor; [done|]. apply Forall_forall. intros y Hy.
      apply elem_of_insert_row in Hy as [->|Hy].
      * destruct (row_lt_trichotomy e x) as [?|[?|?]]; done.
      * rewrite Forall_forall in Hx. by apply Hx.
Qed.

Lemma elem_of_np_unique a x : x ∈ np_unique a ↔ x ∈ a.
Proof.
  unfold np_unique. induction a as [|y a IH]; simpl; [done|].
  rewrite elem_of_insert_row, IH, elem_of_cons. tauto.
Qed.

Lemma np_unique_sorted a : StronglySorted row_lt (np_unique a).
Proof.
  unfold np_unique. induction a as [|y a IH]; simpl.
  - constructor.
  - by apply insert_row_sorted.
Qed.

Lemma sorted_rows_NoDup l : StronglySorted row_lt l → NoDup l.
Proof.
  induction 1 as [|x l Hl IH Hx]; constructor; [|done].
  intros Hin. rewrite Forall_forall in Hx.
  by apply (irreflexivity row_lt x), Hx.
Qed.

Lemma sorted_rows_unique l1 l2 :
  StronglySorted row_lt l1 → StronglySorted row_lt l2 →
  (∀ x, x ∈ l1 ↔ x ∈ l2) → l1 = l2.
Proof.
  intros H1 H2 Heq. apply (StronglySorted_unique_strong row_lt); [|done..|].
  - intros x y _ _ Hxy Hyx. destruct (irreflexivity row_lt x). by etrans.
  - apply NoDup_Permutation; auto using sorted_rows_NoDup.
Qed.

(** ** The edge array *)

Lemma edge_list_of_sorted cs : StronglySorted row_lt (edge_list_of cs).
Proof. destruct cs; [constructor | apply np_unique_sorted]. Qed.

Lemma elem_of_edge_list_of cs (a b : Z) :
  (a, b) ∈ edge_list_of cs ↔
  ∃ cc, cc ∈ cs ∧ ((a = cc0 cc ∧ b = cc1 cc) ∨ (a = cc1 cc ∧ b = cc0 cc)).
Proof.
  assert (∀ l : list contact, (a, b) ∈
    np_unique (np_unique ((λ cc, (cc0 cc, cc1 cc)) <$> l) ++
               np_flip (np_unique ((λ cc, (cc0 cc, cc1 cc)) <$> l))) ↔
    ∃ cc, cc ∈ l ∧ ((a = cc0 cc ∧ b = cc1 cc) ∨ (a = cc1 cc ∧ b = cc0 cc))) as H.
  { intros l. rewrite elem_of_np_unique, elem_of_app. unfold np_flip.
    rewrite list_elem_of_fmap. setoid_rewrite elem_of_np_unique.
    setoid_rewrite list_elem_of_fmap. split.
    - intros [(cc & [= -> ->] & Hcc)|([x y] & [= -> ->] & cc & [= -> ->] & Hcc)];
        exists cc; auto.
    - intros (cc & Hcc & [[-> ->]|[-> ->]]).
      + left. by exists cc.
      + right. exists (cc0 cc, cc1 cc). split; [done|]. by exists cc. }
  destruct cs as [|c cs]; [|apply H].
  simpl. split; [by intros ?%elem_of_nil | by intros (? & ?%elem_of_nil & _)].
Qed.

Lemma edge_list_of_symmetric cs a b :
  (a, b) ∈ edge_list_of cs → (b, a) ∈ edge_list_of cs.
Proof. rewrite !elem_of_edge_list_of. intros (cc & ? & ?). exists cc. tauto. Qed.

(** The edge array is a function of the set of node pairs of the contacts. *)
Lemma edge_list_of_set cs1 cs2 :
  same_pairs cs1 cs2 → edge_list_of cs1 = edge_list_of cs2.
Proof.
  intros H. apply sorted_rows_unique; auto using edge_list_of_sorted.
  intros [a b]. rewrite !elem_of_edge_list_of. split.
  - intros (cc & Hcc & [[-> ->]|[-> ->]]);
      destruct (proj1 (H (cc0 cc) (cc1 cc))) as (cc' & ? & E0 & E1); eauto;
      exists cc'; rewrite E0, E1; auto.
  - intros (cc & Hcc & [[-> ->]|[-> ->]]);
      destruct (proj2 (H (cc0 cc) (cc1 cc))) as (cc' & ? & E0 & E1); eauto;
      exists cc'; rewrite E0, E1; auto.
Qed.

(** ** The loop over the edge array *)

Lemma append_edge_Ok adj e adj' :
  append_edge adj e = Ok adj' ↔
  ∃ p, py_index (length adj) e.1 = Ok p ∧ adj' = alter (λ a, a ++ [e.2]) p adj.
Proof.
  unfold append_edge. rewrite bind_Ok. split.
  - intros (p & Hp & [= <-]). eauto.
  - intros (p & Hp & ->). eauto.
Qed.

Lemma for_each_append_edge edges adj0 adj :
  for_each append_edge adj0 edges = Ok adj →
  length adj = length adj0 ∧
  ∀ p : nat, adj !! p =
    (λ a, a ++ (edges_into (length adj0) p edges).*2) <$> adj0 !! p.
Proof.
  revert adj0. induction edges as [|e edges IH]; intros adj0; simpl.
  - intros [= <-]. split; [done|]. intros p. unfold edges_into. simpl.
    destruct (adj0 !! p); simpl; [|done]. by rewrite app_nil_r.
  - intros H. inv_bind H. apply append_edge_Ok in E as (q & Hq & ->).
    apply IH in H as [Hlen Hadj]. rewrite length_alter in Hlen, Hadj.
    split; [done|]. intros p. rewrite Hadj.
    unfold edges_into. rewrite filter_cons, Hq.
    destruct (decide (q = p)) as [->|Hp].
    + rewrite list_lookup_alter_eq, decide_True by done.
      destruct (adj0 !! p); simpl; [|done]. by rewrite <- app_assoc.
    + rewrite list_lookup_alter_ne, decide_False by congruence. done.
Qed.

Lemma for_each_append_edge_total edges adj0 :
  Forall (λ e : row, - length adj0 ≤ e.1 < length adj0) edges →
  ∃ adj, for_each append_edge adj0 edges = Ok adj.
Proof.
  revert adj0. induction edges as [|e edges IH]; intros adj0 H; simpl; [eauto|].
  apply Forall_cons in H as [He H].
  destruct (py_index (length adj0) e.1) as [p|x] eqn:E.
  - assert (append_edge adj0 e = Ok (alter (λ a, a ++ [e.2]) p adj0)) as ->.
    { apply append_edge_Ok. eauto. }
    simpl. apply IH. by rewrite length_alter.
  - apply py_index_inv in E. tauto.
Qed.

Lemma sum_lengths_alter (adj : list (list Z)) (p : nat) x :
  (p < length adj)%nat →
  sum_list_with length (alter (λ a, a ++ [x]) p adj) = S (sum_list_with length adj).
Proof.
  revert p. induction adj as [|a adj IH]; intros p Hp; simpl in Hp; [lia|].
  destruct p as [|p].
  - simpl. rewrite length_app. simpl. lia.
  - change (alter (λ a, a ++ [x]) (S p) (a :: adj))
      with (a :: alter (λ a, a ++ [x]) p adj).
    simpl. rewrite IH by lia. lia.
Qed.

Lemma for_each_append_edge_count edges adj0 adj :
  for_each append_edge adj0 edges = Ok adj →
  sum_list_with length adj = (sum_list_with length adj0 + length edges)%nat.
Proof.
  revert adj0. induction edges as [|e edges IH]; intros adj0; simpl.
  - intros [= <-]. lia.
  - intros H. inv_bind H. apply append_edge_Ok in E as (q & Hq & ->).
    apply IH in H. rewrite H, sum_lengths_alter; [lia|].
    by apply py_index_Ok in Hq as [? _].
Qed.

(** ** The index lists *)

Lemma length_fill_idx_list c ds : length (fill_idx_list c ds) = length ds.
Proof. revert c. induction ds as [|d ds IH]; intros c; simpl; [done|]. by rewrite IH. Qed.

Lemma concat_fill_idx_list c ds :
  Forall (λ d, 0 ≤ d) ds →
  0 ≤ sumZ ds ∧ concat (fill_idx_list c ds) = arange c (c + sumZ ds).
Proof.
  intros H. revert c. induction H as [|d ds Hd _ IH]; intros c; simpl.
  - split; [done|]. unfold arange. by replace (c + 0 - c) with 0 by lia.
  - destruct (IH (c + d)) as [Hs ->]. split; [lia|].
    rewrite arange_app by lia. f_equal. lia.
Qed.

Lemma lookup_fill_idx_list c ds (p : nat) d :
  ds !! p = Some d →
  fill_idx_list c ds !! p =
    Some (arange (c + sumZ (take p ds)) (c + sumZ (take p ds) + d)).
Proof.
  revert c p. induction ds as [|d' ds IH]; intros c [|p]; simpl; try done.
  - intros [= ->]. do 2 f_equal; lia.
  - intros H. rewrite (IH _ _ H). do 2 f_equal; lia.
Qed.

Lemma sumZ_lengths (adj : list (list Z)) :
  sumZ ((λ a : list Z, Z.of_nat (length a)) <$> adj) = sum_list_with length adj.
Proof.
  unfold sumZ. induction adj as [|a adj IH]; [done|].
  rewrite fmap_cons. cbn [foldr sum_list_with]. rewrite IH. lia.
Qed.

Lemma sumZ_take_le (ds : list Z) (p : nat) d :
  Forall (λ d, 0 ≤ d) ds → ds !! p = Some d →
  0 ≤ sumZ (take p ds) ∧ sumZ (take p ds) + d ≤ sumZ ds.
Proof.
  intros H. revert p. induction H as [|d' ds Hd H IH]; intros [|p]; simpl; try done.
  - intros [= ->]. pose proof (concat_fill_idx_list 0 ds H) as [? _]. lia.
  - intros Hp. apply IH in Hp. lia.
Qed.

(** ** Construction *)

Lemma np_full_Ok e r c x v :
  np_full e r c x = Ok v ↔
  0 ≤ r ∧ 0 ≤ c ∧ v = replicate e (replicate (Z.to_nat r) (replicate (Z.to_nat c) x)).
Proof.
  unfold np_full. case_bool_decide; split.
  - done.
  - lia.
  - intros [= <-]. split_and!; [lia..|done].
  - by intros (_ & _ & ->).
Qed.

Lemma square_values_replicate e n x :
  square_values n (replicate e (replicate n (replicate n x))).
Proof.
  apply Forall_replicate. split; [by rewrite length_replicate|].
  apply Forall_replicate. by rewrite length_replicate.
Qed.

Lemma init_Ok N T cs t :
  init N T cs = Ok t ↔
  ∃ adj,
    for_each append_edge (replicate (Z.to_nat N) []) (edge_list_of cs) = Ok adj ∧
    -1 ≤ T ∧
    t = {| idx_list := fill_idx_list 0 ((λ a : list Z, Z.of_nat (length a)) <$> adj);
           adj_list := adj; tensor_N := N; tensor_T := T;
           num_direct_edges := length (edge_list_of cs);
           degree := (λ a : list Z, Z.of_nat (length a)) <$> adj;
           values := replicate (length (edge_list_of cs))
                       (replicate (Z.to_nat (T + 2))
                          (replicate (Z.to_nat (T + 2))
                             (1 / inject_Z ((T + 2) * (T + 2)))%Q)) |}.
Proof.
  unfold init. rewrite bind_Ok. split.
  - intros (adj & Hadj & H). exists adj. split; [done|].
    inv_bind H. inv_bind H. injection H as <-.
    unfold true_div in E. case_bool_decide as Hz; [done|]. injection E as <-.
    apply np_full_Ok in E0 as (? & _ & ->). split; [nia|done].
  - intros (adj & Hadj & HT & ->). exists adj. split; [done|].
    unfold true_div. rewrite bool_decide_false by nia. simpl.
    unfold np_full. rewrite bool_decide_false by lia. done.
Qed.

Lemma init_layout N T cs t : init N T cs = Ok t → layout t.
Proof.
  intros H. apply init_Ok in H as (adj & Hadj & HT & ->).
  pose proof (for_each_append_edge_count _ _ _ Hadj) as Hcount.
  assert (sum_list_with length (replicate (Z.to_nat N) ([] : list Z)) = 0%nat) as Hz.
  { clear. generalize (Z.to_nat N). intros n. induction n as [|n IH]; [done|].
    simpl. exact IH. }
  rewrite Hz in Hcount. simpl in Hcount.
  split; simpl.
  - by rewrite length_fill_idx_list, length_fmap.
  - intros p a Hp.
    set (ds := (λ a : list Z, Z.of_nat (length a)) <$> adj).
    assert (ds !! p = Some (Z.of_nat (length a))) as Hd.
    { unfold ds. by rewrite list_lookup_fmap, Hp. }
    assert (Forall (λ d, 0 ≤ d) ds) as Hpos.
    { unfold ds. apply Forall_fmap, Forall_true. intros ?. apply Nat2Z.is_nonneg. }
    exists (sumZ (take p ds)). rewrite (lookup_fill_idx_list _ _ _ _ Hd).
    split; [do 2 f_equal; lia|].
    pose proof (sumZ_take_le _ _ _ Hpos Hd) as [? ?].
    unfold ds in *. rewrite sumZ_lengths in *. rewrite length_replicate. lia.
  - by rewrite length_replicate.
  - apply square_values_replicate.
  - done.
Qed.

Lemma init_total N T cs :
  valid_nodes N cs → -1 ≤ T → ∃ t, init N T cs = Ok t.
Proof.
  intros Hv HT.
  destruct (for_each_append_edge_total (edge_list_of cs) (replicate (Z.to_nat N) []))
    as [adj Hadj].
  { rewrite length_replicate. apply Forall_forall. intros [a b] Hab.
    apply elem_of_edge_list_of in Hab as (cc & Hcc & Hab).
    unfold valid_nodes in Hv. rewrite Forall_forall in Hv.
    specialize (Hv cc Hcc). simpl. lia. }
  eexists. apply init_Ok. eauto.
Qed.

Lemma for_each_append_edge_hits edges adj0 adj :
  for_each append_edge adj0 edges = Ok adj →
  Forall (λ e : row, ∃ p, py_index (length adj0) e.1 = Ok p) edges.
Proof.
  revert adj0. induction edges as [|e edges IH]; intros adj0; simpl; [by constructor|].
  intros H. inv_bind H. apply append_edge_Ok in E as (q & Hq & ->).
  apply IH in H. rewrite length_alter in H. constructor; eauto.
Qed.

(** After construction the adjacency list in position [p] holds the second
    components of the edges sent to [p], in the order of the edge array. *)
Lemma init_adj_list N T cs t (p : nat) :
  init N T cs = Ok t → (p < Z.to_nat N)%nat →
  adj_list t !! p = Some (edges_into (Z.to_nat N) p (edge_list_of cs)).*2.
Proof.
  intros H Hp. apply init_Ok in H as (adj & Hadj & _ & ->). simpl.
  apply for_each_append_edge in Hadj as [_ Hadj].
  rewrite Hadj, length_replicate, lookup_replicate_2 by done. done.
Qed.

Lemma init_length_adj_list N T cs t :
  init N T cs = Ok t → length (adj_list t) = Z.to_nat N.
Proof.
  intros H. apply init_Ok in H as (adj & Hadj & _ & ->). simpl.
  apply for_each_append_edge in Hadj as [-> _]. by rewrite length_replicate.
Qed.

Lemma init_edge N T cs t a b :
  init N T cs = Ok t → (a, b) ∈ edge_list_of cs →
  ∃ l, getitem (adj_list t) a = Ok l ∧ b ∈ l.
Proof.
  intros H Hab. pose proof (init_length_adj_list _ _ _ _ H) as Hlen.
  pose proof H as H'. apply init_Ok in H' as (adj & Hadj & _ & ->). simpl in *.
  apply for_each_append_edge_hits in Hadj. rewrite Forall_forall in Hadj.
  destruct (Hadj _ Hab) as [p Hp]. rewrite length_replicate in Hp. simpl in Hp.
  pose proof (py_index_Ok _ _ _ Hp) as [Hlt _].
  exists (edges_into (Z.to_nat N) p (edge_list_of cs)).*2. split.
  - apply getitem_Ok. exists p. rewrite Hlen. split; [done|].
    by apply (init_adj_list _ _ _ _ _ H).
  - apply list_elem_of_fmap. exists (a, b). split; [done|].
    unfold edges_into. by apply list_elem_of_filter.
Qed.

(** ** The accessors *)

Lemma get_idx_ij_Ok t i j idx :
  get_idx_ij t i j = Ok idx ↔
  ∃ a idx_i r, getitem (adj_list t) j = Ok a ∧ list_index a i = Ok idx_i ∧
               getitem (idx_list t) j = Ok r ∧ getitem r idx_i = Ok idx.
Proof.
  unfold get_idx_ij. split.
  - intros H. inv_bind H. inv_bind H. inv_bind H. eauto 10.
  - intros (a & idx_i & r & -> & Hi & Hr & H). simpl.
    rewrite Hi. simpl. by rewrite Hr.
Qed.

Lemma get_ij_Ok t i j w :
  get_ij t i j = Ok w ↔
  ∃ idx, get_idx_ij t i j = Ok idx ∧
         py_index (length (values t)) idx = Ok (view_slot w).
Proof.
  unfold get_ij. rewrite bind_Ok. setoid_rewrite bind_Ok. split.
  - intros (idx & Hidx & p & Hp & [= <-]). eauto.
  - intros (idx & Hidx & Hp). destruct w as [p]. simpl in Hp. eauto.
Qed.

Lemma get_ij_set_values t v i j :
  length v = length (values t) → get_ij (set_values v t) i j = get_ij t i j.
Proof. intros H. unfold get_ij. simpl. by rewrite H. Qed.

Lemma get_ij_raise t i j e :
  get_idx_ij t i j = Raise e → get_ij t i j = Raise e.
Proof. unfold get_ij. by intros ->. Qed.

(** On a tensor with the layout of construction an existing edge has a slot,
    the one at the sender's position in the receiver's run of slots. *)
Lemma get_idx_ij_layout t i j :
  layout t → edge_exists t i j →
  ∃ (p k : nat) a (c : Z),
    py_index (length (adj_list t)) j = Ok p ∧ adj_list t !! p = Some a ∧
    list_index a i = Ok (k : Z) ∧ a !! k = Some i ∧
    idx_list t !! p = Some (arange c (c + length a)) ∧
    0 ≤ c ∧ c + k < length (values t) ∧
    get_idx_ij t i j = Ok (c + k) ∧ get_ij t i j = Ok (View (Z.to_nat (c + k))).
Proof.
  intros Hl (a & Ha & Hi). apply getitem_Ok in Ha as (p & Hp & Ha).
  destruct (layout_run t Hl p a Ha) as (c & Hr & Hc & Hle).
  destruct (list_index_elem_of _ _ Hi) as [k' Hk'].
  destruct (list_index_Ok _ _ _ Hk') as (k & -> & Hk & _).
  pose proof (lookup_lt_Some _ _ _ Hk) as Hlt.
  assert (get_idx_ij t i j = Ok (c + k)) as Hidx.
  { apply get_idx_ij_Ok. exists a, (k : Z), (arange c (c + length a)).
    split_and!; [apply getitem_Ok; eauto|done| |].
    - apply getitem_Ok. exists p. by rewrite (layout_length t Hl).
    - apply getitem_nat, lookup_arange. lia. }
  exists p, k, a, c. split_and!; try done; [lia|].
  apply get_ij_Ok. exists (c + k). split; [done|]. simpl.
  rewrite <- (Z2Nat.id (c + k)) at 1 by lia. apply py_index_nat. lia.
Qed.

(** ** Construction: the slot partition *)

(** C5. Whatever tensor construction returns, the index lists of the nodes
    0, 1, ..., N-1, concatenated in this order, are exactly the sequence
    0, 1, ..., num_direct_edges - 1 (so every slot of [values] occurs once
    and only once); and construction does return a tensor when the contacts
    name nodes of [0 .. N-1] and [T >= -1]. *)
Theorem idx_list_partition (N T : Z) (contacts : list contact) :
  (∀ t, init N T contacts = Ok t →
        length (idx_list t) = Z.to_nat N ∧
        concat (idx_list t) = Z.of_nat <$> seq 0 (num_direct_edges t) ∧
        NoDup (concat (idx_list t)) ∧
        length (values t) = num_direct_edges t) ∧
  (valid_nodes N contacts → -1 ≤ T → ∃ t, init N T contacts = Ok t).
Proof.
  split; [|apply init_total].
  intros t H. split.
  { pose proof (init_layout _ _ _ _ H) as Hl.
    by rewrite (layout_length t Hl), (init_length_adj_list _ _ _ _ H). }
  apply init_Ok in H as (adj & Hadj & HT & ->). simpl.
  pose proof (for_each_append_edge_count _ _ _ Hadj) as Hcount.
  assert (sum_list_with length (replicate (Z.to_nat N) ([] : list Z)) = 0%nat) as Hz.
  { clear. generalize (Z.to_nat N). intros n. induction n as [|n IH]; [done|].
    simpl. exact IH. }
  rewrite Hz in Hcount. simpl in Hcount.
  destruct (concat_fill_idx_list 0 ((λ a : list Z, Z.of_nat (length a)) <$> adj))
    as [_ Hconcat].
  { apply Forall_fmap, Forall_true. intros ?. apply Nat2Z.is_nonneg. }
  rewrite sumZ_lengths, Hcount in Hconcat.
  assert (arange 0 (0 + length (edge_list_of contacts))
          = Z.of_nat <$> seq 0 (length (edge_list_of contacts))) as Har.
  { unfold arange. replace (Z.to_nat _) with (length (edge_list_of contacts)) by lia.
    apply list_fmap_ext. intros _ k _. lia. }
  rewrite Hconcat, Har. split_and!; [done| |by rewrite length_replicate].
  apply NoDup_fmap_2; [apply _ | apply NoDup_seq].
Qed.

Lemma idx_list_partition_witness :
  ∃ t, init 3 1 [(0, 1, 0, (1 # 2)%Q); (2, 1, 1, (1 # 3)%Q); (1, 0, 1, (1 # 4)%Q)] = Ok t ∧
       idx_list t = [[0]; [1; 2]; [3]] ∧
       concat (idx_list t) = Z.of_nat <$> seq 0 (num_direct_edges t).
Proof.
  eexists. split; [vm_compute; reflexivity|]. split; [reflexivity|].
  refine (proj1 (proj2 (proj1 (idx_list_partition 3 1
    [(0, 1, 0, (1 # 2)%Q); (2, 1, 1, (1 # 3)%Q); (1, 0, 1, (1 # 4)%Q)]) _ _))).
  vm_compute; reflexivity.
Defined.

(** ** Construction: symmetry *)

(** C7. Whatever tensor construction returns, every contact with node pair
    (i, j) has both directed edges in it: j is in [adj_list[i]] and i is in
    [adj_list[j]], and both edges have a slot, whether or not a contact with
    pair (j, i) was supplied; and construction does return a tensor when the
    contacts name nodes of [0 .. N-1] and [T >= -1]. *)
Theorem construction_symmetrizes (N T : Z) (contacts : list contact) :
  (∀ t cc, init N T contacts = Ok t → cc ∈ contacts →
     edge_exists t (cc1 cc) (cc0 cc) ∧ edge_exists t (cc0 cc) (cc1 cc) ∧
     (∃ idx, get_idx_ij t (cc1 cc) (cc0 cc) = Ok idx) ∧
     (∃ idx, get_idx_ij t (cc0 cc) (cc1 cc) = Ok idx)) ∧
  (valid_nodes N contacts → -1 ≤ T → ∃ t, init N T contacts = Ok t).
Proof.
  split; [|apply init_total].
  intros t cc H Hcc.
  assert ((cc0 cc, cc1 cc) ∈ edge_list_of contacts) as H1.
  { apply elem_of_edge_list_of. exists cc. auto. }
  pose proof (edge_list_of_symmetric _ _ _ H1) as H2.
  assert (edge_exists t (cc1 cc) (cc0 cc)) as E1 by (eapply init_edge; eauto).
  assert (edge_exists t (cc0 cc) (cc1 cc)) as E2 by (eapply init_edge; eauto).
  pose proof (init_layout _ _ _ _ H) as Hl.
  split_and!; [done|done| |].
  - destruct (get_idx_ij_layout t _ _ Hl E1) as (?&?&?&c&?&?&?&?&?&?&?&?&?). eauto.
  - destruct (get_idx_ij_layout t _ _ Hl E2) as (?&?&?&c&?&?&?&?&?&?&?&?&?). eauto.
Qed.

Lemma construction_symmetrizes_witness :
  ∃ t, init 3 1 [(0, 2, 0, (1 # 2)%Q)] = Ok t ∧
       adj_list t = [[2]; []; [0]] ∧
       edge_exists t 2 0 ∧ get_idx_ij t 2 0 = Ok 0 ∧ get_idx_ij t 0 2 = Ok 1.
Proof.
  eexists. split; [vm_compute; reflexivity|]. split; [reflexivity|].
  split; [|split; reflexivity].
  refine (proj1 (proj1 (construction_symmetrizes 3 1 [(0, 2, 0, (1 # 2)%Q)])
                   _ (0, 2, 0, (1 # 2)%Q) _ _)).
  - vm_compute; reflexivity.
  - by left.
Defined.

(** ** Lookups of edges that do not exist *)

Lemma get_idx_ij_absent t i j :
  ¬ edge_exists t i j →
  (- length (adj_list t) ≤ j < length (adj_list t) ∧
   get_idx_ij t i j = Raise ValueError) ∨
  (¬ (- length (adj_list t) ≤ j < length (adj_list t)) ∧
   get_idx_ij t i j = Raise IndexError).
Proof.
  intros Hne. unfold get_idx_ij.
  destruct (decide (- length (adj_list t) ≤ j < length (adj_list t))) as [Hj|Hj].
  - left. split; [done|].
    destruct (getitem_in_range (adj_list t) j Hj) as [a Ha]. rewrite Ha. simpl.
    rewrite list_index_not_elem_of; [done|].
    intros Hi. apply Hne. by exists a.
  - right. split; [done|]. unfold getitem.
    by rewrite (py_index_raise _ _ Hj).
Qed.

Lemma init_empty_no_edge N T t i j : init N T [] = Ok t → ¬ edge_exists t i j.
Proof.
  intros H (a & Ha & Hi). apply getitem_Ok in Ha as (p & Hp & Ha).
  apply py_index_Ok in Hp as [Hp _].
  rewrite (init_length_adj_list _ _ _ _ H) in Hp.
  rewrite (init_adj_list _ _ _ _ p H Hp) in Ha. injection Ha as <-.
  simpl in Hi. by apply elem_of_nil in Hi.
Qed.

Lemma fill_idx_list_zeros c (n : nat) :
  fill_idx_list c (replicate n 0) = replicate n [].
Proof.
  induction n as [|n IH]; simpl; [done|].
  replace (c + 0) with c by lia. rewrite IH. f_equal.
  unfold arange. by replace (Z.to_nat (c - c)) with 0%nat by lia.
Qed.

Lemma init_empty_adj_idx N T t :
  init N T [] = Ok t →
  adj_list t = replicate (Z.to_nat N) [] ∧ idx_list t = replicate (Z.to_nat N) [].
Proof.
  intros H. apply init_Ok in H as (adj & Hadj & _ & ->). simpl in *.
  injection Hadj as <-. split; [done|].
  rewrite fmap_replicate. simpl. apply fill_idx_list_zeros.
Qed.

(** C3, as the code has it.  A lookup of an edge that does not exist fails
    in both accessors, with the exception of the failing step: [ValueError]
    from [list.index] when [j] is a valid subscript of the adjacency lists
    ([-N <= j < N]) and [i] is not in [adj_list[j]], and [IndexError] (the
    only one of the two that is a [LookupError]) when [j] is no valid
    subscript.  On a tensor built from an empty contact list every lookup of
    every pair (i, j) fails in one of these two ways, while the accessors
    of a single node, [get_neigh_i] and [get_all_indices], return empty
    results for every valid node subscript. *)
Theorem lookup_absent_edge_raises :
  (∀ t i j, ¬ edge_exists t i j →
     (- length (adj_list t) ≤ j < length (adj_list t) ∧
      get_idx_ij t i j = Raise ValueError ∧ get_ij t i j = Raise ValueError) ∨
     (¬ (- length (adj_list t) ≤ j < length (adj_list t)) ∧
      get_idx_ij t i j = Raise IndexError ∧ get_ij t i j = Raise IndexError)) ∧
  (∀ N T t i j, init N T [] = Ok t →
     ¬ edge_exists t i j ∧
     ∃ e, get_idx_ij t i j = Raise e ∧ get_ij t i j = Raise e ∧
          e = (if decide (- Z.to_nat N ≤ j < Z.to_nat N)
               then ValueError else IndexError)) ∧
  (∀ N T t i, init N T [] = Ok t → - Z.to_nat N ≤ i < Z.to_nat N →
     get_neigh_i t i = Ok [] ∧ get_all_indices t i = Ok ([], [])).
Proof.
  assert (∀ t i j, ¬ edge_exists t i j →
     (- length (adj_list t) ≤ j < length (adj_list t) ∧
      get_idx_ij t i j = Raise ValueError ∧ get_ij t i j = Raise ValueError) ∨
     (¬ (- length (adj_list t) ≤ j < length (adj_list t)) ∧
      get_idx_ij t i j = Raise IndexError ∧ get_ij t i j = Raise IndexError)) as H1.
  { intros t i j Hne.
    destruct (get_idx_ij_absent t i j Hne) as [[Hj H]|[Hj H]]; [left|right];
      auto using get_ij_raise. }
  split; [exact H1|]. split.
  - intros N T t i j H.
    pose proof (init_empty_no_edge _ _ _ i j H) as Hne.
    split; [done|].
    rewrite <- (init_length_adj_list _ _ _ _ H).
    destruct (H1 t i j Hne) as [(Hj & -> & ->)|(Hj & -> & ->)].
    + exists ValueError. by rewrite decide_True.
    + exists IndexError. by rewrite decide_False.
  - intros N T t i H Hi. apply init_empty_adj_idx in H as [Hadj Hidx].
    unfold get_neigh_i, get_all_indices.
    assert (∀ l : list (list Z), l = replicate (Z.to_nat N) [] → getitem l i = Ok []) as Hget.
    { intros l ->. destruct (getitem_in_range (replicate (Z.to_nat N) ([] : list Z)) i)
        as [r Hr]; [by rewrite length_replicate|].
      rewrite Hr. f_equal. apply getitem_Ok in Hr as (p & _ & Hr).
      by apply lookup_replicate in Hr as [-> _]. }
    rewrite (Hget _ Hidx), (Hget _ Hadj). done.
Qed.

(** C3, as stated, fails: on the tensor of two nodes and no contact the
    lookup of (0, 1) raises [ValueError], which is not a [LookupError]. *)
Lemma lookup_absent_edge_not_LookupError :
  ¬ (∀ t i j, ¬ edge_exists t i j →
       ∃ e, get_idx_ij t i j = Raise e ∧ get_ij t i j = Raise e ∧
            is_LookupError e = true).
Proof.
  intros H.
  destruct (init 2 1 []) as [t|] eqn:E; [|discriminate E].
  destruct (H t 0 1 (init_empty_no_edge _ _ _ 0 1 E)) as (e & He & _ & Hlook).
  injection E as <-. vm_compute in He. injection He as <-. discriminate Hlook.
Qed.

(** ** Degenerate sizes *)

Lemma init_bad_T N T cs :
  valid_nodes N cs → T < -1 →
  init N T cs = Raise (if decide (T = -2) then ZeroDivisionError else ValueError).
Proof.
  intros Hv HT. destruct (init_total N 0 cs Hv) as [t Ht]; [lia|].
  apply init_Ok in Ht as (adj & Hadj & _). unfold init. rewrite Hadj. simpl.
  unfold true_div. case_decide as H2.
  - subst T. done.
  - rewrite bool_decide_false by nia. simpl.
    unfold np_full. rewrite bool_decide_true by lia. done.
Qed.

Lemma init_no_node T cs : cs ≠ [] → init 0 T cs = Raise IndexError.
Proof.
  intros Hcs. unfold init.
  destruct (edge_list_of cs) as [|e edges] eqn:E.
  - destruct cs as [|cc cs]; [done|].
    assert ((cc0 cc, cc1 cc) ∈ edge_list_of (cc :: cs)) as Hin.
    { apply elem_of_edge_list_of. exists cc. split; [by left | auto]. }
    rewrite E in Hin. by apply elem_of_nil in Hin.
  - simpl. unfold append_edge. by rewrite py_index_raise by (simpl; lia).
Qed.

(** C9, as the code has it.  Construction validates nothing.  With N = 0 it
    returns the empty tensor for an empty contact list (for every T >= -1)
    and fails, with [IndexError] from the adjacency loop, only when there is
    a contact.  With T = -1 it returns a tensor of 1 × 1 matrices.  It fails
    for T < -1 only because the fill value or the shape cannot be computed:
    [ZeroDivisionError] for T = -2 and [ValueError] for T < -2. *)
Theorem construction_degenerate_sizes :
  (∀ T, -1 ≤ T → ∃ t, new_SparseTensor 0 T [] None = Ok t ∧
        adj_list t = [] ∧ idx_list t = [] ∧ values t = [] ∧
        num_direct_edges t = 0%nat) ∧
  (∀ T contacts, contacts ≠ [] →
        new_SparseTensor 0 T contacts None = Raise IndexError) ∧
  (∀ N contacts, valid_nodes N contacts →
        ∃ t, new_SparseTensor N (-1) contacts None = Ok t ∧
             tensor_T t = -1 ∧ square_values 1 (values t)) ∧
  (∀ N contacts, valid_nodes N contacts →
        new_SparseTensor N (-2) contacts None = Raise ZeroDivisionError) ∧
  (∀ N T contacts, valid_nodes N contacts → T < -2 →
        new_SparseTensor N T contacts None = Raise ValueError).
Proof.
  split_and!; simpl.
  - intros T HT. destruct (init_total 0 T []) as [t Ht]; [by constructor|done|].
    exists t. split; [done|].
    apply init_Ok in Ht as (adj & Hadj & _ & ->). simpl in Hadj.
    injection Hadj as <-. done.
  - apply init_no_node.
  - intros N cs Hv. destruct (init_total N (-1) cs Hv) as [t Ht]; [done|].
    exists t. split; [done|]. pose proof (init_layout _ _ _ _ Ht) as Hl.
    apply init_Ok in Ht as (adj & _ & _ & ->). simpl. split; [done|].
    apply (square_values_replicate _ 1).
  - intros N cs Hv. by rewrite init_bad_T by done.
  - intros N T cs Hv HT. rewrite init_bad_T by (done || lia).
    by rewrite decide_False by lia.
Qed.

Lemma construction_degenerate_sizes_witness :
  (∃ t, new_SparseTensor 2 (-1) scenario_contacts None = Ok t ∧
        tensor_T t = -1 ∧ square_values 1 (values t)) ∧
  new_SparseTensor 2 (-2) scenario_contacts None = Raise ZeroDivisionError ∧
  new_SparseTensor 2 (-3) scenario_contacts None = Raise ValueError ∧
  new_SparseTensor 0 1 scenario_contacts None = Raise IndexError.
Proof.
  assert (valid_nodes 2 scenario_contacts) as Hv.
  { unfold valid_nodes, scenario_contacts. forall_concrete. }
  destruct construction_degenerate_sizes as (_ & H0 & H1 & H2 & H3).
  split_and!.
  - exact (H1 2 scenario_contacts Hv).
  - exact (H2 2 scenario_contacts Hv).
  - apply (H3 2 (-3) scenario_contacts Hv). lia.
  - apply (H0 1 scenario_contacts). discriminate.
Defined.

(** C9, as stated, fails: N = 0 with T = 0, and N = 2 with T = -1, are
    accepted. *)
Lemma construction_accepts_degenerate_sizes :
  ¬ (∀ N T contacts, N = 0 ∨ T < 0 →
       ∃ e, new_SparseTensor N T contacts None = Raise e) ∧
  (∃ t, new_SparseTensor 0 0 [] None = Ok t) ∧
  (∃ t, new_SparseTensor 2 (-1) [(0, 1, 0, (1 # 2)%Q)] None = Ok t).
Proof.
  split_and!.
  - intros H. destruct (H 0 0 [] ltac:(by left)) as [e He]. discriminate He.
  - eexists. vm_compute. reflexivity.
  - eexists. vm_compute. reflexivity.
Qed.

(** ** Views and copies *)

Lemma collect_total {X Y} (f : X → result Y) l :
  Forall (λ x, ∃ y, f x = Ok y) l → ∃ ys, collect f l = Ok ys.
Proof.
  induction 1 as [|x l [y Hy] _ [ys IH]]; simpl; [eauto|].
  rewrite Hy. simpl. rewrite IH. simpl. eauto.
Qed.

Lemma getitem_alter_is_Ok {A} (f : A → A) (p : nat) (l : list A) k x :
  getitem l k = Ok x → ∃ y, getitem (alter f p l) k = Ok y.
Proof.
  intros H. apply getitem_Ok in H as (q & Hq & Hx).
  apply getitem_in_range. rewrite length_alter.
  apply py_index_Ok in Hq. lia.
Qed.

Lemma list_index_nonneg l x k : list_index l x = Ok k → 0 ≤ k.
Proof. intros H. apply list_index_Ok in H as (p & -> & _). lia. Qed.

Lemma list_index_NoDup l (k : nat) x :
  NoDup l → l !! k = Some x → list_index l x = Ok (k : Z).
Proof.
  intros Hnd Hk.
  destruct (list_index_elem_of l x) as [k' Hk']; [by eapply list_elem_of_lookup_2|].
  destruct (list_index_Ok _ _ _ Hk') as (p & -> & Hp & _).
  by rewrite (NoDup_lookup _ _ _ _ Hnd Hk Hp).
Qed.

(** The matrix that [get_ij] gives a view of is the entry, at the position
    of [i] in [adj_list[j]], of the array that [get_neigh_i] returns. *)
Lemma get_ij_get_neigh_i t i j w ms a idx_i :
  getitem (adj_list t) j = Ok a → list_index a i = Ok idx_i →
  get_ij t i j = Ok w → get_neigh_i t j = Ok ms →
  ∃ m, view_read t w = Some m ∧ ms !! Z.to_nat idx_i = Some m.
Proof.
  intros Ha Hi Hw Hms.
  apply get_ij_Ok in Hw as (idx & Hidx & Hp).
  apply get_idx_ij_Ok in Hidx as (a' & idx_i' & r & Ha' & Hi' & Hr & Hget).
  rewrite Ha in Ha'. injection Ha' as <-.
  rewrite Hi in Hi'. injection Hi' as <-.
  unfold get_neigh_i in Hms. rewrite Hr in Hms. simpl in Hms.
  apply collect_Ok in Hms.
  apply getitem_Ok in Hget as (q & Hq & Hget).
  pose proof (list_index_nonneg _ _ _ Hi) as Hnn.
  apply py_index_Ok in Hq as [_ [[_ Hq]|[? _]]]; [|lia].
  assert (q = Z.to_nat idx_i) as -> by lia.
  destruct (Forall2_lookup_l _ _ _ _ _ Hms Hget) as (m & Hm & Hv).
  exists m. split; [|done].
  apply getitem_Ok in Hv as (p & Hp' & Hv).
  rewrite Hp in Hp'. injection Hp' as <-. done.
Qed.

Lemma get_ij_view_write t w f i j :
  get_ij (view_write t w f) i j = get_ij t i j.
Proof. unfold get_ij. simpl. by rewrite length_alter. Qed.

Lemma get_neigh_i_view_write t w f j ms :
  get_neigh_i t j = Ok ms → ∃ ms', get_neigh_i (view_write t w f) j = Ok ms'.
Proof.
  unfold get_neigh_i. simpl. intros H. inv_bind H. rewrite E. simpl.
  apply collect_Ok in H. apply collect_total.
  apply Forall_forall. intros idx Hin.
  apply list_elem_of_lookup_1 in Hin as [k Hk].
  destruct (Forall2_lookup_l _ _ _ _ _ H Hk) as (m & _ & Hm).
  by eapply getitem_alter_is_Ok.
Qed.

(** C8, as the code has it.  For an existing edge (i, j), found at position
    [idx_i] of [adj_list[j]], the matrix seen through the view returned by
    [get_ij(i, j)] equals entry [idx_i] of the array returned by
    [get_neigh_i(j)].  [get_ij] returns a view of [values]: an in-place
    write through it changes the tensor and is seen by both accessors
    afterwards.  [get_neigh_i] returns a new array: a write into it leaves
    what [get_ij] reads as it was. *)
Theorem get_ij_view_get_neigh_i_copy t i j w ms a idx_i :
  getitem (adj_list t) j = Ok a → list_index a i = Ok idx_i →
  get_ij t i j = Ok w → get_neigh_i t j = Ok ms →
  (∃ m, view_read t w = Some m ∧ ms !! Z.to_nat idx_i = Some m) ∧
  (∀ f, ∃ m ms',
     get_ij (view_write t w f) i j = Ok w ∧
     view_read t w = Some m ∧
     view_read (view_write t w f) w = Some (f m) ∧
     get_neigh_i (view_write t w f) j = Ok ms' ∧
     ms' !! Z.to_nat idx_i = Some (f m)) ∧
  (∀ f, ∃ m,
     view_read t w = Some m ∧
     owned_write ms (Z.to_nat idx_i) f !! Z.to_nat idx_i = Some (f m) ∧
     get_neigh_i t j = Ok ms ∧ ms !! Z.to_nat idx_i = Some m).
Proof.
  intros Ha Hi Hw Hms.
  destruct (get_ij_get_neigh_i t i j w ms a idx_i Ha Hi Hw Hms) as (m & Hm & Hk).
  split_and!.
  - eauto.
  - intros f. destruct (get_neigh_i_view_write t w f j ms Hms) as [ms' Hms'].
    assert (get_ij (view_write t w f) i j = Ok w) as Hw'
      by by rewrite get_ij_view_write.
    destruct (get_ij_get_neigh_i (view_write t w f) i j w ms' a idx_i Ha Hi Hw' Hms')
      as (m' & Hm' & Hk').
    assert (view_read (view_write t w f) w = Some (f m)) as Hf.
    { unfold view_read, view_write in *. simpl.
      by rewrite list_lookup_alter_eq, Hm. }
    rewrite Hf in Hm'. injection Hm' as <-.
    exists m, ms'. split_and!; done.
  - intros f. exists m. split_and!; try done.
    unfold owned_write. by rewrite list_lookup_alter_eq, Hk.
Qed.

Lemma init_scenario : init 2 1 scenario_contacts = Ok scenario_tensor.
Proof. vm_compute. reflexivity. Qed.

Lemma get_ij_view_get_neigh_i_copy_witness :
  ∃ w ms, get_ij scenario_tensor 0 1 = Ok w ∧
          get_neigh_i scenario_tensor 1 = Ok ms ∧
          ∃ m, view_read scenario_tensor w = Some m ∧ ms !! 0%nat = Some m.
Proof.
  eexists _, _. split_and!; [vm_compute; reflexivity..|].
  refine (proj1 (get_ij_view_get_neigh_i_copy scenario_tensor 0 1 _ _ [0] 0 _ _ _ _));
    vm_compute; reflexivity.
Defined.

(** C8, as stated, fails: on the tensor of the scenario, emptying entry 0 of
    the array returned by [get_neigh_i(1)] is not seen through
    [get_ij(0, 1)], which still reads the matrix of the edge. *)
Lemma write_into_get_neigh_i_not_seen_by_get_ij :
  ¬ (∀ t i j w ms a idx_i f,
       getitem (adj_list t) j = Ok a → list_index a i = Ok idx_i →
       get_ij t i j = Ok w → get_neigh_i t j = Ok ms →
       view_read t w = owned_write ms (Z.to_nat idx_i) f !! Z.to_nat idx_i).
Proof.
  intros H.
  specialize (H scenario_tensor 0 1 (View 1) _ [0] 0 (λ _, [])
                eq_refl eq_refl eq_refl eq_refl).
  vm_compute in H. discriminate H.
Qed.

(** ** Construction: order of the senders *)

Lemma edges_into_sorted (n p : nat) edges :
  StronglySorted row_lt edges →
  Forall (λ e : row, 0 ≤ e.1) edges →
  StronglySorted Z.lt (edges_into n p edges).*2.
Proof.
  unfold edges_into. induction 1 as [|e edges Hs IH He]; intros Hnn.
  - constructor.
  - apply Forall_cons in Hnn as [Hnn0 Hnn]. rewrite filter_cons.
    case_decide as Hp; [|by apply IH].
    rewrite fmap_cons. constructor; [by apply IH|].
    apply Forall_fmap, Forall_forall. intros e' He'.
    apply list_elem_of_filter in He' as [Hp' Hin].
    rewrite Forall_forall in He, Hnn. specialize (He _ Hin). specialize (Hnn _ Hin).
    apply py_index_Ok in Hp as [_ [[_ Hp]|[? _]]]; [|lia].
    apply py_index_Ok in Hp' as [_ [[_ Hp']|[? _]]]; [|lia].
    unfold row_lt in He. simpl. lia.
Qed.

Lemma sorted_Z_NoDup (l : list Z) : StronglySorted Z.lt l → NoDup l.
Proof.
  induction 1 as [|x l Hl IH Hx]; constructor; [|done].
  intros Hin. rewrite Forall_forall in Hx. specialize (Hx _ Hin). lia.
Qed.

(** Over the layout of construction [get_neigh_i] returns one matrix per
    sender, whatever matrices [values] holds. *)
Lemma get_neigh_i_run t (v : list matrix) (p : nat) a :
  layout t → length v = length (values t) → adj_list t !! p = Some a →
  ∃ ms, get_neigh_i (set_values v t) p = Ok ms ∧ length ms = length a.
Proof.
  intros Hl Hv Ha. destruct (layout_run t Hl p a Ha) as (c & Hr & Hc & Hle).
  unfold get_neigh_i. simpl. rewrite (getitem_nat _ _ _ Hr). simpl.
  destruct (collect_total (getitem v) (arange c (c + length a))) as [ms Hms].
  { apply Forall_forall. intros idx Hin.
    apply getitem_in_range. unfold arange in Hin.
    apply list_elem_of_fmap in Hin as (k & -> & Hk).
    apply elem_of_seq in Hk. lia. }
  exists ms. split; [done|]. apply collect_Ok, Forall2_length in Hms.
  rewrite <- Hms, length_arange. lia.
Qed.

(** C10. For contacts that name nodes of [0 .. N-1] construction returns a
    tensor in which every adjacency list is strictly increasing.  The tensor
    is the same for every contact list with the same set of node pairs
    (i, j), whatever the order and the multiplicity of the contacts.
    Whatever [num_direct_edges] matrices [values] holds over this topology,
    the array returned by [get_neigh_i(j)] holds the matrices of the edges
    into [j] in the order of [adj_list[j]], that is by ascending sender:
    its entry [k] is the matrix in the slot of the edge from
    [adj_list[j][k]] to [j], the one [get_ij] shows. *)
Theorem adj_list_strictly_increasing (N T : Z) (contacts : list contact) :
  valid_nodes N contacts → -1 ≤ T →
  ∃ t, init N T contacts = Ok t ∧
    Forall (StronglySorted Z.lt) (adj_list t) ∧
    (∀ contacts', same_pairs contacts contacts' → init N T contacts' = Ok t) ∧
    (∀ v : list matrix, length v = length (values t) →
     ∀ (j : nat) a, adj_list t !! j = Some a →
       ∃ ms, get_neigh_i (set_values v t) j = Ok ms ∧ length ms = length a ∧
         ∀ (k : nat) i, a !! k = Some i →
           ∃ idx w m,
             get_idx_ij t i j = Ok idx ∧ v !! Z.to_nat idx = Some m ∧
             get_ij (set_values v t) i j = Ok w ∧
             view_read (set_values v t) w = Some m ∧
             ms !! k = Some m).
Proof.
  intros Hv HT. destruct (init_total N T contacts Hv HT) as [t Ht].
  pose proof (init_layout _ _ _ _ Ht) as Hl.
  pose proof (init_length_adj_list _ _ _ _ Ht) as Hlen.
  assert (Forall (StronglySorted Z.lt) (adj_list t)) as Hsorted.
  { apply Forall_lookup. intros p a Ha.
    pose proof (lookup_lt_Some _ _ _ Ha) as Hp. rewrite Hlen in Hp.
    rewrite (init_adj_list _ _ _ _ p Ht Hp) in Ha. injection Ha as <-.
    apply edges_into_sorted; [apply edge_list_of_sorted|].
    apply Forall_forall. intros [x y] Hxy.
    apply elem_of_edge_list_of in Hxy as (cc & Hcc & Hxy).
    unfold valid_nodes in Hv. rewrite Forall_forall in Hv.
    specialize (Hv _ Hcc). simpl. lia. }
  exists t. split_and!; [done|done| |].
  - intros cs' Hsame. rewrite <- Ht. unfold init.
    by rewrite (edge_list_of_set _ _ Hsame).
  - intros v Hv' j a Ha.
    destruct (get_neigh_i_run t v j a Hl Hv' Ha) as (ms & Hms & Hlenms).
    exists ms. split_and!; [done..|]. intros k i Hk.
    assert (getitem (adj_list (set_values v t)) j = Ok a) as Hget
      by by apply getitem_nat.
    assert (edge_exists t i j) as He.
    { exists a. split; [by apply getitem_nat|]. by eapply list_elem_of_lookup_2. }
    destruct (get_idx_ij_layout t i j Hl He)
      as (?&?&?&c&?&?&?&?&?&Hc&Hck&Hidx&Hw).
    rewrite <- (get_ij_set_values t v i j Hv') in Hw.
    rewrite Forall_lookup in Hsorted.
    pose proof (list_index_NoDup a k i (sorted_Z_NoDup _ (Hsorted _ _ Ha)) Hk) as Hi.
    destruct (get_ij_get_neigh_i (set_values v t) i j _ ms a k Hget Hi Hw Hms)
      as (m & Hm & Hmk).
    rewrite Nat2Z.id in Hmk. eexists _, _, m. split_and!; [exact Hidx| |exact Hw|exact Hm|exact Hmk].
    exact Hm.
Qed.

Lemma adj_list_strictly_increasing_witness :
  ∃ t, init 3 1 [(2, 1, 1, (1 # 3)%Q); (0, 1, 0, (1 # 2)%Q); (2, 1, 0, (1 # 3)%Q)] = Ok t ∧
       adj_list t = [[1]; [0; 2]; [1]] ∧
       Forall (StronglySorted Z.lt) (adj_list t) ∧
       get_neigh_i (set_values [[[1%Q]]; [[2%Q]]; [[3%Q]]; [[4%Q]]] t) 1%nat
         = Ok [[[2%Q]]; [[3%Q]]].
Proof.
  assert (valid_nodes 3
    [(2, 1, 1, (1 # 3)%Q); (0, 1, 0, (1 # 2)%Q); (2, 1, 0, (1 # 3)%Q)]) as Hv.
  { unfold valid_nodes. forall_concrete. }
  destruct (adj_list_strictly_increasing 3 1 _ Hv ltac:(lia))
    as (t & Ht & Hs & _ & Hn).
  exists t. split; [done|].
  vm_compute in Ht. injection Ht as <-.
  split; [done|]. split; [done|].
  destruct (Hn [[[1%Q]]; [[2%Q]]; [[3%Q]]; [[4%Q]]] eq_refl 1%nat [0; 2] eq_refl)
    as (ms & Hms & Hlen & Hk).
  destruct (Hk 0%nat 0 eq_refl) as (idx0 & w0 & m0 & Hi0 & Hv0 & _ & _ & Hm0).
  destruct (Hk 1%nat 2 eq_refl) as (idx1 & w1 & m1 & Hi1 & Hv1 & _ & _ & Hm1).
  vm_compute in Hi0. injection Hi0 as <-. vm_compute in Hv0. injection Hv0 as <-.
  vm_compute in Hi1. injection Hi1 as <-. vm_compute in Hv1. injection Hv1 as <-.
  rewrite Hms. f_equal.
  destruct ms as [|a0 [|a1 [|a2 ms]]]; try discriminate Hlen.
  simpl in Hm0, Hm1. by injection Hm0 as ->; injection Hm1 as ->.
Defined.

(** ** The scenario N = 2, T = 1, contacts = [(0, 1, 0, 0.5)] *)

(** C1. Construction yields the two directed edges (0, 1) and (1, 0) and no
    other; after [compute_Lambdas] on the pair (the tensor and its
    [init_like] companion, or two tensors built by [init]) the matrices are
    3 × 3, row 0 of Lambda1's (0, 1) matrix is [1, 1, 0.5] and row 0 of
    Lambda0's (0, 1) matrix is [1, 0.5, 0.5]. *)
Theorem scenario_rows :
  init 2 1 scenario_contacts = Ok scenario_tensor ∧
  edge_list_of scenario_contacts = [(0, 1); (1, 0)] ∧
  adj_list scenario_tensor = [[1]; [0]] ∧
  num_direct_edges scenario_tensor = 2%nat ∧
  get_idx_ij scenario_tensor 0 1 = Ok 1 ∧
  get_idx_ij scenario_tensor 1 0 = Ok 0 ∧
  ∃ Lambda0 Lambda1 w1 w0 m1 m0,
    scenario = Ok (Lambda0, Lambda1) ∧
    compute_Lambdas scenario_tensor scenario_tensor scenario_contacts
      = Ok (Lambda0, Lambda1) ∧
    get_ij Lambda1 0 1 = Ok w1 ∧ view_read Lambda1 w1 = Some m1 ∧
    get_ij Lambda0 0 1 = Ok w0 ∧ view_read Lambda0 w0 = Some m0 ∧
    square_values 3 (values Lambda1) ∧ square_values 3 (values Lambda0) ∧
    m1 !! 0%nat = Some [1; 1; 1 # 2]%Q ∧
    m0 !! 0%nat = Some [1; 1 # 2; 1 # 2]%Q.
Proof.
  split_and!; try (vm_compute; reflexivity).
  eexists _, _, _, _, _, _.
  split_and!; try (vm_compute; reflexivity);
    repeat (constructor; [vm_compute; by repeat constructor|]); constructor.
Qed.

(** ** Entries of nested lists *)

Lemma entry_Some v e r c x :
  entry v e r c = Some x ↔
  ∃ m row, v !! e = Some m ∧ m !! r = Some row ∧ row !! c = Some x.
Proof.
  unfold entry. split.
  - intros H. apply bind_Some in H as (m & Hm & H).
    apply bind_Some in H as (row & Hrow & H). eauto.
  - intros (m & row & -> & Hr & Hc). simpl. rewrite Hr. done.
Qed.

Lemma square_values_entry n v e r c x :
  square_values n v → entry v e r c = Some x → (r < n)%nat ∧ (c < n)%nat.
Proof.
  intros Hsq H. apply entry_Some in H as (m & row & Hm & Hr & Hc).
  unfold square_values in Hsq. rewrite Forall_lookup in Hsq.
  destruct (Hsq _ _ Hm) as [Hlen Hrows]. rewrite Forall_lookup in Hrows.
  specialize (Hrows _ _ Hr).
  apply lookup_lt_Some in Hr, Hc. lia.
Qed.

Lemma all_entries_entry P v e r c x :
  all_entries P v → entry v e r c = Some x → P x.
Proof.
  intros Hall H. apply entry_Some in H as (m & row & Hm & Hr & Hc).
  unfold all_entries in Hall. rewrite Forall_lookup in Hall.
  specialize (Hall _ _ Hm). rewrite Forall_lookup in Hall.
  specialize (Hall _ _ Hr). rewrite Forall_lookup in Hall. eauto.
Qed.


(** *** [values[:] = x] *)

Lemma length_fill x v : length (fill x v) = length v.
Proof. unfold fill. by rewrite length_fmap. Qed.

Lemma square_values_fill n x v : square_values n v → square_values n (fill x v).
Proof.
  unfold square_values, fill. intros H. apply Forall_fmap.
  eapply Forall_impl; [exact H|]. intros m [Hlen Hrows]. simpl.
  rewrite length_fmap. split; [done|]. apply Forall_fmap.
  eapply Forall_impl; [exact Hrows|]. intros r Hr. simpl. by rewrite length_fmap.
Qed.

Lemma all_entries_fill (P : Q → Prop) x v : P x → all_entries P (fill x v).
Proof.
  intros Hx. unfold all_entries, fill.
  apply Forall_fmap, Forall_true. intros m. simpl.
  apply Forall_fmap, Forall_true. intros r. simpl.
  apply Forall_fmap, Forall_true. intros y. done.
Qed.

(** *** [w[:, col] = x] *)

Lemma square_values_set_col n (p c : nat) x v :
  square_values n v →
  square_values n (alter (fmap (M := list) (<[c := x]>)) p v).
Proof.
  unfold square_values. intros H. apply Forall_alter; [done|].
  intros m _ [Hlen Hrows].
  rewrite length_fmap. split; [done|]. apply Forall_fmap.
  eapply Forall_impl; [exact Hrows|]. intros r Hr. simpl. by rewrite length_insert.
Qed.


(** *** The loop over the contacts *)

Lemma view_set_col_Ok t w col x t' :
  view_set_col t w col x = Ok t' →
  ∃ c : nat, values t' = alter (fmap (M := list) (<[c := x]>)) (view_slot w) (values t).
Proof. unfold view_set_col. intros H. inv_bind H. injection H as <-. by exists x0. Qed.

Lemma populate_Ok L cc L' :
  populate L cc = Ok L' →
  ∃ p1 c1 p0 c0 : nat,
    values L'.2 = alter (fmap (M := list) (<[c1 := cc3 cc]>)) p1 (values L.2) ∧
    values L'.1 = alter (fmap (M := list) (<[c0 := cc3 cc]>)) p0 (values L.1).
Proof.
  unfold populate. intros H. inv_bind H. inv_bind H. inv_bind H. inv_bind H.
  injection H as <-. simpl.
  apply view_set_col_Ok in E0 as [c1 H1]. apply view_set_col_Ok in E2 as [c0 H0].
  eauto 10.
Qed.

(** A property of [values] that every column assignment of an admissible
    rate preserves holds after the loop if it holds before. *)
Lemma for_each_populate_inv (I : list matrix → Prop) (P : Q → Prop) :
  (∀ (p c : nat) x v, P x → I v → I (alter (fmap (M := list) (<[c := x]>)) p v)) →
  ∀ cs L L', Forall (λ cc, P (cc3 cc)) cs →
    for_each populate L cs = Ok L' →
    I (values L.1) → I (values L.2) → I (values L'.1) ∧ I (values L'.2).
Proof.
  intros Hstep cs. induction cs as [|cc cs IH]; intros L L' HP; simpl.
  - intros [= <-]. auto.
  - apply Forall_cons in HP as [Hcc HP]. intros H H0 H1. inv_bind H.
    apply populate_Ok in E as (p1 & c1 & p0 & c0 & E1 & E0).
    apply (IH _ _ HP H); [rewrite E0 | rewrite E1]; auto.
Qed.

Lemma for_each_populate_square n cs L L' :
  for_each populate L cs = Ok L' →
  square_values n (values L.1) → square_values n (values L.2) →
  square_values n (values L'.1) ∧ square_values n (values L'.2).
Proof.
  apply (for_each_populate_inv (square_values n) (λ _, True)).
  - intros. by apply square_values_set_col.
  - by apply Forall_true.
Qed.

Lemma for_each_populate_length (k : nat) cs L L' :
  for_each populate L cs = Ok L' →
  length (values L.1) = k → length (values L.2) = k →
  length (values L'.1) = k ∧ length (values L'.2) = k.
Proof.
  apply (for_each_populate_inv (λ v, length v = k) (λ _, True)).
  - intros. by rewrite length_alter.
  - by apply Forall_true.
Qed.


(** *** The triangular assignment *)

Lemma elem_of_tril_indices n k (r c : nat) :
  (r, c) ∈ tril_indices n k ↔ (r < n)%nat ∧ (c < n)%nat ∧ (c : Z) ≤ r + k.
Proof.
  unfold tril_indices. rewrite list_elem_of_bind. split.
  - intros (r' & Hin & Hr'). apply elem_of_seq in Hr'.
    apply list_elem_of_bind in Hin as (c' & Hin & Hc'). apply elem_of_seq in Hc'.
    case_bool_decide; [|by apply elem_of_nil in Hin].
    apply list_elem_of_singleton in Hin. injection Hin as -> ->. lia.
  - intros (Hr & Hc & Hk). exists r. split; [|apply elem_of_seq; lia].
    apply list_elem_of_bind. exists c. split; [|apply elem_of_seq; lia].
    rewrite bool_decide_true by done. by apply list_elem_of_singleton.
Qed.

Lemma assign_at_snoc idx p x m :
  assign_at (idx ++ [p]) x m = alter (<[p.2 := x]>) p.1 (assign_at idx x m).
Proof. unfold assign_at. by rewrite foldl_app. Qed.

Lemma assign_at_shape idx x m :
  length (assign_at idx x m) = length m ∧
  ∀ r row, assign_at idx x m !! r = Some row →
           ∃ row0, m !! r = Some row0 ∧ length row = length row0.
Proof.
  induction idx as [|p idx [IHlen IH]] using rev_ind.
  - split; [done|]. intros r row H. eauto.
  - rewrite assign_at_snoc, length_alter. split; [done|].
    intros r row H. destruct (decide (p.1 = r)) as [<-|Hne].
    + rewrite list_lookup_alter_eq in H.
      destruct (assign_at idx x m !! p.1) as [row1|] eqn:E; [|done].
      injection H as <-. destruct (IH _ _ E) as (row0 & ? & ?).
      exists row0. by rewrite length_insert.
    + rewrite list_lookup_alter_ne in H by done. eauto.
Qed.


Lemma assign_at_elem_of idx x m (r c : nat) row y :
  (r, c) ∈ idx → assign_at idx x m !! r = Some row → row !! c = Some y → y = x.
Proof.
  revert row. induction idx as [|p idx IH] using rev_ind; intros row Hin Hr Hc.
  - by apply elem_of_nil in Hin.
  - rewrite assign_at_snoc in Hr.
    destruct (decide (p.1 = r)) as [Hp1|Hp1].
    + rewrite <- Hp1, list_lookup_alter_eq in Hr.
      destruct (assign_at idx x m !! p.1) as [row1|] eqn:E; [|done].
      injection Hr as <-.
      destruct (decide (p.2 = c)) as [Hp2|Hp2].
      * rewrite <- Hp2, list_lookup_insert_eq in Hc; [by injection Hc|].
        apply lookup_lt_Some in Hc. by rewrite length_insert in Hc.
      * rewrite list_lookup_insert_ne in Hc by done.
        apply elem_of_app in Hin as [Hin|Hin].
        -- rewrite Hp1 in E. by eapply IH.
        -- apply list_elem_of_singleton in Hin. destruct p. simpl in *. congruence.
    + rewrite list_lookup_alter_ne in Hr by done.
      apply elem_of_app in Hin as [Hin|Hin]; [by eapply IH|].
      apply list_elem_of_singleton in Hin. destruct p. simpl in *. congruence.
Qed.

Lemma length_tril_zero n k v : length (tril_zero n k v) = length v.
Proof. unfold tril_zero. by rewrite length_fmap. Qed.

Lemma square_values_tril_zero n n' k v :
  square_values n v → square_values n (tril_zero n' k v).
Proof.
  unfold square_values, tril_zero. intros H. apply Forall_fmap.
  eapply Forall_impl; [exact H|]. intros m [Hlen Hrows]. simpl.
  destruct (assign_at_shape (tril_indices n' k) 0%Q m) as [Hl Hs].
  split; [lia|]. apply Forall_lookup. intros r row Hr.
  destruct (Hs _ _ Hr) as (row0 & Hr0 & ->).
  rewrite Forall_lookup in Hrows. eauto.
Qed.


(** Below the diagonal shifted by [k] the entries are 0 after the
    assignment. *)
Lemma entry_tril_zero n k v e (r c : nat) x :
  (r < n)%nat → (c < n)%nat → (c : Z) ≤ r + k →
  entry (tril_zero n k v) e r c = Some x → x = 0%Q.
Proof.
  intros Hr Hc Hk H. apply entry_Some in H as (m & row & Hm & Hrow & Hx).
  unfold tril_zero in Hm. rewrite list_lookup_fmap in Hm.
  destruct (v !! e) as [m0|]; [|done]. injection Hm as <-.
  eapply assign_at_elem_of; [|done..]. by apply elem_of_tril_indices.
Qed.

(** *** The masks *)

Lemma lookup_range (n : Z) (r : nat) : r < n → range n !! r = Some (r : Z).
Proof. intros H. unfold range. rewrite lookup_arange by lia. f_equal. Qed.

Lemma length_range (n : nat) : length (range n) = n.
Proof. unfold range. rewrite length_arange. lia. Qed.

Lemma length_mask_row ones mask (Tp2 : nat) :
  0 ≤ ones → length (mask_row ones mask Tp2) = Tp2.
Proof.
  intros H. unfold mask_row.
  rewrite length_take, !length_app, !length_replicate. lia.
Qed.

Lemma lookup_mask_row ones mask (Tp2 : nat) (c : nat) y :
  0 ≤ ones → mask_row ones mask Tp2 !! c = Some y →
  (c < ones ∧ y = 1%Q) ∨
  (ones ≤ c ∧ mask !! (c - Z.to_nat ones)%nat = Some y) ∨
  (ones + length mask ≤ c ∧ y = 0%Q).
Proof.
  intros H Hy. unfold mask_row in Hy.
  apply lookup_take_Some in Hy as [Hy _].
  apply lookup_app_Some in Hy as [Hy|[Hc Hy]].
  - apply lookup_replicate in Hy as [-> Hc]. left. split; [lia|done].
  - rewrite length_replicate in Hc, Hy.
    apply lookup_app_Some in Hy as [Hy|[Hc' Hy]].
    + right. left. split; [lia|done].
    + apply lookup_replicate in Hy as [-> _]. right. right. split; [lia|done].
Qed.


Lemma lookup_Mask1 mask (Tp2 : nat) (r : nat) :
  (r < Tp2)%nat → Mask1 mask Tp2 !! r = Some (mask_row (r + 2) mask Tp2).
Proof. intros H. unfold Mask1. by rewrite list_lookup_fmap, lookup_range by lia. Qed.

Lemma lookup_Mask0 mask (Tp2 : nat) (r : nat) :
  (r < Tp2)%nat → Mask0 mask Tp2 !! r = Some (mask_row (r + 1) mask Tp2).
Proof. intros H. unfold Mask0. by rewrite list_lookup_fmap, lookup_range by lia. Qed.

Lemma length_Mask1 mask (Tp2 : nat) : length (Mask1 mask Tp2) = Tp2.
Proof. unfold Mask1. by rewrite length_fmap, length_range. Qed.

Lemma length_Mask0 mask (Tp2 : nat) : length (Mask0 mask Tp2) = Tp2.
Proof. unfold Mask0. by rewrite length_fmap, length_range. Qed.

Lemma length_mul_mask v M : length (mul_mask v M) = length v.
Proof. unfold mul_mask. by rewrite length_fmap. Qed.

Lemma entry_mul_mask v M e r c z :
  entry (mul_mask v M) e r c = Some z →
  ∃ x y row, entry v e r c = Some x ∧ M !! r = Some row ∧ row !! c = Some y ∧
             z = (x * y)%Q.
Proof.
  intros H. apply entry_Some in H as (m & row & Hm & Hrow & Hz).
  unfold mul_mask in Hm. rewrite list_lookup_fmap in Hm.
  destruct (v !! e) as [m0|] eqn:E; [|done]. injection Hm as <-.
  apply lookup_zip_with_Some in Hrow as (row0 & mrow & -> & Hrow0 & Hmrow).
  apply lookup_zip_with_Some in Hz as (x & y & -> & Hx & Hy).
  exists x, y, mrow. split_and!; try done. apply entry_Some. eauto.
Qed.

(** A mask with one row of length [n] per matrix row keeps the shape. *)
Lemma square_values_mul_mask n v M :
  length M = n → Forall (λ row : list Q, length row = n) M →
  square_values n v → square_values n (mul_mask v M).
Proof.
  intros HM Hrows H. unfold square_values, mul_mask. apply Forall_fmap.
  eapply Forall_impl; [exact H|]. intros m [Hlen Hm]. simpl.
  split; [rewrite length_zip_with; lia|].
  apply Forall_lookup. intros r row Hr.
  apply lookup_zip_with_Some in Hr as (row0 & mrow & -> & Hrow0 & Hmrow).
  rewrite Forall_lookup in Hm, Hrows.
  rewrite length_zip_with, (Hm _ _ Hrow0), (Hrows _ _ Hmrow). lia.
Qed.

(** *** [1 - values] and the cumulative product *)

Lemma length_one_minus v : length (one_minus v) = length v.
Proof. unfold one_minus. by rewrite length_fmap. Qed.

Lemma entry_one_minus v e r c y :
  entry (one_minus v) e r c = Some y →
  ∃ x, entry v e r c = Some x ∧ y = (1 - x)%Q.
Proof.
  intros H. apply entry_Some in H as (m & row & Hm & Hrow & Hy).
  unfold one_minus in Hm. rewrite list_lookup_fmap in Hm.
  destruct (v !! e) as [m0|] eqn:E; [|done]. injection Hm as <-.
  rewrite list_lookup_fmap in Hrow.
  destruct (m0 !! r) as [row0|] eqn:E0; [|done]. injection Hrow as <-.
  rewrite list_lookup_fmap in Hy.
  destruct (row0 !! c) as [x|] eqn:E1; [|done]. injection Hy as <-.
  exists x. split; [|done]. apply entry_Some. eauto.
Qed.

Lemma square_values_one_minus n v : square_values n v → square_values n (one_minus v).
Proof.
  unfold square_values, one_minus. intros H. apply Forall_fmap.
  eapply Forall_impl; [exact H|]. intros m [Hlen Hrows]. simpl.
  rewrite length_fmap. split; [done|]. apply Forall_fmap.
  eapply Forall_impl; [exact Hrows|]. intros r Hr. simpl. by rewrite length_fmap.
Qed.

Lemma length_cumprod_from acc l : length (cumprod_from acc l) = length l.
Proof. revert acc. induction l as [|x l IH]; intros acc; simpl; [done|]. by rewrite IH. Qed.

Lemma length_cumprod_row l : length (cumprod_row l) = length l.
Proof. destruct l; simpl; [done|]. by rewrite length_cumprod_from. Qed.

Lemma length_cumprod v : length (cumprod v) = length v.
Proof. unfold cumprod. by rewrite length_fmap. Qed.

Lemma square_values_cumprod n v : square_values n v → square_values n (cumprod v).
Proof.
  unfold square_values, cumprod. intros H. apply Forall_fmap.
  eapply Forall_impl; [exact H|]. intros m [Hlen Hrows]. simpl.
  rewrite length_fmap. split; [done|]. apply Forall_fmap.
  eapply Forall_impl; [exact Hrows|]. intros r Hr. simpl.
  by rewrite length_cumprod_row.
Qed.

Lemma entry_cumprod v e r c y :
  entry (cumprod v) e r c = Some y →
  ∃ row, (∀ c' x, row !! c' = Some x → entry v e r c' = Some x) ∧
         cumprod_row row !! c = Some y.
Proof.
  intros H. apply entry_Some in H as (m & row & Hm & Hrow & Hy).
  unfold cumprod in Hm. rewrite list_lookup_fmap in Hm.
  destruct (v !! e) as [m0|] eqn:E; [|done]. injection Hm as <-.
  rewrite list_lookup_fmap in Hrow.
  destruct (m0 !! r) as [row0|] eqn:E0; [|done]. injection Hrow as <-.
  exists row0. split; [|done]. intros c' x Hx. apply entry_Some. eauto.
Qed.

(** A running product over a prefix of ones is the starting value. *)
Lemma cumprod_from_ones acc l (c : nat) y :
  (∀ (c' : nat) x, (c' ≤ c)%nat → l !! c' = Some x → (x == 1)%Q) →
  cumprod_from acc l !! c = Some y → (y == acc)%Q.
Proof.
  revert acc c. induction l as [|x l IH]; intros acc c Hones; simpl; [done|].
  pose proof (Hones 0%nat x ltac:(lia) eq_refl) as Hx.
  destruct c as [|c]; simpl.
  - intros [= <-]. rewrite Hx. ring.
  - intros H. apply IH in H.
    + rewrite H, Hx. ring.
    + intros c' x' Hc' Hx'. apply (Hones (S c') x'); [lia|done].
Qed.

Lemma cumprod_row_ones l (c : nat) y :
  (∀ (c' : nat) x, (c' ≤ c)%nat → l !! c' = Some x → (x == 1)%Q) →
  cumprod_row l !! c = Some y → (y == 1)%Q.
Proof.
  destruct l as [|x l]; simpl; [done|]. intros Hones.
  pose proof (Hones 0%nat x ltac:(lia) eq_refl) as Hx.
  destruct c as [|c]; simpl.
  - by intros [= <-].
  - intros H. apply cumprod_from_ones in H.
    + by rewrite H.
    + intros c' x' Hc' Hx'. apply (Hones (S c') x'); [lia|done].
Qed.




(** ** The builders, stage by stage *)

Lemma compute_Lambdas_Ok Lambda0 Lambda1 cs R0 R1 :
  compute_Lambdas Lambda0 Lambda1 cs = Ok (R0, R1) →
  ∃ L, for_each populate
         (set_values (fill 0%Q (values Lambda0)) Lambda0,
          set_values (fill 0%Q (values Lambda1)) Lambda1) cs = Ok L ∧
       values R1 = cumprod (one_minus (tril_zero (shape1 (values L.2)) 1 (values L.2))) ∧
       values R0 = cumprod (one_minus (tril_zero (shape1 (values L.2)) 0 (values L.1))).
Proof.
  unfold compute_Lambdas. intros H. inv_bind H. injection H as <- <-.
  exists x. done.
Qed.

Lemma compute_Lambdas_dSIR_Ok Lambda0 Lambda1 cs mask R0 R1 :
  compute_Lambdas_dSIR Lambda0 Lambda1 cs mask = Ok (R0, R1) →
  ∃ L m0 r0,
    getitem (values Lambda0) 0 = Ok m0 ∧ getitem m0 0 = Ok r0 ∧
    for_each populate
      (set_values (fill 0%Q (values Lambda0)) Lambda0,
       set_values (fill 0%Q (values Lambda1)) Lambda1) cs = Ok L ∧
    values R1 = cumprod (one_minus (mul_mask
                  (tril_zero (shape1 (values L.2)) 1 (values L.2))
                  (Mask1 mask (length r0)))) ∧
    values R0 = cumprod (one_minus (mul_mask
                  (tril_zero (shape1 (values L.2)) 0 (values L.1))
                  (Mask0 mask (length r0)))).
Proof.
  unfold compute_Lambdas_dSIR. intros H. inv_bind H. inv_bind H. inv_bind H.
  injection H as <- <-. exists x1, x, x0. done.
Qed.

Lemma shape1_square n v e m : square_values n v → v !! e = Some m → shape1 v = n.
Proof.
  intros H Hm. destruct v as [|m0 v]; [done|]. simpl.
  unfold square_values in H. apply Forall_cons in H as [[H _] _]. done.
Qed.

(** The state of the loop keeps the shape of the pair. *)
Lemma populated_pair n Lambda0 Lambda1 cs L :
  lambda_pair n Lambda0 Lambda1 →
  for_each populate
    (set_values (fill 0%Q (values Lambda0)) Lambda0,
     set_values (fill 0%Q (values Lambda1)) Lambda1) cs = Ok L →
  lambda_pair n L.1 L.2 ∧ length (values L.1) = length (values Lambda0).
Proof.
  intros [Hlen H0 H1] HL.
  destruct (for_each_populate_square n _ _ _ HL) as [S0 S1];
    [by apply square_values_fill..|].
  destruct (for_each_populate_length (length (values Lambda0)) _ _ _ HL) as [E0 E1];
    [simpl; by rewrite length_fill..|].
  split; [split|]; congruence.
Qed.


(** The triangular assignment of the builders, on a pair: [n_dim] is read
    off Lambda1 and used for both tensors. *)
Lemma entry_tril_zero_pair n L0 L1 (k : Z) v e (r c : nat) x :
  lambda_pair n L0 L1 → v = values L0 ∨ v = values L1 →
  entry (tril_zero (shape1 (values L1)) k v) e r c = Some x →
  (c : Z) ≤ r + k → x = 0%Q.
Proof.
  intros [Hlen H0 H1] Hv Hx Hk.
  assert (square_values n v) as Hsq by (by destruct Hv as [->| ->]).
  destruct (square_values_entry n _ _ _ _ _
              (square_values_tril_zero n _ k v Hsq) Hx) as [Hr Hc].
  assert (∃ m1, values L1 !! e = Some m1) as [m1 Hm1].
  { apply entry_Some in Hx as (m & _ & Hm & _).
    apply lookup_lt_Some in Hm. rewrite length_tril_zero in Hm.
    apply lookup_lt_is_Some_2. destruct Hv as [->| ->]; lia. }
  rewrite (shape1_square n _ _ _ H1 Hm1) in Hx.
  exact (entry_tril_zero n k v e r c x Hr Hc Hk Hx).
Qed.



Lemma Mask1_rows mask (Tp2 : nat) :
  Forall (λ row : list Q, length row = Tp2) (Mask1 mask Tp2).
Proof.
  unfold Mask1. apply Forall_fmap, Forall_forall. intros tj Hin.
  unfold range, arange in Hin. apply list_elem_of_fmap in Hin as (k & -> & _).
  simpl. apply length_mask_row. lia.
Qed.

Lemma Mask0_rows mask (Tp2 : nat) :
  Forall (λ row : list Q, length row = Tp2) (Mask0 mask Tp2).
Proof.
  unfold Mask0. apply Forall_fmap, Forall_forall. intros tj Hin.
  unfold range, arange in Hin. apply list_elem_of_fmap in Hin as (k & -> & _).
  simpl. apply length_mask_row. lia.
Qed.



(** The last two stages: where the rates are 0 on a prefix of a row, the
    final values are 1 on that prefix. *)
Lemma final_lower_ones (k : Z) pre :
  (∀ e (r c : nat) x, entry pre e r c = Some x → (c : Z) ≤ r + k → (x == 0)%Q) →
  ∀ e (r c : nat) y, entry (cumprod (one_minus pre)) e r c = Some y →
                     (c : Z) ≤ r + k → (y == 1)%Q.
Proof.
  intros H e r c y Hy Hk.
  apply entry_cumprod in Hy as (row & Hrow & Hy).
  apply (cumprod_row_ones row c y); [|done].
  intros c' x Hc' Hx. apply Hrow, entry_one_minus in Hx as (x0 & Hx0 & ->).
  rewrite (H _ _ _ _ Hx0) by lia. ring.
Qed.


(** Both builders return a pair of the shape they were given. *)
Lemma builders_shape n Lambda0 Lambda1 cs R0 R1 :
  lambda_pair n Lambda0 Lambda1 →
  compute_Lambdas Lambda0 Lambda1 cs = Ok (R0, R1) ∨
  (∃ mask, compute_Lambdas_dSIR Lambda0 Lambda1 cs mask = Ok (R0, R1)) →
  lambda_pair n R0 R1 ∧ length (values R0) = length (values Lambda0).
Proof.
  intros Hpair [H|[mask H]].
  - apply compute_Lambdas_Ok in H as (L & HL & E1 & E0).
    destruct (populated_pair n _ _ _ _ Hpair HL) as [[Hlen S0 S1] Hlen0].
    split; [split|]; rewrite ?E0, ?E1.
    + rewrite !length_cumprod, !length_one_minus, !length_tril_zero. done.
    + by apply square_values_cumprod, square_values_one_minus, square_values_tril_zero.
    + by apply square_values_cumprod, square_values_one_minus, square_values_tril_zero.
    + rewrite !length_cumprod, !length_one_minus, !length_tril_zero. done.
  - apply compute_Lambdas_dSIR_Ok in H as (L & m0 & r0 & Hm0 & Hr0 & HL & E1 & E0).
    destruct (populated_pair n _ _ _ _ Hpair HL) as [[Hlen S0 S1] Hlen0].
    assert (length r0 = n) as Hn.
    { destruct Hpair as [_ Hsq _]. unfold square_values in Hsq.
      apply getitem_Ok in Hm0 as (? & _ & Hm0). apply getitem_Ok in Hr0 as (? & _ & Hr0).
      rewrite Forall_lookup in Hsq. destruct (Hsq _ _ Hm0) as [_ Hrows].
      rewrite Forall_lookup in Hrows. eauto. }
    rewrite Hn in E0, E1. split; [split|]; rewrite ?E0, ?E1.
    + rewrite !length_cumprod, !length_one_minus, !length_mul_mask, !length_tril_zero.
      done.
    + apply square_values_cumprod, square_values_one_minus, square_values_mul_mask;
        [apply length_Mask0 | apply Mask0_rows | by apply square_values_tril_zero].
    + apply square_values_cumprod, square_values_one_minus, square_values_mul_mask;
        [apply length_Mask1 | apply Mask1_rows | by apply square_values_tril_zero].
    + rewrite !length_cumprod, !length_one_minus, !length_mul_mask, !length_tril_zero.
      done.
Qed.

(** ** The region below the diagonal *)


(** ** Monotone rows *)


Lemma scenario_pair : lambda_pair 3 scenario_tensor scenario_tensor.
Proof. split; [done|square_concrete..]. Qed.



(** ** The masked builder against the standard one *)

Lemma same_values_entry v v' e r c x :
  same_values v v' → entry v e r c = Some x →
  ∃ y, entry v' e r c = Some y ∧ (x == y)%Q.
Proof.
  intros H Hx. apply entry_Some in Hx as (m & row & Hm & Hrow & Hx).
  destruct (Forall2_lookup_l _ _ _ _ _ H Hm) as (m' & Hm' & H1).
  destruct (Forall2_lookup_l _ _ _ _ _ H1 Hrow) as (row' & Hrow' & H2).
  destruct (Forall2_lookup_l _ _ _ _ _ H2 Hx) as (y & Hy & H3).
  exists y. split; [|done]. apply entry_Some. eauto.
Qed.

Lemma same_values_one_minus v v' :
  same_values v v' → same_values (one_minus v) (one_minus v').
Proof.
  unfold same_values, one_minus. intros H. apply Forall2_fmap.
  eapply Forall2_impl; [exact H|]. intros m m' Hm. simpl. apply Forall2_fmap.
  eapply Forall2_impl; [exact Hm|]. intros row row' Hrow. simpl. apply Forall2_fmap.
  eapply Forall2_impl; [exact Hrow|]. intros x y Hxy. simpl. by rewrite Hxy.
Qed.

Lemma cumprod_from_Qeq acc acc' l l' :
  (acc == acc')%Q → Forall2 Qeq l l' →
  Forall2 Qeq (cumprod_from acc l) (cumprod_from acc' l').
Proof.
  intros Hacc H. revert acc acc' Hacc.
  induction H as [|x y l l' Hxy _ IH]; intros acc acc' Hacc; simpl; [constructor|].
  assert (acc * x == acc' * y)%Q as Hp by by rewrite Hacc, Hxy.
  constructor; [done|]. by apply IH.
Qed.

Lemma same_values_cumprod v v' :
  same_values v v' → same_values (cumprod v) (cumprod v').
Proof.
  unfold same_values, cumprod. intros H. apply Forall2_fmap.
  eapply Forall2_impl; [exact H|]. intros m m' Hm. simpl. apply Forall2_fmap.
  eapply Forall2_impl; [exact Hm|]. intros row row' Hrow. simpl.
  destruct Hrow as [|x y l l' Hxy Hl]; simpl; [constructor|].
  constructor; [done|]. by apply cumprod_from_Qeq.
Qed.

(** A mask whose entries are all 1 changes no value. *)
Lemma same_values_mul_mask n v M :
  square_values n v → length M = n →
  Forall (λ row : list Q, length row = n ∧ Forall (λ y, y = 1%Q) row) M →
  same_values (mul_mask v M) v.
Proof.
  intros Hsq HM Hrows. unfold same_values, mul_mask.
  apply Forall2_fmap_l, Forall_Forall2_diag.
  eapply Forall_impl; [exact Hsq|]. intros m [Hlen Hm]. simpl.
  apply Forall2_same_length_lookup_2; [rewrite length_zip_with; lia|].
  intros r row0 row Hrow0 Hrow.
  apply lookup_zip_with_Some in Hrow0 as (row' & mrow & -> & Hrow' & Hmrow).
  rewrite Hrow in Hrow'. injection Hrow' as <-.
  rewrite Forall_lookup in Hm, Hrows. specialize (Hm _ _ Hrow).
  destruct (Hrows _ _ Hmrow) as [Hlm Hones].
  apply Forall2_same_length_lookup_2; [rewrite length_zip_with; lia|].
  intros c z x Hz Hx.
  apply lookup_zip_with_Some in Hz as (x' & y & -> & Hx' & Hy).
  rewrite Hx in Hx'. injection Hx' as <-.
  rewrite Forall_lookup in Hones. rewrite (Hones _ _ Hy). ring.
Qed.

Lemma mask_row_all_ones (ones : Z) (k n : nat) :
  0 ≤ ones → n ≤ ones + k →
  Forall (λ y, y = 1%Q) (mask_row ones (replicate k 1%Q) n).
Proof.
  intros H0 Hk. apply Forall_lookup. intros c y Hy.
  pose proof (lookup_lt_Some _ _ _ Hy) as Hc. rewrite length_mask_row in Hc by done.
  destruct (lookup_mask_row _ _ _ _ _ H0 Hy) as [[_ ->]|[[_ Hm]|[Hge _]]]; [done| |].
  - by apply lookup_replicate in Hm as [-> _].
  - rewrite length_replicate in Hge. lia.
Qed.

Lemma Mask1_all_ones (k n : nat) :
  (n ≤ k + 1)%nat →
  Forall (λ row : list Q, length row = n ∧ Forall (λ y, y = 1%Q) row)
    (Mask1 (replicate k 1%Q) n).
Proof.
  intros Hk. unfold Mask1. apply Forall_fmap, Forall_forall. intros tj Hin.
  unfold range, arange in Hin. apply list_elem_of_fmap in Hin as (j & -> & _).
  simpl. split; [apply length_mask_row; lia | apply mask_row_all_ones; lia].
Qed.

Lemma Mask0_all_ones (k n : nat) :
  (n ≤ k + 1)%nat →
  Forall (λ row : list Q, length row = n ∧ Forall (λ y, y = 1%Q) row)
    (Mask0 (replicate k 1%Q) n).
Proof.
  intros Hk. unfold Mask0. apply Forall_fmap, Forall_forall. intros tj Hin.
  unfold range, arange in Hin. apply list_elem_of_fmap in Hin as (j & -> & _).
  simpl. split; [apply length_mask_row; lia | apply mask_row_all_ones; lia].
Qed.

(** With an empty mask every entry right of the leading ones of the mask is
    multiplied by 0, and the entries under the leading ones are 0 already. *)
Lemma empty_mask_zero (k : Z) (n : nat) v M :
  (∀ e (r c : nat) x, entry v e r c = Some x → (c : Z) ≤ r + k → x = 0%Q) →
  (∀ r : nat, (r < n)%nat → M !! r = Some (mask_row (r + k + 1) [] n)) →
  length M = n → 0 ≤ k + 1 →
  ∀ e (r c : nat) z, entry (mul_mask v M) e r c = Some z → (z == 0)%Q.
Proof.
  intros Hv HM Hlen Hk e r c z Hz.
  apply entry_mul_mask in Hz as (x & y & row & Hx & Hrow & Hy & ->).
  destruct (decide ((c : Z) ≤ r + k)) as [Hc|Hc].
  - rewrite (Hv _ _ _ _ Hx Hc). ring.
  - pose proof (lookup_lt_Some _ _ _ Hrow) as Hr. rewrite Hlen in Hr.
    rewrite (HM r Hr) in Hrow. injection Hrow as <-.
    destruct (lookup_mask_row (r + k + 1) [] n c y ltac:(lia) Hy)
      as [[? _]|[[_ Hm]|[_ ->]]].
    + lia.
    + by rewrite lookup_nil in Hm.
    + ring.
Qed.

(** The masked builder returns whenever the standard one does and there is
    an entry to read the number of columns from. *)
Lemma compute_Lambdas_dSIR_total Lambda0 Lambda1 cs mask S0 S1 m0 r0 :
  compute_Lambdas Lambda0 Lambda1 cs = Ok (S0, S1) →
  getitem (values Lambda0) 0 = Ok m0 → getitem m0 0 = Ok r0 →
  ∃ R0 R1, compute_Lambdas_dSIR Lambda0 Lambda1 cs mask = Ok (R0, R1).
Proof.
  intros H Hm0 Hr0. unfold compute_Lambdas in H. inv_bind H.
  unfold compute_Lambdas_dSIR. rewrite Hm0. simpl. rewrite Hr0. simpl.
  rewrite E. simpl. eauto.
Qed.

(** C2, as the code has it.  Let [compute_Lambdas] return on a pair with at
    least one edge and n × n matrices, n > 0.  With an empty mask the masked
    builder returns a pair of the same shape all of whose final values are
    1, whatever the rates: the mask rows are the leading ones followed by
    zeros, so every rate is masked out.  It is with a mask of at least
    n - 1 = T + 1 ones that the masked builder returns the final values of
    [compute_Lambdas]. *)
Theorem empty_mask_masks_every_rate n Lambda0 Lambda1 contacts S0 S1 :
  lambda_pair n Lambda0 Lambda1 →
  compute_Lambdas Lambda0 Lambda1 contacts = Ok (S0, S1) →
  values Lambda0 ≠ [] → (0 < n)%nat →
  (∃ R0 R1,
     compute_Lambdas_dSIR Lambda0 Lambda1 contacts [] = Ok (R0, R1) ∧
     lambda_pair n R0 R1 ∧ length (values R0) = length (values S0) ∧
     ∀ (e r c : nat) x,
       entry (values R0) e r c = Some x ∨ entry (values R1) e r c = Some x →
       (x == 1)%Q) ∧
  (∀ k : nat, (n ≤ k + 1)%nat →
     ∃ R0 R1,
       compute_Lambdas_dSIR Lambda0 Lambda1 contacts (replicate k 1%Q)
         = Ok (R0, R1) ∧
       same_values (values R0) (values S0) ∧
       same_values (values R1) (values S1)).
Proof.
  intros Hpair HS Hne Hn.
  assert (∃ m0 r0, getitem (values Lambda0) 0 = Ok m0 ∧ getitem m0 0 = Ok r0 ∧
                   length r0 = n) as (m0 & r0 & Hm0 & Hr0 & Hlen0).
  { destruct (values Lambda0) as [|m0 v] eqn:Ev; [done|].
    destruct Hpair as [_ Hsq _]. rewrite Ev in Hsq.
    apply Forall_cons in Hsq as [[Hl Hrows] _].
    destruct m0 as [|r0 m0]; [simpl in Hl; lia|].
    apply Forall_cons in Hrows as [Hr0 _].
    exists (r0 :: m0), r0. done. }
  pose proof (builders_shape n _ _ _ _ _ Hpair (or_introl HS)) as [_ HlenS].
  pose proof HS as HS'.
  apply compute_Lambdas_Ok in HS' as (L & HL & ES1 & ES0).
  destruct (populated_pair n _ _ _ _ Hpair HL) as [HpairL _].
  pose proof HpairL as [_ SL0 SL1].
  split.
  - destruct (compute_Lambdas_dSIR_total _ _ _ [] _ _ _ _ HS Hm0 Hr0)
      as (R0 & R1 & HR).
    exists R0, R1.
    pose proof (builders_shape n _ _ _ _ _ Hpair
                  (or_intror (ex_intro _ [] HR))) as [HpairR HlenR].
    split_and!; [done|done|congruence|].
    apply compute_Lambdas_dSIR_Ok in HR
      as (L' & m0' & r0' & Hm0' & Hr0' & HL' & E1 & E0).
    rewrite HL in HL'. injection HL' as <-.
    rewrite Hm0 in Hm0'. injection Hm0' as <-.
    rewrite Hr0 in Hr0'. injection Hr0' as <-. rewrite Hlen0 in E0, E1.
    intros e r c x [Hx|Hx].
    + rewrite E0 in Hx. apply (final_lower_ones c) in Hx; [done| |lia].
      intros e' r' c' x' Hx' _.
      apply (empty_mask_zero 0 n) in Hx'; [done| | |apply length_Mask0|lia].
      * intros ? ? ? ?.
        apply (entry_tril_zero_pair n L.1 L.2 0 _ _ _ _ _ HpairL (or_introl eq_refl)).
      * intros r'' Hr''. rewrite lookup_Mask0 by done. do 2 f_equal. lia.
    + rewrite E1 in Hx. apply (final_lower_ones c) in Hx; [done| |lia].
      intros e' r' c' x' Hx' _.
      apply (empty_mask_zero 1 n) in Hx'; [done| | |apply length_Mask1|lia].
      * intros ? ? ? ?.
        apply (entry_tril_zero_pair n L.1 L.2 1 _ _ _ _ _ HpairL (or_intror eq_refl)).
      * intros r'' Hr''. rewrite lookup_Mask1 by done. do 2 f_equal. lia.
  - intros k Hk.
    destruct (compute_Lambdas_dSIR_total _ _ _ (replicate k 1%Q) _ _ _ _ HS Hm0 Hr0)
      as (R0 & R1 & HR).
    exists R0, R1. split; [done|].
    apply compute_Lambdas_dSIR_Ok in HR
      as (L' & m0' & r0' & Hm0' & Hr0' & HL' & E1 & E0).
    rewrite HL in HL'. injection HL' as <-.
    rewrite Hm0 in Hm0'. injection Hm0' as <-.
    rewrite Hr0 in Hr0'. injection Hr0' as <-. rewrite Hlen0 in E0, E1.
    rewrite E0, E1, ES0, ES1. split.
    + apply same_values_cumprod, same_values_one_minus, (same_values_mul_mask n);
        [by apply square_values_tril_zero | apply length_Mask0
        | by apply Mask0_all_ones].
    + apply same_values_cumprod, same_values_one_minus, (same_values_mul_mask n);
        [by apply square_values_tril_zero | apply length_Mask1
        | by apply Mask1_all_ones].
Qed.

Lemma empty_mask_masks_every_rate_witness :
  ∃ S0 S1 R0 R1,
    compute_Lambdas scenario_tensor scenario_tensor scenario_contacts = Ok (S0, S1) ∧
    compute_Lambdas_dSIR scenario_tensor scenario_tensor scenario_contacts []
      = Ok (R0, R1) ∧
    entry (values S1) 1 0 2 = Some (1 # 2)%Q ∧
    entry (values R1) 1 0 2 = Some (2 # 2)%Q ∧
    ∃ T0 T1,
      compute_Lambdas_dSIR scenario_tensor scenario_tensor scenario_contacts
        (replicate 2 1%Q) = Ok (T0, T1) ∧
      same_values (values T1) (values S1).
Proof.
  eexists _, _, _, _. split; [vm_compute; reflexivity|].
  split; [vm_compute; reflexivity|].
  split; [vm_compute; reflexivity|]. split; [vm_compute; reflexivity|].
  destruct (proj2 (empty_mask_masks_every_rate 3 scenario_tensor scenario_tensor
              scenario_contacts _ _ scenario_pair eq_refl ltac:(done) ltac:(lia))
              2%nat ltac:(lia)) as (T0 & T1 & HT & _ & H1).
  exists T0, T1. split; [exact HT | exact H1].
Defined.

(** C2, as stated, fails: in the scenario the contact rate 0.5 survives in
    the result of [compute_Lambdas] and is masked out by the empty mask. *)
Lemma empty_mask_differs_from_no_mask :
  ¬ (∀ Lambda0 Lambda1 contacts S0 S1,
       same_topology Lambda0 Lambda1 →
       Forall (λ cc, edge_exists Lambda0 (cc0 cc) (cc1 cc)) contacts →
       compute_Lambdas Lambda0 Lambda1 contacts = Ok (S0, S1) →
       ∃ R0 R1,
         compute_Lambdas_dSIR Lambda0 Lambda1 contacts [] = Ok (R0, R1) ∧
         same_values (values R0) (values S0) ∧
         same_values (values R1) (values S1)).
Proof.
  intros H.
  destruct (compute_Lambdas scenario_tensor scenario_tensor scenario_contacts)
    as [[S0 S1]|] eqn:E; [|vm_compute in E; discriminate E].
  destruct (H scenario_tensor scenario_tensor scenario_contacts S0 S1)
    as (R0 & R1 & HR & _ & H1).
  - by repeat split.
  - unfold scenario_contacts. apply Forall_cons. split; [|apply Forall_nil_2].
    exists [0]. split; [done|]. by apply list_elem_of_singleton.
  - exact E.
  - vm_compute in E. injection E as <- <-.
    vm_compute in HR. injection HR as <- <-.
    apply (same_values_entry _ _ 1 0 2 (2 # 2)%Q) in H1 as (y & Hy & Hq);
      [|reflexivity].
    vm_compute in Hy. injection Hy as <-. vm_compute in Hq. discriminate Hq.
Qed.

(** ** The builders return on the tensors of construction *)

Lemma layout_set_values t v :
  layout t → length v = length (values t) →
  square_values (Z.to_nat (tensor_T t + 2)) v → layout (set_values v t).
Proof.
  intros [Hlen Hrun He Hsq HT] Hv Hsqv. split; simpl; [done| |congruence|done|done].
  intros p a Ha. destruct (Hrun p a Ha) as (c & ? & ? & ?).
  exists c. split_and!; [done|done|lia].
Qed.

Lemma init_like_layout t :
  layout t → ∃ t', init_like t = Ok t' ∧ layout t' ∧ same_topology t t'.
Proof.
  intros Hl. pose proof (layout_T t Hl) as HT.
  unfold init_like, np_full. rewrite bool_decide_false by lia. simpl.
  eexists. split; [done|]. split; [|by repeat split].
  apply layout_set_values; [done| |apply square_values_replicate].
  by rewrite length_replicate, (layout_edges t Hl).
Qed.

Lemma edge_exists_same_topology t t' i j :
  same_topology t t' → edge_exists t i j → edge_exists t' i j.
Proof. intros (_ & Ha & _) H. unfold edge_exists in *. by rewrite <- Ha. Qed.

Lemma view_set_col_total t w (col : Z) x :
  layout t → (view_slot w < length (values t))%nat → 0 ≤ col < tensor_T t + 2 →
  ∃ t', view_set_col t w col x = Ok t' ∧ layout t' ∧ same_topology t t'.
Proof.
  intros Hl Hw Hcol.
  destruct (lookup_lt_is_Some_2 _ _ Hw) as [m Hm].
  pose proof (layout_square t Hl) as Hsq. unfold square_values in Hsq.
  rewrite Forall_lookup in Hsq. destruct (Hsq _ _ Hm) as [Hlen Hrows].
  assert (ncols m = Z.to_nat (tensor_T t + 2)) as Hn.
  { destruct m as [|r m]; [simpl in Hlen; lia|].
    by apply Forall_cons in Hrows as [? _]. }
  unfold view_set_col, view_read. rewrite Hm. simpl. rewrite Hn.
  unfold py_index. rewrite bool_decide_true by lia. simpl.
  eexists. split; [done|]. split; [|by repeat split].
  unfold view_write. apply layout_set_values; [done|by rewrite length_alter|].
  by apply square_values_set_col, layout_square.
Qed.

Lemma populate_total L cc :
  layout L.1 → layout L.2 → contact_fits L cc →
  ∃ L', populate L cc = Ok L' ∧ layout L'.1 ∧ layout L'.2 ∧
        same_topology L.1 L'.1 ∧ same_topology L.2 L'.2.
Proof.
  intros Hl0 Hl1 (E0 & E1 & Ht0 & Ht1 & Ht2). unfold populate.
  destruct (get_idx_ij_layout _ _ _ Hl1 E1)
    as (?&k1&?&c1&?&?&?&?&?&?&Hk1&?&Hw1).
  rewrite Hw1. simpl.
  destruct (view_set_col_total L.2 (View (Z.to_nat (c1 + k1))) (cc2 cc + 2) (cc3 cc))
    as (L1' & -> & Hl1' & HT1); [done|simpl; lia|lia|]. simpl.
  destruct (get_idx_ij_layout _ _ _ Hl0 E0)
    as (?&k0&?&c0&?&?&?&?&?&?&Hk0&?&Hw0).
  rewrite Hw0. simpl.
  destruct (view_set_col_total L.1 (View (Z.to_nat (c0 + k0))) (cc2 cc + 1) (cc3 cc))
    as (L0' & -> & Hl0' & HT0); [done|simpl; lia|lia|]. simpl.
  eexists. split; [done|]. done.
Qed.

Lemma contact_fits_same_topology L L' cc :
  same_topology L.1 L'.1 → same_topology L.2 L'.2 →
  contact_fits L cc → contact_fits L' cc.
Proof.
  intros H0 H1 (E0 & E1 & ? & ? & ?).
  pose proof H0 as (_ & _ & _ & HT0 & _). pose proof H1 as (_ & _ & _ & HT1 & _).
  split_and!; [by eapply edge_exists_same_topology..|done|lia|lia].
Qed.

Lemma for_each_populate_total cs L :
  layout L.1 → layout L.2 → Forall (contact_fits L) cs →
  ∃ L', for_each populate L cs = Ok L'.
Proof.
  revert L. induction cs as [|cc cs IH]; intros L Hl0 Hl1 Hcs; simpl; [eauto|].
  apply Forall_cons in Hcs as [Hcc Hcs].
  destruct (populate_total L cc Hl0 Hl1 Hcc) as (L' & -> & Hl0' & Hl1' & T0 & T1).
  simpl. apply IH; [done..|].
  eapply Forall_impl; [exact Hcs|]. intros cc'.
  by apply contact_fits_same_topology.
Qed.

Lemma compute_Lambdas_total Lambda0 Lambda1 cs :
  layout Lambda0 → layout Lambda1 → Forall (contact_fits (Lambda0, Lambda1)) cs →
  ∃ R0 R1, compute_Lambdas Lambda0 Lambda1 cs = Ok (R0, R1).
Proof.
  intros Hl0 Hl1 Hcs. unfold compute_Lambdas.
  destruct (for_each_populate_total cs
              (set_values (fill 0%Q (values Lambda0)) Lambda0,
               set_values (fill 0%Q (values Lambda1)) Lambda1)) as [L ->].
  - apply layout_set_values; [done|apply length_fill|].
    apply square_values_fill, layout_square, Hl0.
  - apply layout_set_values; [done|apply length_fill|].
    apply square_values_fill, layout_square, Hl1.
  - eapply Forall_impl; [exact Hcs|]. intros cc.
    by apply contact_fits_same_topology.
  - simpl. eauto.
Qed.

(** X7. On a constructed tensor and its [init_like] companion
    [compute_Lambdas] returns for the contacts of construction when their
    times are in [0 .. T-1]; the masked builder returns as well, for every
    mask, when there is a contact. *)
Lemma builders_return N T cs t0 :
  init N T cs = Ok t0 → Forall (λ cc, 0 ≤ cc2 cc < T) cs →
  ∃ t1 R0 R1,
    init_like t0 = Ok t1 ∧ lambda_pair (Z.to_nat (T + 2)) t0 t1 ∧
    compute_Lambdas t0 t1 cs = Ok (R0, R1) ∧
    (cs ≠ [] → ∀ mask, ∃ M0 M1, compute_Lambdas_dSIR t0 t1 cs mask = Ok (M0, M1)).
Proof.
  intros Ht0 Htimes. pose proof (init_layout _ _ _ _ Ht0) as Hl0.
  destruct (init_like_layout t0 Hl0) as (t1 & Ht1 & Hl1 & Htop).
  assert (tensor_T t0 = T) as HT0.
  { by apply init_Ok in Ht0 as (adj & _ & _ & ->). }
  pose proof Htop as (_ & _ & _ & HT1 & _).
  assert (Forall (contact_fits (t0, t1)) cs) as Hfits.
  { apply Forall_forall. intros cc Hcc. rewrite Forall_forall in Htimes.
    specialize (Htimes _ Hcc).
    assert (edge_exists t0 (cc0 cc) (cc1 cc)) as He.
    { eapply init_edge; [done|]. apply elem_of_edge_list_of. exists cc. auto. }
    split_and!; simpl; [done|by eapply edge_exists_same_topology|lia..]. }
  destruct (compute_Lambdas_total t0 t1 cs Hl0 Hl1 Hfits) as (R0 & R1 & HR).
  exists t1, R0, R1. split_and!; [done| |done|].
  - split.
    + by rewrite (layout_edges _ Hl0), (layout_edges _ Hl1),
        (proj1 (proj2 (proj2 (proj2 (proj2 Htop))))).
    + rewrite <- HT0. apply layout_square, Hl0.
    + rewrite <- HT0, HT1. apply layout_square, Hl1.
  - intros Hcs mask. destruct cs as [|cc cs]; [done|].
    apply Forall_cons in Hfits as [(He & _) _]. apply Forall_cons in Htimes as [Ht _].
    destruct (get_idx_ij_layout _ _ _ Hl0 He) as (?&k&?&c&?&?&?&?&?&?&Hk&?&?).
    destruct (values t0) as [|m0 v] eqn:Ev; [simpl in Hk; lia|].
    pose proof (layout_square _ Hl0) as Hsq. rewrite Ev in Hsq.
    apply Forall_cons in Hsq as [[Hlen _] _].
    destruct m0 as [|r0 m0]; [simpl in Hlen; lia|].
    apply (compute_Lambdas_dSIR_total t0 t1 _ mask R0 R1 (r0 :: m0) r0);
      [done|by rewrite Ev|done].
Qed.

(** A contact at the last time step [t = T] has no column [t + 2] in
    Lambda1: the builder raises. *)
Lemma compute_Lambdas_last_time :
  compute_Lambdas scenario_tensor scenario_tensor [(0, 1, 1, (1 # 2)%Q)]
    = Raise IndexError.
Proof. vm_compute. reflexivity. Qed.

(** * Further properties of the class *)

(** ** The edges of a constructed tensor *)

Lemma init_concat_idx_list N T cs t :
  init N T cs = Ok t →
  concat (idx_list t) = Z.of_nat <$> seq 0 (num_direct_edges t).
Proof.
  intros H. apply init_Ok in H as (adj & Hadj & HT & ->). simpl.
  pose proof (for_each_append_edge_count _ _ _ Hadj) as Hcount.
  assert (sum_list_with length (replicate (Z.to_nat N) ([] : list Z)) = 0%nat) as Hz.
  { clear. generalize (Z.to_nat N). intros n. induction n as [|n IH]; [done|].
    simpl. exact IH. }
  rewrite Hz in Hcount. simpl in Hcount.
  destruct (concat_fill_idx_list 0 ((λ a : list Z, Z.of_nat (length a)) <$> adj))
    as [_ ->].
  { apply Forall_fmap, Forall_true. intros ?. apply Nat2Z.is_nonneg. }
  rewrite sumZ_lengths, Hcount. unfold arange.
  replace (Z.to_nat _) with (length (edge_list_of cs)) by lia.
  apply list_fmap_ext. intros _ k _. lia.
Qed.

(** In a list of lists whose concatenation has no duplicate, an element
    determines the list it is in and its position there. *)
Lemma concat_NoDup_lookup {A} (ls : list (list A)) (p p' q q' : nat) l l' x :
  NoDup (concat ls) →
  ls !! p = Some l → l !! q = Some x →
  ls !! p' = Some l' → l' !! q' = Some x →
  p = p' ∧ q = q'.
Proof.
  revert p p'. induction ls as [|l0 ls IH]; intros p p' Hnd Hl Hx Hl' Hx'; [done|].
  simpl in Hnd. apply NoDup_app in Hnd as (Hnd0 & Hdisj & Hnd).
  assert (∀ (k : nat) m (z : nat), ls !! k = Some m → m !! z = Some x → x ∈ concat ls)
    as Hin.
  { intros k m z Hm Hz. apply list_elem_of_In, in_concat. exists m.
    split; apply list_elem_of_In; by eapply list_elem_of_lookup_2. }
  destruct p as [|p], p' as [|p']; simpl in Hl, Hl'; simplify_eq.
  - split; [done|]. exact (NoDup_lookup _ _ _ _ Hnd0 Hx Hx').
  - destruct (Hdisj x); [by eapply list_elem_of_lookup_2|eauto].
  - destruct (Hdisj x); [by eapply list_elem_of_lookup_2|eauto].
  - destruct (IH p p' Hnd Hl Hx Hl' Hx') as [-> ->]. done.
Qed.


Lemma edge_list_of_valid N cs a b :
  valid_nodes N cs → (a, b) ∈ edge_list_of cs → 0 ≤ a < N ∧ 0 ≤ b < N.
Proof.
  intros Hv Hab. apply elem_of_edge_list_of in Hab as (cc & Hcc & Hab).
  unfold valid_nodes in Hv. rewrite Forall_forall in Hv.
  specialize (Hv _ Hcc). lia.
Qed.

(** With contacts on nodes of [0 .. N-1], the adjacency list in position [p]
    holds exactly the second components of the edges that start with [p]. *)
Lemma init_adj_elem N T cs t (p : nat) a i :
  valid_nodes N cs → init N T cs = Ok t → adj_list t !! p = Some a →
  i ∈ a ↔ ((p : Z), i) ∈ edge_list_of cs.
Proof.
  intros Hv Ht Ha. pose proof (lookup_lt_Some _ _ _ Ha) as Hp.
  rewrite (init_length_adj_list _ _ _ _ Ht) in Hp.
  rewrite (init_adj_list _ _ _ _ p Ht Hp) in Ha. injection Ha as <-.
  unfold edges_into. rewrite list_elem_of_fmap. split.
  - intros ([x y] & -> & Hin). apply list_elem_of_filter in Hin as [Hhit Hin].
    pose proof (edge_list_of_valid _ _ _ _ Hv Hin) as [Hx _].
    apply py_index_Ok in Hhit as [_ [[_ Hhit]|[? _]]]; simpl in *; [|lia].
    by rewrite Hhit.
  - intros Hin. exists ((p : Z), i). split; [done|].
    apply list_elem_of_filter. split; [|done]. simpl. by apply py_index_nat.
Qed.

Lemma get_idx_ij_steps t i j idx :
  get_idx_ij t i j = Ok idx →
  ∃ (p p' k : nat) a r,
    py_index (length (adj_list t)) j = Ok p ∧ adj_list t !! p = Some a ∧
    a !! k = Some i ∧ list_index a i = Ok (k : Z) ∧
    py_index (length (idx_list t)) j = Ok p' ∧ idx_list t !! p' = Some r ∧
    r !! k = Some idx.
Proof.
  intros H. apply get_idx_ij_Ok in H as (a & idx_i & r & Ha & Hi & Hr & Hidx).
  apply getitem_Ok in Ha as (p & Hp & Ha). apply getitem_Ok in Hr as (p' & Hp' & Hr).
  destruct (list_index_Ok _ _ _ Hi) as (k & -> & Hk & _).
  apply getitem_Ok in Hidx as (q & Hq & Hidx).
  apply py_index_Ok in Hq as [_ [[_ Hq]|[? _]]]; [|lia].
  assert (q = k) as -> by lia. eauto 15.
Qed.

(** X1. On a tensor constructed from contacts on nodes of [0 .. N-1], the
    edge i → j (for a node subscript j >= 0) exists exactly when some
    contact has the pair (i, j) or (j, i), and [get_idx_ij(i, j)] and
    [get_ij(i, j)] return exactly for these edges: construction adds no edge
    that no contact names. *)
Theorem edges_are_contact_pairs N T contacts t i j :
  valid_nodes N contacts → init N T contacts = Ok t → 0 ≤ j →
  (edge_exists t i j ↔
     ∃ cc, cc ∈ contacts ∧
           ((cc0 cc = i ∧ cc1 cc = j) ∨ (cc0 cc = j ∧ cc1 cc = i))) ∧
  ((∃ idx, get_idx_ij t i j = Ok idx) ↔ edge_exists t i j) ∧
  ((∃ w, get_ij t i j = Ok w) ↔ edge_exists t i j).
Proof.
  intros Hv Ht Hj. pose proof (init_layout _ _ _ _ Ht) as Hl.
  assert ((∃ idx, get_idx_ij t i j = Ok idx) ↔ edge_exists t i j) as Hidx.
  { split.
    - intros [idx H]. apply get_idx_ij_steps in H
        as (p & p' & k & a & r & Hp & Ha & Hk & _).
      exists a. split; [apply getitem_Ok; eauto | by eapply list_elem_of_lookup_2].
    - intros He. destruct (get_idx_ij_layout t i j Hl He)
        as (?&?&?&c&?&?&?&?&?&?&?&?&?). eauto. }
  split_and!; [|done|].
  - split.
    + intros (a & Ha & Hi). apply getitem_Ok in Ha as (p & Hp & Ha).
      apply py_index_Ok in Hp as [_ [[_ Hp]|[? _]]]; [|lia].
      apply (init_adj_elem _ _ _ _ _ _ i Hv Ht Ha) in Hi. rewrite Hp in Hi.
      apply elem_of_edge_list_of in Hi as (cc & Hcc & Hi).
      exists cc. split; [done|]. destruct Hi as [[-> ->]|[-> ->]]; auto.
    + intros (cc & Hcc & Hij).
      assert ((j, i) ∈ edge_list_of contacts) as Hin.
      { apply elem_of_edge_list_of. exists cc. split; [done|].
        destruct Hij as [[<- <-]|[<- <-]]; auto. }
      by eapply init_edge.
  - rewrite <- Hidx. split.
    + intros [w H]. apply get_ij_Ok in H as (idx & H & _). eauto.
    + intros H. apply Hidx in H.
      destruct (get_idx_ij_layout t i j Hl H) as (?&?&?&c&?&?&?&?&?&?&?&?&?). eauto.
Qed.

Lemma edges_are_contact_pairs_witness :
  (edge_exists scenario_tensor 1 0 ↔
     ∃ cc, cc ∈ scenario_contacts ∧
           ((cc0 cc = 1 ∧ cc1 cc = 0) ∨ (cc0 cc = 0 ∧ cc1 cc = 1))) ∧
  ¬ edge_exists scenario_tensor 1 1.
Proof.
  assert (valid_nodes 2 scenario_contacts) as Hv.
  { unfold valid_nodes, scenario_contacts. forall_concrete. }
  split.
  - exact (proj1 (edges_are_contact_pairs 2 1 scenario_contacts scenario_tensor 1 0
                    Hv ltac:(vm_compute; reflexivity) ltac:(lia))).
  - intros H.
    apply (proj1 (edges_are_contact_pairs 2 1 scenario_contacts scenario_tensor 1 1
                    Hv ltac:(vm_compute; reflexivity) ltac:(lia))) in H
      as (cc & Hcc & Hij).
    apply list_elem_of_singleton in Hcc. subst cc.
    cbv [cc0 cc1] in Hij. simpl in Hij. lia.
Defined.

(** ** Slots *)

Lemma init_adj_sorted N T cs t (p : nat) a :
  valid_nodes N cs → init N T cs = Ok t → adj_list t !! p = Some a →
  StronglySorted Z.lt a.
Proof.
  intros Hv Ht Ha. pose proof (lookup_lt_Some _ _ _ Ha) as Hp.
  rewrite (init_length_adj_list _ _ _ _ Ht) in Hp.
  rewrite (init_adj_list _ _ _ _ p Ht Hp) in Ha. injection Ha as <-.
  apply edges_into_sorted; [apply edge_list_of_sorted|].
  apply Forall_forall. intros [x y] Hxy.
  pose proof (edge_list_of_valid _ _ _ _ Hv Hxy). simpl. lia.
Qed.

Lemma init_idx_NoDup N T cs t : init N T cs = Ok t → NoDup (concat (idx_list t)).
Proof.
  intros Ht. rewrite (init_concat_idx_list _ _ _ _ Ht).
  apply NoDup_fmap_2; [apply _ | apply NoDup_seq].
Qed.

(** Two successful lookups with the same slot are lookups of the same
    edge. *)
Lemma get_idx_ij_inj N T cs t i j i' j' idx :
  init N T cs = Ok t → 0 ≤ j → 0 ≤ j' →
  get_idx_ij t i j = Ok idx → get_idx_ij t i' j' = Ok idx → i = i' ∧ j = j'.
Proof.
  intros Ht Hj Hj' H H'.
  apply get_idx_ij_steps in H as (p & q & k & a & r & Hp & Ha & Hk & _ & Hq & Hr & Hidx).
  apply get_idx_ij_steps in H'
    as (p' & q' & k' & a' & r' & Hp' & Ha' & Hk' & _ & Hq' & Hr' & Hidx').
  destruct (concat_NoDup_lookup _ _ _ _ _ _ _ _ (init_idx_NoDup _ _ _ _ Ht)
              Hr Hidx Hr' Hidx') as [-> ->].
  apply py_index_Ok in Hp as [_ [[_ Hp]|[? _]]]; [|lia].
  apply py_index_Ok in Hp' as [_ [[_ Hp']|[? _]]]; [|lia].
  apply py_index_Ok in Hq as [_ [[_ Hq]|[? _]]]; [|lia].
  apply py_index_Ok in Hq' as [_ [[_ Hq']|[? _]]]; [|lia].
  assert (j = j') as <- by lia. assert (p = p') as <- by lia.
  rewrite Ha in Ha'. injection Ha' as <-. rewrite Hk in Hk'. by injection Hk' as <-.
Qed.

(** The slot of the edge whose sender is at position [k] of a duplicate-free
    adjacency list is the index at position [k] of the index list. *)
Lemma get_idx_ij_at t (p k : nat) a r i idx :
  adj_list t !! p = Some a → idx_list t !! p = Some r → NoDup a →
  a !! k = Some i → r !! k = Some idx → get_idx_ij t i p = Ok idx.
Proof.
  intros Ha Hr Hnd Hk Hidx. apply get_idx_ij_Ok.
  exists a, (k : Z), r. split_and!; [by apply getitem_nat| |by apply getitem_nat..].
  by apply list_index_NoDup.
Qed.

(** X2. On a constructed tensor every slot returned by [get_idx_ij] is in
    [0, num_direct_edges); two lookups (with receivers j, j' >= 0) that
    return the same slot are lookups of the same edge; and, with contacts on
    nodes of [0 .. N-1], every slot of [0, num_direct_edges) is the slot of
    an edge.  Edges and slots of [values] are in one-to-one correspondence. *)
Theorem slots_are_edges N T contacts t :
  init N T contacts = Ok t →
  (∀ i j idx, get_idx_ij t i j = Ok idx → 0 ≤ idx < num_direct_edges t) ∧
  (∀ i j i' j' idx, 0 ≤ j → 0 ≤ j' →
     get_idx_ij t i j = Ok idx → get_idx_ij t i' j' = Ok idx → i = i' ∧ j = j') ∧
  (valid_nodes N contacts →
     ∀ idx, 0 ≤ idx < num_direct_edges t →
       ∃ i j, 0 ≤ i < N ∧ 0 ≤ j < N ∧ get_idx_ij t i j = Ok idx).
Proof.
  intros Ht. pose proof (init_concat_idx_list _ _ _ _ Ht) as Hconcat.
  pose proof (init_layout _ _ _ _ Ht) as Hl.
  split_and!.
  - intros i j idx H.
    apply get_idx_ij_steps in H as (p & q & k & a & r & _ & _ & _ & _ & _ & Hr & Hidx).
    assert (idx ∈ concat (idx_list t)) as Hin.
    { apply list_elem_of_In, in_concat. exists r.
      split; apply list_elem_of_In; by eapply list_elem_of_lookup_2. }
    rewrite Hconcat in Hin. apply list_elem_of_fmap in Hin as (n & -> & Hn).
    apply elem_of_seq in Hn. lia.
  - intros i j i' j' idx. by apply (get_idx_ij_inj N T contacts).
  - intros Hv idx Hidx.
    assert (idx ∈ concat (idx_list t)) as Hin.
    { rewrite Hconcat. apply list_elem_of_fmap. exists (Z.to_nat idx).
      split; [lia|]. apply elem_of_seq. lia. }
    apply list_elem_of_In, in_concat in Hin as (r & Hr & Hin).
    apply list_elem_of_In, list_elem_of_lookup_1 in Hr as [p Hr].
    apply list_elem_of_In, list_elem_of_lookup_1 in Hin as [k Hk].
    destruct (lookup_lt_is_Some_2 (adj_list t) p) as [a Ha].
    { rewrite <- (layout_length t Hl). by eapply lookup_lt_Some. }
    destruct (layout_run t Hl p a Ha) as (c & Hr' & _).
    rewrite Hr in Hr'. injection Hr' as ->.
    pose proof (lookup_lt_Some _ _ _ Hk) as Hlt. rewrite length_arange in Hlt.
    destruct (lookup_lt_is_Some_2 a k) as [i Hi]; [lia|].
    exists i, (p : Z).
    assert (((p : Z), i) ∈ edge_list_of contacts) as Hedge.
    { apply (init_adj_elem _ _ _ _ _ _ i Hv Ht Ha). by eapply list_elem_of_lookup_2. }
    pose proof (edge_list_of_valid _ _ _ _ Hv Hedge) as [? ?].
    split_and!; [lia..|].
    apply (get_idx_ij_at t p k a _ i idx Ha Hr); [|done..].
    eapply sorted_Z_NoDup, init_adj_sorted; eauto.
Qed.

Lemma slots_are_edges_witness :
  get_idx_ij scenario_tensor 0 1 = Ok 1 ∧
  0 ≤ 1 < num_direct_edges scenario_tensor ∧
  ∃ i j, 0 ≤ i < 2 ∧ 0 ≤ j < 2 ∧ get_idx_ij scenario_tensor i j = Ok 0.
Proof.
  assert (valid_nodes 2 scenario_contacts) as Hv.
  { unfold valid_nodes, scenario_contacts. forall_concrete. }
  destruct (slots_are_edges 2 1 scenario_contacts scenario_tensor
              ltac:(vm_compute; reflexivity)) as (H1 & _ & H3).
  split; [vm_compute; reflexivity|]. split.
  - apply (H1 0 1). vm_compute; reflexivity.
  - apply (H3 Hv 0). simpl. lia.
Defined.

Lemma NoDup_arange a b : NoDup (arange a b).
Proof.
  unfold arange. apply NoDup_fmap_2; [|apply NoDup_seq].
  intros x y Hxy. lia.
Qed.



(** ** [get_all_indices] *)

Lemma collect_lookup {X Y} (f : X → result Y) l ys (k : nat) x :
  collect f l = Ok ys → l !! k = Some x → ∃ y, ys !! k = Some y ∧ f x = Ok y.
Proof.
  intros H Hx. apply collect_Ok in H.
  destruct (Forall2_lookup_l _ _ _ _ _ H Hx) as (y & ? & ?). eauto.
Qed.

(** X4. On a tensor constructed from contacts on nodes of [0 .. N-1],
    [get_all_indices(i)] returns for every node [i].  The incoming list is
    [idx_list[i]]; at the position of a neighbour [j] in [adj_list[i]] the
    incoming list holds the slot of the edge j → i and the outgoing list the
    slot of the edge i → j.  Neither list repeats a slot, and unless [i] is
    its own neighbour the two lists share no slot. *)
Theorem get_all_indices_constructed N T contacts t (i : nat) a :
  valid_nodes N contacts → init N T contacts = Ok t →
  adj_list t !! i = Some a →
  ∃ inc out,
    get_all_indices t i = Ok (inc, out) ∧ idx_list t !! i = Some inc ∧
    length inc = length a ∧ length out = length a ∧
    (∀ (k : nat) j, a !! k = Some j →
       ∃ x y, inc !! k = Some x ∧ get_idx_ij t j i = Ok x ∧
              out !! k = Some y ∧ get_idx_ij t i j = Ok y) ∧
    NoDup inc ∧ NoDup out ∧
    ((i : Z) ∉ a → ∀ x, x ∈ inc → x ∉ out).
Proof.
  intros Hv Ht Ha. pose proof (init_layout _ _ _ _ Ht) as Hl.
  pose proof (sorted_Z_NoDup _ (init_adj_sorted _ _ _ _ _ _ Hv Ht Ha)) as Hnd.
  destruct (layout_run t Hl i a Ha) as (c & Hinc & Hc & Hle).
  assert (∀ j, j ∈ a → 0 ≤ j ∧ edge_exists t i j) as Hout.
  { intros j Hj. apply (init_adj_elem _ _ _ _ _ _ j Hv Ht Ha) in Hj.
    pose proof (edge_list_of_valid _ _ _ _ Hv Hj) as [_ ?]. split; [lia|].
    eapply init_edge; [done|]. by apply edge_list_of_symmetric. }
  destruct (collect_total (λ j, get_idx_ij t i j) a) as [out Hcol].
  { apply Forall_forall. intros j Hj. destruct (Hout j Hj) as [_ He].
    destruct (get_idx_ij_layout t i j Hl He) as (?&?&?&?&?&?&?&?&?&?&?&?&?). eauto. }
  exists (arange c (c + length a)), out.
  assert (∀ (k : nat) j, a !! k = Some j →
     ∃ x y, arange c (c + length a) !! k = Some x ∧ get_idx_ij t j i = Ok x ∧
            out !! k = Some y ∧ get_idx_ij t i j = Ok y) as Hpos.
  { intros k j Hk. destruct (collect_lookup _ _ _ _ _ Hcol Hk) as (y & Hy & Hgy).
    exists (c + k), y. pose proof (lookup_lt_Some _ _ _ Hk).
    assert (arange c (c + length a) !! k = Some (c + k)) as Hx
      by (apply lookup_arange; lia).
    split_and!; try done. by apply (get_idx_ij_at t i k a (arange c (c + length a))). }
  split_and!.
  - unfold get_all_indices. rewrite (getitem_nat _ _ _ Hinc). simpl.
    rewrite (getitem_nat _ _ _ Ha). simpl. by rewrite Hcol.
  - done.
  - rewrite length_arange. lia.
  - apply collect_Ok, Forall2_length in Hcol. lia.
  - exact Hpos.
  - apply NoDup_arange.
  - apply NoDup_alt. intros k k' y Hy Hy'.
    pose proof (Forall2_length _ _ _ (proj1 (collect_Ok _ _ _) Hcol)) as Hlen.
    destruct (lookup_lt_is_Some_2 a k) as [j Hj];
      [rewrite Hlen; by eapply lookup_lt_Some|].
    destruct (lookup_lt_is_Some_2 a k') as [j' Hj'];
      [rewrite Hlen; by eapply lookup_lt_Some|].
    destruct (Hpos k j Hj) as (_ & y1 & _ & _ & Hy1 & Hg).
    destruct (Hpos k' j' Hj') as (_ & y2 & _ & _ & Hy2 & Hg').
    rewrite Hy in Hy1. injection Hy1 as <-. rewrite Hy' in Hy2. injection Hy2 as <-.
    destruct (Hout j) as [Hj0 _]; [by eapply list_elem_of_lookup_2|].
    destruct (Hout j') as [Hj0' _]; [by eapply list_elem_of_lookup_2|].
    destruct (get_idx_ij_inj N T contacts t i j i j' y Ht Hj0 Hj0' Hg Hg')
      as [_ <-].
    by eapply NoDup_lookup.
  - intros Hself x Hx Hx'.
    apply list_elem_of_lookup_1 in Hx as [k Hk], Hx' as [k' Hk'].
    pose proof (Forall2_length _ _ _ (proj1 (collect_Ok _ _ _) Hcol)) as Hlen.
    destruct (lookup_lt_is_Some_2 a k) as [j Hj].
    { apply lookup_lt_Some in Hk. rewrite length_arange in Hk. lia. }
    destruct (lookup_lt_is_Some_2 a k') as [j' Hj'];
      [rewrite Hlen; by eapply lookup_lt_Some|].
    destruct (Hpos k j Hj) as (x1 & _ & Hx1 & Hg & _).
    destruct (Hpos k' j' Hj') as (_ & y2 & _ & _ & Hy2 & Hg').
    rewrite Hk in Hx1. injection Hx1 as <-. rewrite Hk' in Hy2. injection Hy2 as <-.
    destruct (Hout j') as [Hj0' _]; [by eapply list_elem_of_lookup_2|].
    destruct (get_idx_ij_inj N T contacts t j i i j' x Ht ltac:(lia) Hj0' Hg Hg')
      as [-> _].
    apply Hself. by eapply list_elem_of_lookup_2.
Qed.

Lemma get_all_indices_constructed_witness :
  ∃ t, init 3 1 [(0, 1, 0, (1 # 2)%Q); (2, 1, 1, (1 # 3)%Q)] = Ok t ∧
       get_all_indices t 1 = Ok ([1; 2], [0; 3]) ∧
       ∃ inc out, get_all_indices t 1%nat = Ok (inc, out) ∧ NoDup out.
Proof.
  eexists. split; [vm_compute; reflexivity|]. split; [vm_compute; reflexivity|].
  lazymatch goal with
  | |- ∃ inc out, get_all_indices ?t _ = _ ∧ _ =>
      destruct (get_all_indices_constructed 3 1
                  [(0, 1, 0, (1 # 2)%Q); (2, 1, 1, (1 # 3)%Q)] t 1 [0; 2])
        as (inc & out & H & _ & _ & _ & _ & _ & Hnd & _)
  end.
  - unfold valid_nodes. forall_concrete.
  - vm_compute; reflexivity.
  - reflexivity.
  - exists inc, out. split; [exact H | exact Hnd].
Defined.

(** ** Initial values *)

(** X5. Construction fills [values] with [num_direct_edges] matrices of
    shape (T+2) × (T+2), all of whose entries are one and the same value:
    the value of the division 1/((T+2)*(T+2)), which is positive and at
    most 1. *)
Theorem init_uniform N T contacts t :
  init N T contacts = Ok t →
  length (values t) = num_direct_edges t ∧
  square_values (Z.to_nat (T + 2)) (values t) ∧
  ∃ x, true_div 1 ((T + 2) * (T + 2)) = Ok x ∧ (0 < x <= 1)%Q ∧
       ∀ e r c y, entry (values t) e r c = Some y → y = x.
Proof.
  intros Ht. pose proof (init_layout _ _ _ _ Ht) as Hl.
  apply init_Ok in Ht as (adj & _ & HT & Et).
  assert (1 ≤ (T + 2) * (T + 2)) as Hd by (clear -HT; nia).
  split_and!.
  - apply (layout_edges t Hl).
  - rewrite Et. simpl. apply square_values_replicate.
  - exists (1 / inject_Z ((T + 2) * (T + 2)))%Q. split_and!.
    + unfold true_div. rewrite bool_decide_false by (clear -Hd; lia). done.
    + apply Qlt_shift_div_l.
      * unfold Qlt. simpl. clear -Hd. lia.
      * rewrite Qmult_0_l. reflexivity.
    + apply Qle_shift_div_r.
      * unfold Qlt. simpl. clear -Hd. lia.
      * unfold Qle. simpl. clear -Hd. lia.
    + intros e r c y Hy. rewrite Et in Hy. simpl in Hy.
      apply entry_Some in Hy as (m & row & Hm & Hrow & Hy).
      apply lookup_replicate in Hm as [-> _].
      apply lookup_replicate in Hrow as [-> _].
      by apply lookup_replicate in Hy as [-> _].
Qed.

Lemma init_uniform_witness :
  ∃ x, entry (values scenario_tensor) 1 2 0 = Some x ∧
       entry (values scenario_tensor) 0 1 1 = Some x ∧ (0 < x <= 1)%Q.
Proof.
  destruct (init_uniform 2 1 scenario_contacts scenario_tensor init_scenario)
    as (_ & _ & x & _ & Hx & Hall).
  exists x. split_and!; [|  |exact (proj1 Hx)|exact (proj2 Hx)].
  - rewrite <- (Hall 1%nat 2%nat 0%nat (1 # 9)%Q eq_refl). reflexivity.
  - rewrite <- (Hall 0%nat 1%nat 1%nat (1 # 9)%Q eq_refl). reflexivity.
Defined.

(** ** [init_like] *)



(** ** Contacts the builders cannot file *)

Lemma getitem_Ok_or_IndexError {A} (l : list A) k e :
  getitem l k = Raise e → e = IndexError.
Proof.
  unfold getitem. destruct (py_index (length l) k) as [p|e'] eqn:E; simpl.
  - destruct (l !! p); by intros [= <-].
  - intros [= <-]. by apply py_index_inv in E as [-> _].
Qed.

Lemma builders_return_witness :
  ∃ t1 R0 R1,
    init_like scenario_tensor = Ok t1 ∧
    compute_Lambdas scenario_tensor t1 scenario_contacts = Ok (R0, R1).
Proof.
  destruct (builders_return 2 1 scenario_contacts scenario_tensor)
    as (t1 & R0 & R1 & H1 & _ & HR & _).
  - vm_compute; reflexivity.
  - unfold scenario_contacts. forall_concrete.
  - exists t1, R0, R1. split; [exact H1 | exact HR].
Defined.

Lemma view_set_col_out_of_range t w (col : Z) x :
  layout t → (view_slot w < length (values t))%nat → tensor_T t + 2 ≤ col →
  view_set_col t w col x = Raise IndexError.
Proof.
  intros Hl Hw Hcol.
  destruct (lookup_lt_is_Some_2 _ _ Hw) as [m Hm].
  pose proof (layout_square t Hl) as Hsq. unfold square_values in Hsq.
  rewrite Forall_lookup in Hsq. destruct (Hsq _ _ Hm) as [Hlen Hrows].
  pose proof (layout_T t Hl).
  assert (ncols m = Z.to_nat (tensor_T t + 2)) as Hn.
  { destruct m as [|r m]; [simpl in Hlen; lia|].
    by apply Forall_cons in Hrows as [? _]. }
  unfold view_set_col, view_read. rewrite Hm. simpl. rewrite Hn.
  by rewrite py_index_raise by lia.
Qed.

Lemma populate_out_of_range L cc :
  layout L.2 → edge_exists L.2 (cc0 cc) (cc1 cc) → tensor_T L.2 ≤ cc2 cc →
  populate L cc = Raise IndexError.
Proof.
  intros Hl He Ht. unfold populate.
  destruct (get_idx_ij_layout _ _ _ Hl He) as (?&k1&?&c1&?&?&?&?&?&?&Hk1&?&Hw1).
  rewrite Hw1. simpl.
  rewrite view_set_col_out_of_range; [done|done|simpl; lia|lia].
Qed.

Lemma for_each_populate_out_of_range cs L :
  layout L.1 → layout L.2 → tensor_T L.1 = tensor_T L.2 →
  Forall (λ cc, edge_exists L.1 (cc0 cc) (cc1 cc) ∧
                edge_exists L.2 (cc0 cc) (cc1 cc) ∧ 0 ≤ cc2 cc) cs →
  Exists (λ cc, tensor_T L.2 ≤ cc2 cc) cs →
  for_each populate L cs = Raise IndexError.
Proof.
  revert L. induction cs as [|cc cs IH]; intros L Hl0 Hl1 HT Hcs Hex.
  { by apply Exists_nil in Hex. }
  apply Forall_cons in Hcs as [(E0 & E1 & Hnn) Hcs]. simpl.
  destruct (decide (tensor_T L.2 ≤ cc2 cc)) as [Hbad|Hok].
  { by rewrite populate_out_of_range. }
  apply Exists_cons in Hex as [?|Hex]; [done|].
  destruct (populate_total L cc Hl0 Hl1) as (L' & -> & Hl0' & Hl1' & T0 & T1).
  { split_and!; [done|done|done|lia|lia]. }
  simpl. pose proof T0 as (_ & _ & _ & HT0 & _). pose proof T1 as (_ & _ & _ & HT1 & _).
  apply IH; [done|done|congruence| |by rewrite <- HT1].
  eapply Forall_impl; [exact Hcs|]. intros cc' (? & ? & ?).
  split_and!; [by eapply edge_exists_same_topology..|done].
Qed.

(** X8. On a constructed tensor and its [init_like] companion, with the
    contacts of construction at times >= 0: as soon as one contact has a
    time t >= T, both builders raise [IndexError].  Lambda1 has no column
    t + 2 for the last time step t = T. *)
Theorem contact_at_last_time_raises N T contacts t0 t1 :
  init N T contacts = Ok t0 → init_like t0 = Ok t1 →
  Forall (λ cc, 0 ≤ cc2 cc) contacts →
  Exists (λ cc, T ≤ cc2 cc) contacts →
  compute_Lambdas t0 t1 contacts = Raise IndexError ∧
  ∀ mask, compute_Lambdas_dSIR t0 t1 contacts mask = Raise IndexError.
Proof.
  intros Ht0 Ht1 Hnn Hex. pose proof (init_layout _ _ _ _ Ht0) as Hl0.
  destruct (init_like_layout t0 Hl0) as (t1' & Ht1' & Hl1 & Htop).
  rewrite Ht1 in Ht1'. injection Ht1' as <-.
  assert (tensor_T t0 = T) as HT0.
  { by apply init_Ok in Ht0 as (adj & _ & _ & ->). }
  pose proof Htop as (_ & _ & _ & HT1 & _).
  assert (for_each populate
            (set_values (fill 0%Q (values t0)) t0,
             set_values (fill 0%Q (values t1)) t1) contacts = Raise IndexError) as Hloop.
  { apply for_each_populate_out_of_range; simpl.
    - apply layout_set_values; [done|apply length_fill|].
      apply square_values_fill, layout_square, Hl0.
    - apply layout_set_values; [done|apply length_fill|].
      apply square_values_fill, layout_square, Hl1.
    - done.
    - apply Forall_forall. intros cc Hcc. rewrite Forall_forall in Hnn.
      assert (edge_exists t0 (cc0 cc) (cc1 cc)) as He.
      { eapply init_edge; [done|]. apply elem_of_edge_list_of. exists cc. auto. }
      split_and!; [done| |by apply Hnn].
      by apply (edge_exists_same_topology t0 t1).
    - eapply Exists_impl; [exact Hex|]. intros cc Hcc. simpl in *. lia. }
  split.
  - unfold compute_Lambdas. by rewrite Hloop.
  - intros mask. unfold compute_Lambdas_dSIR.
    destruct (getitem (values t0) 0) as [m0|e] eqn:E0; simpl.
    + destruct (getitem m0 0) as [r0|e] eqn:E1; simpl.
      * by rewrite Hloop.
      * by apply getitem_Ok_or_IndexError in E1 as ->.
    + by apply getitem_Ok_or_IndexError in E0 as ->.
Qed.

Lemma contact_at_last_time_raises_witness :
  ∃ t0 t1, init 2 1 [(0, 1, 0, (1 # 2)%Q); (0, 1, 1, (1 # 2)%Q)] = Ok t0 ∧
           init_like t0 = Ok t1 ∧
           compute_Lambdas t0 t1 [(0, 1, 0, (1 # 2)%Q); (0, 1, 1, (1 # 2)%Q)]
             = Raise IndexError.
Proof.
  eexists _, _. split; [vm_compute; reflexivity|]. split; [vm_compute; reflexivity|].
  refine (proj1 (contact_at_last_time_raises 2 1
            [(0, 1, 0, (1 # 2)%Q); (0, 1, 1, (1 # 2)%Q)] _ _ _ _ _ _)).
  - vm_compute; reflexivity.
  - vm_compute; reflexivity.
  - forall_concrete.
  - apply Exists_cons_tl, Exists_cons_hd. cbv [cc2]. simpl. lia.
Defined.

(** * Further properties of the builders *)

(** ** What the loop over the contacts writes *)

Lemma entry_set_col v (p c1 : nat) x e r c y :
  entry (alter (fmap (M := list) (<[c1 := x]>)) p v) e r c = Some y →
  ∃ y0, entry v e r c = Some y0 ∧
        y = if decide (e = p ∧ c = c1) then x else y0.
Proof.
  intros H. apply entry_Some in H as (m & row & Hm & Hrow & Hy).
  destruct (decide (e = p)) as [->|He].
  - rewrite list_lookup_alter_eq in Hm.
    destruct (v !! p) as [m0|] eqn:Em; [|done]. injection Hm as <-.
    rewrite list_lookup_fmap in Hrow.
    destruct (m0 !! r) as [row0|] eqn:Er; [|done]. injection Hrow as <-.
    destruct (decide (c = c1)) as [->|Hc].
    + pose proof (lookup_lt_Some _ _ _ Hy) as Hlt. rewrite length_insert in Hlt.
      destruct (lookup_lt_is_Some_2 row0 c1 Hlt) as [y0 Hy0].
      rewrite list_lookup_insert_eq in Hy by done. injection Hy as <-.
      exists y0. split; [apply entry_Some; eauto|]. by rewrite decide_True.
    + rewrite list_lookup_insert_ne in Hy by done.
      exists y. split; [apply entry_Some; eauto|].
      rewrite decide_False; [done|]. intros [_ ?]. done.
  - rewrite list_lookup_alter_ne in Hm by done.
    exists y. split; [apply entry_Some; eauto|].
    rewrite decide_False; [done|]. intros [? _]. done.
Qed.

(** One iteration, in full: the two views, the two columns and the two
    writes. *)
Lemma populate_steps L cc L' :
  populate L cc = Ok L' →
  ∃ w1 w0 (c1 c0 : nat),
    get_ij L.2 (cc0 cc) (cc1 cc) = Ok w1 ∧
    py_index (ncols (default [] (view_read L.2 w1))) (cc2 cc + 2) = Ok c1 ∧
    L'.2 = view_write L.2 w1 (fmap (M := list) (<[c1 := cc3 cc]>)) ∧
    get_ij L.1 (cc0 cc) (cc1 cc) = Ok w0 ∧
    py_index (ncols (default [] (view_read L.1 w0))) (cc2 cc + 1) = Ok c0 ∧
    L'.1 = view_write L.1 w0 (fmap (M := list) (<[c0 := cc3 cc]>)).
Proof.
  unfold populate. intros H. inv_bind H. inv_bind H. inv_bind H. inv_bind H.
  injection H as <-. simpl.
  unfold view_set_col in E0, E2. inv_bind E0. inv_bind E2.
  injection E0 as <-. injection E2 as <-. eauto 15.
Qed.

Lemma for_each_populate_written t1 t0 e r c cs :
  Forall (λ cc, 0 ≤ cc2 cc) cs →
  ∀ L L', for_each populate L cs = Ok L' →
    (∀ i j, get_ij L.2 i j = get_ij t1 i j) →
    (∀ i j, get_ij L.1 i j = get_ij t0 i j) →
    (∀ x, entry (values L'.2) e r c = Some x →
       ∃ x0, entry (values L.2) e r c = Some x0 ∧ x = written_from t1 2 e c x0 cs) ∧
    (∀ x, entry (values L'.1) e r c = Some x →
       ∃ x0, entry (values L.1) e r c = Some x0 ∧ x = written_from t0 1 e c x0 cs).
Proof.
  induction 1 as [|cc cs Hnn _ IH]; intros L L' HL H1 H0; simpl in HL.
  - injection HL as <-. split; intros x Hx; exists x; done.
  - inv_bind HL. rename x into S.
    apply populate_steps in E as (w1 & w0 & c1 & c0 & Hw1 & Hc1 & E1 & Hw0 & Hc0 & E0).
    destruct (IH S L' HL) as [IH1 IH0].
    { intros i j. rewrite E1, get_ij_view_write. apply H1. }
    { intros i j. rewrite E0, get_ij_view_write. apply H0. }
    apply py_index_Ok in Hc1 as [_ [[_ Hc1]|[? _]]]; [|lia].
    apply py_index_Ok in Hc0 as [_ [[_ Hc0]|[? _]]]; [|lia].
    split; intros x Hx.
    + destruct (IH1 x Hx) as (x1 & Hx1 & ->). rewrite E1 in Hx1.
      apply entry_set_col in Hx1 as (x0 & Hx0 & ->).
      exists x0. split; [done|]. unfold written_from. simpl. f_equal.
      destruct w1 as [p1]. simpl.
      destruct (decide (e = p1 ∧ c = c1)) as [[-> ->]|Hne].
      * rewrite decide_True; [done|]. split; [by rewrite <- H1|done].
      * rewrite decide_False; [done|]. intros [Hg Hc]. apply Hne.
        rewrite <- H1, Hw1 in Hg. injection Hg as ->. split; [done|]. lia.
    + destruct (IH0 x Hx) as (x1 & Hx1 & ->). rewrite E0 in Hx1.
      apply entry_set_col in Hx1 as (x0 & Hx0 & ->).
      exists x0. split; [done|]. unfold written_from. simpl. f_equal.
      destruct w0 as [p0]. simpl.
      destruct (decide (e = p0 ∧ c = c0)) as [[-> ->]|Hne].
      * rewrite decide_True; [done|]. split; [by rewrite <- H0|done].
      * rewrite decide_False; [done|]. intros [Hg Hc]. apply Hne.
        rewrite <- H0, Hw0 in Hg. injection Hg as ->. split; [done|]. lia.
Qed.

(** The state of the loop of the builders holds, in column [c] of slot [e],
    the rate of the last contact filed there, and 0 where none is. *)
Lemma populated_written Lambda0 Lambda1 cs L e r c :
  Forall (λ cc, 0 ≤ cc2 cc) cs →
  for_each populate
    (set_values (fill 0%Q (values Lambda0)) Lambda0,
     set_values (fill 0%Q (values Lambda1)) Lambda1) cs = Ok L →
  (∀ x, entry (values L.2) e r c = Some x → x = written Lambda1 2 cs e c) ∧
  (∀ x, entry (values L.1) e r c = Some x → x = written Lambda0 1 cs e c).
Proof.
  intros Hnn HL.
  destruct (for_each_populate_written Lambda1 Lambda0 e r c cs Hnn _ _ HL) as [H1 H0].
  { intros i j. apply get_ij_set_values, length_fill. }
  { intros i j. apply get_ij_set_values, length_fill. }
  split; intros x Hx.
  - destruct (H1 x Hx) as (x0 & Hx0 & ->). simpl in Hx0.
    apply (all_entries_entry (λ y, y = 0%Q)) in Hx0 as ->; [done|].
    by apply all_entries_fill.
  - destruct (H0 x Hx) as (x0 & Hx0 & ->). simpl in Hx0.
    apply (all_entries_entry (λ y, y = 0%Q)) in Hx0 as ->; [done|].
    by apply all_entries_fill.
Qed.

Lemma written_from_app t off e c x0 cs1 cs2 :
  written_from t off e c x0 (cs1 ++ cs2)
  = written_from t off e c (written_from t off e c x0 cs1) cs2.
Proof. unfold written_from. by rewrite foldl_app. Qed.

Lemma written_from_override t off e c x0 cs2 cc cc' cs3 :
  (files_at t off e c cc → files_at t off e c cc') →
  written_from t off e c x0 (cc :: cs2 ++ cc' :: cs3)
  = written_from t off e c x0 (cs2 ++ cc' :: cs3).
Proof.
  intros Hsame. change (cc :: cs2 ++ cc' :: cs3) with ([cc] ++ cs2 ++ cc' :: cs3).
  rewrite !written_from_app. unfold written_from at 3 5. simpl.
  destruct (decide (files_at t off e c cc)) as [Hf|Hf]; [|done].
  unfold written_from at 1 2. simpl. by rewrite !decide_True by auto.
Qed.

(** Two arrays of one square shape with the same entries are equal. *)
Lemma square_values_eq n v v' :
  square_values n v → square_values n v' → length v = length v' →
  (∀ e r c y y', entry v e r c = Some y → entry v' e r c = Some y' → y = y') →
  v = v'.
Proof.
  intros Hsq Hsq' Hlen Hent.
  apply (list_eq_same_length _ _ (length v)); [done..|].
  intros e m m' _ Hm Hm'.
  unfold square_values in Hsq, Hsq'. rewrite Forall_lookup in Hsq, Hsq'.
  destruct (Hsq _ _ Hm) as [Hl Hrows]. destruct (Hsq' _ _ Hm') as [Hl' Hrows'].
  apply (list_eq_same_length _ _ n); [done..|].
  intros r row row' _ Hrow Hrow'.
  rewrite Forall_lookup in Hrows, Hrows'.
  apply (list_eq_same_length _ _ n); [by eapply Hrows'|by eapply Hrows|].
  intros c y y' _ Hy Hy'. apply (Hent e r c); apply entry_Some; eauto.
Qed.

(** X9. Last write wins.  In [compute_Lambdas] a contact is overridden by a
    later contact with the same sender, receiver and time: when the builder
    returns on a contact list in which [cc] is followed, anywhere later, by
    a contact [cc'] with the same (i, j, t), the final values are those it
    returns on the list without [cc]. *)
Theorem last_write_wins n Lambda0 Lambda1 cs1 cs2 cs3 cc cc' R0 R1 S0 S1 :
  lambda_pair n Lambda0 Lambda1 →
  Forall (λ cc, 0 ≤ cc2 cc) (cs1 ++ cc :: cs2 ++ cc' :: cs3) →
  cc0 cc = cc0 cc' → cc1 cc = cc1 cc' → cc2 cc = cc2 cc' →
  compute_Lambdas Lambda0 Lambda1 (cs1 ++ cc :: cs2 ++ cc' :: cs3) = Ok (R0, R1) →
  compute_Lambdas Lambda0 Lambda1 (cs1 ++ cs2 ++ cc' :: cs3) = Ok (S0, S1) →
  values R0 = values S0 ∧ values R1 = values S1.
Proof.
  intros Hpair Hnn Hi Hj Ht HR HS.
  apply compute_Lambdas_Ok in HR as (L & HL & -> & ->).
  apply compute_Lambdas_Ok in HS as (L' & HL' & -> & ->).
  destruct (populated_pair n _ _ _ _ Hpair HL) as [[_ Sq0 Sq1] Hlen0].
  destruct (populated_pair n _ _ _ _ Hpair HL') as [[_ Sq0' Sq1'] Hlen0'].
  pose proof (for_each_populate_length (length (values Lambda1)) _ _ _ HL) as Hl1.
  pose proof (for_each_populate_length (length (values Lambda1)) _ _ _ HL') as Hl1'.
  simpl in Hl1, Hl1'. rewrite !length_fill in Hl1, Hl1'.
  destruct Hpair as [Hedges _ _].
  destruct (Hl1 Hedges eq_refl) as [_ E1]. destruct (Hl1' Hedges eq_refl) as [_ E1'].
  assert (Forall (λ cc, 0 ≤ cc2 cc) (cs1 ++ cs2 ++ cc' :: cs3)) as Hnn'.
  { apply Forall_app in Hnn as [H1 H2]. apply Forall_cons in H2 as [_ H2].
    by apply Forall_app. }
  assert (∀ t off e c, written t off (cs1 ++ cc :: cs2 ++ cc' :: cs3) e c
                     = written t off (cs1 ++ cs2 ++ cc' :: cs3) e c) as Hw.
  { intros t off e c. unfold written.
    rewrite (written_from_app t off e c 0%Q cs1 (cc :: cs2 ++ cc' :: cs3)),
      (written_from_app t off e c 0%Q cs1 (cs2 ++ cc' :: cs3)).
    apply written_from_override. unfold files_at. by rewrite Hi, Hj, Ht. }
  assert (values L.1 = values L'.1) as ->.
  { apply (square_values_eq n); [done|done|congruence|].
    intros e r c y y' Hy Hy'.
    apply (populated_written _ _ _ _ e r c Hnn HL) in Hy.
    apply (populated_written _ _ _ _ e r c Hnn' HL') in Hy'. congruence. }
  assert (values L.2 = values L'.2) as ->.
  { apply (square_values_eq n); [done|done|congruence|].
    intros e r c y y' Hy Hy'.
    apply (populated_written _ _ _ _ e r c Hnn HL) in Hy.
    apply (populated_written _ _ _ _ e r c Hnn' HL') in Hy'. congruence. }
  done.
Qed.

Lemma last_write_wins_witness :
  ∃ R0 R1 S0 S1,
    compute_Lambdas scenario_tensor scenario_tensor
      [(0, 1, 0, (1 # 2)%Q); (1, 0, 0, (1 # 3)%Q); (0, 1, 0, (1 # 4)%Q)] = Ok (R0, R1) ∧
    compute_Lambdas scenario_tensor scenario_tensor
      [(1, 0, 0, (1 # 3)%Q); (0, 1, 0, (1 # 4)%Q)] = Ok (S0, S1) ∧
    entry (values R1) 1 0 2 = Some (3 # 4)%Q ∧
    values R0 = values S0 ∧ values R1 = values S1.
Proof.
  eexists _, _, _, _. split; [vm_compute; reflexivity|].
  split; [vm_compute; reflexivity|]. split; [vm_compute; reflexivity|].
  refine (last_write_wins 3 scenario_tensor scenario_tensor []
            [(1, 0, 0, (1 # 3)%Q)] [] (0, 1, 0, (1 # 2)%Q) (0, 1, 0, (1 # 4)%Q)
            _ _ _ _ scenario_pair _ _ _ _ _ _).
  - simpl. forall_concrete.
  - reflexivity.
  - reflexivity.
  - reflexivity.
  - vm_compute; reflexivity.
  - vm_compute; reflexivity.
Defined.

(** ** The final values in closed form *)

Lemma assign_at_not_elem_of idx x m (r c : nat) :
  (r, c) ∉ idx →
  assign_at idx x m !! r ≫= (.!! c) = m !! r ≫= (.!! c).
Proof.
  induction idx as [|p idx IH] using rev_ind; intros Hin; [done|].
  apply not_elem_of_app in Hin as [Hin Hp]. rewrite assign_at_snoc, <- (IH Hin).
  apply not_elem_of_cons in Hp as [Hp _].
  destruct (decide (p.1 = r)) as [Hp1|Hp1].
  - rewrite <- Hp1, list_lookup_alter_eq.
    destruct (assign_at idx x m !! p.1) as [row1|] eqn:E; [|done]. simpl.
    apply list_lookup_insert_ne. destruct p. simpl in *. congruence.
  - by rewrite list_lookup_alter_ne.
Qed.

(** Right of the shifted diagonal the triangular assignment changes
    nothing. *)
Lemma entry_tril_zero_outside n k v e (r c : nat) :
  r + k < c → entry (tril_zero n k v) e r c = entry v e r c.
Proof.
  intros Hk. unfold entry, tril_zero. rewrite list_lookup_fmap.
  destruct (v !! e) as [m|]; [|done]. simpl.
  apply assign_at_not_elem_of. rewrite elem_of_tril_indices. lia.
Qed.

Lemma cumprod_from_prod acc l (c : nat) y :
  cumprod_from acc l !! c = Some y → (y == acc * prodQ (take (S c) l))%Q.
Proof.
  revert acc c. induction l as [|x l IH]; intros acc c; simpl; [done|].
  destruct c as [|c]; simpl.
  - intros [= <-]. destruct l; simpl; ring.
  - intros H. apply IH in H. rewrite H. simpl. ring.
Qed.

Lemma cumprod_row_prod l (c : nat) y :
  cumprod_row l !! c = Some y → (y == prodQ (take (S c) l))%Q.
Proof.
  destruct l as [|x l]; simpl; [done|]. destruct c as [|c]; simpl.
  - intros [= <-]. destruct l; simpl; ring.
  - intros H. by apply cumprod_from_prod in H.
Qed.

Lemma prodQ_Qeq l l' : Forall2 Qeq l l' → (prodQ l == prodQ l')%Q.
Proof.
  induction 1 as [|x y l l' Hxy _ IH]; simpl; [reflexivity|]. by rewrite Hxy, IH.
Qed.

(** The last two stages in closed form: the final value in column [c] is
    the product of [1 - a c'] over the columns [c' <= c], where [a c'] is
    the rate in column [c'] before them. *)
Lemma final_survival pre e r (a : nat → Q) :
  (∀ (c' : nat) x, entry pre e r c' = Some x → (x == a c')%Q) →
  ∀ (c : nat) y, entry (cumprod (one_minus pre)) e r c = Some y →
                 (y == survival a c)%Q.
Proof.
  intros Ha c y Hy. apply entry_cumprod in Hy as (row & Hrow & Hy).
  pose proof (lookup_lt_Some _ _ _ Hy) as Hlt. rewrite length_cumprod_row in Hlt.
  rewrite (cumprod_row_prod _ _ _ Hy). unfold survival. apply prodQ_Qeq.
  apply Forall2_same_length_lookup_2.
  { rewrite length_take, length_fmap, length_seq. lia. }
  intros c' x z Hx Hz. apply lookup_take_Some in Hx as [Hx Hc'].
  rewrite list_lookup_fmap, lookup_seq_lt in Hz by lia. injection Hz as <-.
  apply Hrow, entry_one_minus in Hx as (x0 & Hx0 & ->).
  by rewrite (Ha _ _ Hx0).
Qed.

(** The rate of Lambda1 (shift 2, zero up to column r + 1) and of Lambda0
    (shift 1, zero up to column r) in column [c'] of row [r] of slot [e]. *)
Lemma tril_written n L0 L1 (k : Z) t off cs v e (r c : nat) x :
  lambda_pair n L0 L1 → v = values L0 ∨ v = values L1 →
  (∀ (c' : nat) y, entry v e r c' = Some y → y = written t off cs e c') →
  entry (tril_zero (shape1 (values L1)) k v) e r c = Some x →
  x = if decide ((c : Z) ≤ r + k) then 0%Q else written t off cs e c.
Proof.
  intros Hpair Hv Hw Hx. case_decide as Hk.
  - by eapply (entry_tril_zero_pair n L0 L1 k).
  - rewrite entry_tril_zero_outside in Hx by lia. by apply Hw.
Qed.

(** The final values as products, in the exact arithmetic of the embedding.
    The statements below use it to compare values that the builders compute
    by the same operations on the same operands. *)
Lemma compute_Lambdas_closed_form n Lambda0 Lambda1 cs R0 R1 e (r c : nat) y :
  lambda_pair n Lambda0 Lambda1 → Forall (λ cc, 0 ≤ cc2 cc) cs →
  compute_Lambdas Lambda0 Lambda1 cs = Ok (R0, R1) →
  (entry (values R1) e r c = Some y →
     (y == survival (λ c' : nat, if decide ((c' : Z) ≤ r + 1) then 0
                                 else written Lambda1 2 cs e c') c)%Q) ∧
  (entry (values R0) e r c = Some y →
     (y == survival (λ c' : nat, if decide ((c' : Z) ≤ r + 0) then 0
                                 else written Lambda0 1 cs e c') c)%Q).
Proof.
  intros Hpair Hnn HR. apply compute_Lambdas_Ok in HR as (L & HL & -> & ->).
  destruct (populated_pair n _ _ _ _ Hpair HL) as [HpairL _].
  split; intros Hy; (eapply final_survival; [|exact Hy]); intros c' x Hx.
  - rewrite (tril_written n L.1 L.2 1 Lambda1 2 cs _ e r c' x HpairL
               (or_intror eq_refl)); [reflexivity| |done].
    intros c'' z. apply (populated_written _ _ _ _ e r c'' Hnn HL).
  - rewrite (tril_written n L.1 L.2 0 Lambda0 1 cs _ e r c' x HpairL
               (or_introl eq_refl)); [reflexivity| |done].
    intros c'' z. apply (populated_written _ _ _ _ e r c'' Hnn HL).
Qed.

Lemma survival_ext a b (c : nat) :
  (∀ c' : nat, (c' ≤ c)%nat → (a c' == b c')%Q) → (survival a c == survival b c)%Q.
Proof.
  intros H. unfold survival. apply prodQ_Qeq, Forall2_fmap, Forall_Forall2_diag.
  apply Forall_forall. intros c' Hc'. apply elem_of_seq in Hc'. simpl.
  rewrite H by lia. reflexivity.
Qed.

Lemma survival_one a (c : nat) :
  (∀ c' : nat, (c' ≤ c)%nat → (a c' == 0)%Q) → (survival a c == 1)%Q.
Proof.
  intros H. rewrite (survival_ext a (λ _, 0%Q) c H). unfold survival.
  generalize (seq 0 (S c)). intros l. induction l as [|c' l IH]; simpl.
  - reflexivity.
  - rewrite IH. ring.
Qed.

(** X10. What an entry of the result of [compute_Lambdas] depends on.  On a
    pair with the same number of edges and n × n matrices and contacts at
    times >= 0, the final value of Lambda1 in row r and column c of the
    slot e is 1 when no rate other than 0 is filed in the columns
    r + 1 < c' <= c of that slot, and it is the same for two contact lists
    that file the same rates in these columns of the slot: contacts of
    other edges, at later times (c' > c) or at times up to the row
    (c' <= r + 1) do not change it.  For Lambda0 the columns are
    r < c' <= c.  (A contact at time t is filed in column t + 2 of Lambda1
    and t + 1 of Lambda0; the rate filed is that of the last such
    contact.) *)
Theorem compute_Lambdas_filed_rates n Lambda0 Lambda1 contacts R0 R1 :
  lambda_pair n Lambda0 Lambda1 → Forall (λ cc, 0 ≤ cc2 cc) contacts →
  compute_Lambdas Lambda0 Lambda1 contacts = Ok (R0, R1) →
  ∀ (e r c : nat) y,
    (entry (values R1) e r c = Some y →
       ((∀ c' : nat, (r + 1 < c' ≤ c)%nat →
           (written Lambda1 2 contacts e c' == 0)%Q) → (y == 1)%Q) ∧
       (∀ contacts' S0 S1 y',
          Forall (λ cc, 0 ≤ cc2 cc) contacts' →
          compute_Lambdas Lambda0 Lambda1 contacts' = Ok (S0, S1) →
          (∀ c' : nat, (r + 1 < c' ≤ c)%nat →
             (written Lambda1 2 contacts e c'
              == written Lambda1 2 contacts' e c')%Q) →
          entry (values S1) e r c = Some y' → (y == y')%Q)) ∧
    (entry (values R0) e r c = Some y →
       ((∀ c' : nat, (r < c' ≤ c)%nat →
           (written Lambda0 1 contacts e c' == 0)%Q) → (y == 1)%Q) ∧
       (∀ contacts' S0 S1 y',
          Forall (λ cc, 0 ≤ cc2 cc) contacts' →
          compute_Lambdas Lambda0 Lambda1 contacts' = Ok (S0, S1) →
          (∀ c' : nat, (r < c' ≤ c)%nat →
             (written Lambda0 1 contacts e c'
              == written Lambda0 1 contacts' e c')%Q) →
          entry (values S0) e r c = Some y' → (y == y')%Q)).
Proof.
  intros Hpair Hnn HR e r c y. split; intros Hy.
  - apply (compute_Lambdas_closed_form n _ _ _ _ _ e r c y Hpair Hnn HR) in Hy.
    split.
    + intros Hz. rewrite Hy. apply survival_one. intros c' Hc'.
      case_decide; [reflexivity|]. apply Hz. lia.
    + intros cs' S0 S1 y' Hnn' HS Hw Hy'.
      apply (compute_Lambdas_closed_form n _ _ _ _ _ e r c y' Hpair Hnn' HS) in Hy'.
      rewrite Hy, Hy'. apply survival_ext. intros c' Hc'.
      case_decide; [reflexivity|]. apply Hw. lia.
  - apply (compute_Lambdas_closed_form n _ _ _ _ _ e r c y Hpair Hnn HR) in Hy.
    split.
    + intros Hz. rewrite Hy. apply survival_one. intros c' Hc'.
      case_decide; [reflexivity|]. apply Hz. lia.
    + intros cs' S0 S1 y' Hnn' HS Hw Hy'.
      apply (compute_Lambdas_closed_form n _ _ _ _ _ e r c y' Hpair Hnn' HS) in Hy'.
      rewrite Hy, Hy'. apply survival_ext. intros c' Hc'.
      case_decide; [reflexivity|]. apply Hw. lia.
Qed.

Lemma init_two_steps : init 2 2 two_steps_contacts = Ok two_steps_tensor.
Proof. vm_compute. reflexivity. Qed.

Lemma two_steps_pair : lambda_pair 4 two_steps_tensor two_steps_tensor.
Proof. split; [done|square_concrete..]. Qed.

Lemma two_steps_times : Forall (λ cc, 0 ≤ cc2 cc) two_steps_contacts.
Proof. unfold two_steps_contacts. forall_concrete. Qed.

Lemma compute_Lambdas_filed_rates_witness :
  ∃ R0 R1 S0 S1 y y',
    compute_Lambdas two_steps_tensor two_steps_tensor two_steps_contacts
      = Ok (R0, R1) ∧
    compute_Lambdas two_steps_tensor two_steps_tensor [(0, 1, 0, (1 # 2)%Q)]
      = Ok (S0, S1) ∧
    entry (values R1) 1 0 2 = Some y ∧ entry (values S1) 1 0 2 = Some y' ∧
    (y == y')%Q.
Proof.
  eexists _, _, _, _, _, _. split; [vm_compute; reflexivity|].
  split; [vm_compute; reflexivity|]. split; [vm_compute; reflexivity|].
  split; [vm_compute; reflexivity|].
  refine (proj2 (proj1 (compute_Lambdas_filed_rates 4 two_steps_tensor
                          two_steps_tensor two_steps_contacts _ _
                          two_steps_pair two_steps_times _ 1%nat 0%nat 2%nat _) _)
            [(0, 1, 0, (1 # 2)%Q)] _ _ _ _ _ _ _).
  - vm_compute; reflexivity.
  - vm_compute; reflexivity.
  - forall_concrete.
  - vm_compute; reflexivity.
  - intros c' Hc'. assert (c' = 2%nat) as -> by lia. vm_compute. reflexivity.
  - vm_compute; reflexivity.
Defined.

(** ** Lambda1 against Lambda0 *)

Lemma get_ij_same_topology t t' i j :
  same_topology t t' → length (values t) = length (values t') →
  get_ij t i j = get_ij t' i j.
Proof.
  intros (Hidx & Hadj & _) Hlen. unfold get_ij, get_idx_ij.
  by rewrite Hidx, Hadj, Hlen.
Qed.

Lemma written_shift t0 t1 cs e (c : nat) :
  (∀ i j, get_ij t0 i j = get_ij t1 i j) →
  written t1 2 cs e (S c) = written t0 1 cs e c.
Proof.
  intros Hget. unfold written, written_from. generalize 0%Q.
  induction cs as [|cc cs IH]; intros x0; simpl; [done|].
  rewrite IH. f_equal. apply decide_ext. unfold files_at. rewrite Hget.
  split; intros [? ?]; (split; [done|lia]).
Qed.

Lemma survival_shift a (c : nat) :
  (survival a (S c) == (1 - a 0%nat) * survival (λ c', a (S c')) c)%Q.
Proof.
  unfold survival. change (seq 0 (S (S c))) with (0%nat :: seq 1 (S c)).
  rewrite fmap_cons, <- fmap_S_seq, <- list_fmap_compose. simpl. reflexivity.
Qed.

(** X11. After [compute_Lambdas] on a pair over one topology, with contacts
    at times >= 0, Lambda1 is Lambda0 moved one column to the right: the
    value of Lambda1 in row r and column c + 1 of a slot equals the value of
    Lambda0 in row r and column c of the same slot. *)
Theorem Lambda1_shifts_Lambda0 n Lambda0 Lambda1 contacts R0 R1 :
  lambda_pair n Lambda0 Lambda1 → same_topology Lambda0 Lambda1 →
  Forall (λ cc, 0 ≤ cc2 cc) contacts →
  compute_Lambdas Lambda0 Lambda1 contacts = Ok (R0, R1) →
  ∀ (e r c : nat) y1 y0,
    entry (values R1) e r (S c) = Some y1 → entry (values R0) e r c = Some y0 →
    (y1 == y0)%Q.
Proof.
  intros Hpair Htop Hnn HR e r c y1 y0 H1 H0.
  apply (compute_Lambdas_closed_form n _ _ _ _ _ e r (S c) y1 Hpair Hnn HR) in H1.
  apply (compute_Lambdas_closed_form n _ _ _ _ _ e r c y0 Hpair Hnn HR) in H0.
  rewrite H1, H0, survival_shift. rewrite decide_True by lia.
  assert (1 - 0 == 1)%Q as -> by ring. rewrite Qmult_1_l.
  apply survival_ext. intros c' _.
  destruct (decide ((S c' : Z) ≤ r + 1)) as [Hc|Hc].
  - rewrite decide_True by lia. reflexivity.
  - rewrite decide_False by lia.
    rewrite (written_shift Lambda0 Lambda1); [reflexivity|].
    intros i j. apply get_ij_same_topology; [done|]. apply (pair_edges _ _ _ Hpair).
Qed.

Lemma Lambda1_shifts_Lambda0_witness :
  ∃ R0 R1,
    compute_Lambdas two_steps_tensor two_steps_tensor two_steps_contacts
      = Ok (R0, R1) ∧
    entry (values R1) 1 0 3 = Some (2 # 6)%Q ∧
    entry (values R0) 1 0 2 = Some (2 # 6)%Q ∧
    (2 # 6 == 2 # 6)%Q.
Proof.
  eexists _, _. split; [vm_compute; reflexivity|].
  split; [vm_compute; reflexivity|]. split; [vm_compute; reflexivity|].
  refine (Lambda1_shifts_Lambda0 4 two_steps_tensor two_steps_tensor
            two_steps_contacts _ _ two_steps_pair _ two_steps_times _
            1%nat 0%nat 2%nat _ _ _ _).
  - by repeat split.
  - vm_compute; reflexivity.
  - vm_compute; reflexivity.
  - vm_compute; reflexivity.
Defined.

(** ** Running a builder again *)

Lemma for_each_populate_set_values cs L L' :
  for_each populate L cs = Ok L' →
  L'.1 = set_values (values L'.1) L.1 ∧ L'.2 = set_values (values L'.2) L.2.
Proof.
  revert L. induction cs as [|cc cs IH]; intros L HL; simpl in HL.
  - injection HL as <-. by destruct L as [[] []].
  - inv_bind HL. apply IH in HL as [-> ->].
    apply populate_steps in E as (w1 & w0 & c1 & c0 & _ & _ & -> & _ & _ & ->).
    done.
Qed.

Lemma fmap_const_replicate {A B} (x : B) (l : list A) :
  (λ _, x) <$> l = replicate (length l) x.
Proof. induction l as [|a l IH]; [done|]. simpl. by rewrite <- IH. Qed.

Lemma fill_rows n (x : Q) (m : matrix) :
  Forall (λ r : list Q, length r = n) m →
  fmap (M := list) (fmap (M := list) (λ _ : Q, x)) m
  = replicate (length m) (replicate n x).
Proof.
  induction 1 as [|row m Hrow _ IH]; [done|].
  rewrite fmap_cons, IH, fmap_const_replicate, Hrow. done.
Qed.

Lemma fill_square n x v :
  square_values n v → fill x v = replicate (length v) (replicate n (replicate n x)).
Proof.
  unfold square_values, fill. induction 1 as [|m v [Hlen Hrows] _ IH]; [done|].
  rewrite fmap_cons, IH, (fill_rows n x m Hrows), Hlen. done.
Qed.

Lemma same_topology_set_values v t : same_topology t (set_values v t).
Proof. by repeat split. Qed.

(** X12. Running a builder again changes nothing.  When a builder has
    returned the pair (R0, R1), running it on (R0, R1) with the same
    contacts (and the same mask) returns (R0, R1): the values found in the
    tensors are reset before anything is written.  The topology of the
    tensors is left as it was. *)
Theorem builders_idempotent n Lambda0 Lambda1 contacts R0 R1 :
  lambda_pair n Lambda0 Lambda1 →
  (compute_Lambdas Lambda0 Lambda1 contacts = Ok (R0, R1) →
     compute_Lambdas R0 R1 contacts = Ok (R0, R1) ∧
     same_topology Lambda0 R0 ∧ same_topology Lambda1 R1) ∧
  (∀ mask, compute_Lambdas_dSIR Lambda0 Lambda1 contacts mask = Ok (R0, R1) →
     compute_Lambdas_dSIR R0 R1 contacts mask = Ok (R0, R1) ∧
     same_topology Lambda0 R0 ∧ same_topology Lambda1 R1).
Proof.
  intros Hpair.
  assert (∀ L, for_each populate
                 (set_values (fill 0%Q (values Lambda0)) Lambda0,
                  set_values (fill 0%Q (values Lambda1)) Lambda1) contacts = Ok L →
               ∀ v0 v1, R0 = set_values v0 L.1 → R1 = set_values v1 L.2 →
               lambda_pair n R0 R1 → length (values R0) = length (values Lambda0) →
               R0 = set_values v0 Lambda0 ∧ R1 = set_values v1 Lambda1 ∧
               set_values (fill 0%Q (values R0)) R0
                 = set_values (fill 0%Q (values Lambda0)) Lambda0 ∧
               set_values (fill 0%Q (values R1)) R1
                 = set_values (fill 0%Q (values Lambda1)) Lambda1) as Hstart.
  { intros L HL v0 v1 E0 E1 [HlenR SR0 SR1] HlenR0.
    destruct (for_each_populate_set_values _ _ _ HL) as [EL0 EL1].
    rewrite EL0 in E0. rewrite EL1 in E1. simpl in E0, E1.
    destruct Hpair as [Hlen S0 S1].
    assert (fill 0%Q (values R0) = fill 0%Q (values Lambda0)) as F0.
    { rewrite (fill_square n _ _ SR0), (fill_square n _ _ S0). by rewrite HlenR0. }
    assert (fill 0%Q (values R1) = fill 0%Q (values Lambda1)) as F1.
    { rewrite (fill_square n _ _ SR1), (fill_square n _ _ S1). congruence. }
    split_and!; [done|done| |].
    - rewrite F0, E0. done.
    - rewrite F1, E1. done. }
  split.
  - intros HR.
    pose proof (builders_shape n _ _ _ _ _ Hpair (or_introl HR)) as [HpairR HlenR].
    pose proof HR as HR'. unfold compute_Lambdas in HR'. inv_bind HR'.
    injection HR' as E0 E1.
    destruct (Hstart x E _ _ (eq_sym E0) (eq_sym E1) HpairR HlenR)
      as (T0 & T1 & Z0 & Z1).
    split_and!.
    + unfold compute_Lambdas. cbv zeta. rewrite Z0, Z1. exact HR.
    + rewrite T0. apply same_topology_set_values.
    + rewrite T1. apply same_topology_set_values.
  - intros mask HR.
    pose proof (builders_shape n _ _ _ _ _ Hpair
                  (or_intror (ex_intro _ mask HR))) as [HpairR HlenR].
    pose proof HR as HR'. unfold compute_Lambdas_dSIR in HR'.
    inv_bind HR'. inv_bind HR'. inv_bind HR'. injection HR' as E0' E1'.
    destruct (Hstart x1 E1 _ _ (eq_sym E0') (eq_sym E1') HpairR HlenR)
      as (T0 & T1 & Z0 & Z1).
    assert (∀ L : SparseTensor, square_values n (values L) →
              ∀ m0 r0, getitem (values L) 0 = Ok m0 → getitem m0 0 = Ok r0 →
                       length r0 = n) as Hcols.
    { intros L Hsq m0 r0 Hm0 Hr0. unfold square_values in Hsq.
      apply getitem_Ok in Hm0 as (? & _ & Hm0). apply getitem_Ok in Hr0 as (? & _ & Hr0).
      rewrite Forall_lookup in Hsq. destruct (Hsq _ _ Hm0) as [_ Hrows].
      rewrite Forall_lookup in Hrows. eauto. }
    pose proof (Hcols Lambda0 (pair_square0 _ _ _ Hpair) _ _ E E0) as Hn.
    assert (∃ m0' r0', getitem (values R0) 0 = Ok m0' ∧ getitem m0' 0 = Ok r0' ∧
                       length r0' = n) as (m0' & r0' & Hm0' & Hr0' & Hn').
    { destruct (getitem_in_range (values R0) 0) as [m0' Hm0'].
      { rewrite HlenR. apply getitem_Ok in E as (p & Hp & _).
        apply py_index_Ok in Hp. lia. }
      destruct (getitem_in_range m0' 0) as [r0' Hr0'].
      { pose proof (pair_square0 _ _ _ HpairR) as Hsq. unfold square_values in Hsq.
        pose proof Hm0' as Hm. apply getitem_Ok in Hm as (? & _ & Hm).
        rewrite Forall_lookup in Hsq. destruct (Hsq _ _ Hm) as [-> _].
        apply getitem_Ok in E0 as (p & Hp & _). apply py_index_Ok in Hp.
        apply getitem_Ok in E as (? & _ & Hm0).
        pose proof (pair_square0 _ _ _ Hpair) as Hsq0. unfold square_values in Hsq0.
        rewrite Forall_lookup in Hsq0. destruct (Hsq0 _ _ Hm0) as [Hl _]. lia. }
      exists m0', r0'. split_and!; [done..|].
      by apply (Hcols R0 (pair_square0 _ _ _ HpairR) m0' r0'). }
    split_and!.
    + unfold compute_Lambdas_dSIR. rewrite Hm0'. simpl. rewrite Hr0'. simpl.
      cbv zeta. rewrite Z0, Z1, Hn'. rewrite <- Hn.
      unfold compute_Lambdas_dSIR in HR. rewrite E in HR. simpl in HR.
      rewrite E0 in HR. exact HR.
    + rewrite T0. apply same_topology_set_values.
    + rewrite T1. apply same_topology_set_values.
Qed.

Lemma builders_idempotent_witness :
  ∃ R0 R1,
    compute_Lambdas_dSIR two_steps_tensor two_steps_tensor two_steps_contacts
      [(1 # 2)%Q] = Ok (R0, R1) ∧
    compute_Lambdas_dSIR R0 R1 two_steps_contacts [(1 # 2)%Q] = Ok (R0, R1).
Proof.
  eexists _, _. split; [vm_compute; reflexivity|].
  refine (proj1 (proj2 (builders_idempotent 4 two_steps_tensor two_steps_tensor
                          two_steps_contacts _ _ two_steps_pair) [(1 # 2)%Q] _)).
  vm_compute; reflexivity.
Defined.

(** ** The masked builder in closed form *)

Lemma lookup_mask_row_at ones mask (Tp2 c : nat) y :
  0 ≤ ones → mask_row ones mask Tp2 !! c = Some y → y = mask_at ones mask c.
Proof.
  intros H0 Hy. unfold mask_at.
  destruct (lookup_mask_row _ _ _ _ _ H0 Hy) as [[Hc ->]|[[Hc Hm]|[Hc ->]]].
  - by rewrite decide_True.
  - rewrite decide_False by lia. by rewrite Hm.
  - rewrite decide_False by lia.
    rewrite (lookup_ge_None_2 mask); [done|]. lia.
Qed.

Lemma masked_rate (k : Z) (n : nat) mask M v w e (r c : nat) z :
  0 ≤ k + 1 →
  (∀ r' : nat, (r' < n)%nat → M !! r' = Some (mask_row (r' + k + 1) mask n)) →
  length M = n →
  (∀ (c' : nat) x, entry v e r c' = Some x →
     x = if decide ((c' : Z) ≤ r + k) then 0%Q else w c') →
  entry (mul_mask v M) e r c = Some z →
  (z == if decide ((c : Z) ≤ r + k) then 0
        else w c * default 0 (mask !! (c - Z.to_nat (r + k + 1))%nat))%Q.
Proof.
  intros Hk HM Hlen Hv Hz.
  apply entry_mul_mask in Hz as (x & y & row & Hx & Hrow & Hy & ->).
  rewrite (Hv _ _ Hx). case_decide as Hc; [ring|].
  pose proof (lookup_lt_Some _ _ _ Hrow) as Hr. rewrite Hlen in Hr.
  rewrite (HM r Hr) in Hrow. injection Hrow as <-.
  assert (0 ≤ r + k + 1) as Hones by (clear -Hk; lia).
  rewrite (lookup_mask_row_at _ _ _ _ _ Hones Hy). unfold mask_at.
  rewrite decide_False by lia. reflexivity.
Qed.

(** The final values of the masked builder as products, in the exact
    arithmetic of the embedding. *)
Lemma compute_Lambdas_dSIR_closed_form n Lambda0 Lambda1 contacts mask R0 R1 :
  lambda_pair n Lambda0 Lambda1 → Forall (λ cc, 0 ≤ cc2 cc) contacts →
  compute_Lambdas_dSIR Lambda0 Lambda1 contacts mask = Ok (R0, R1) →
  ∀ (e r c : nat) y,
    (entry (values R1) e r c = Some y →
       (y == survival
               (λ c' : nat, if decide ((c' : Z) ≤ r + 1) then 0
                  else written Lambda1 2 contacts e c' *
                       default 0 (mask !! (c' - (r + 2))%nat)) c)%Q) ∧
    (entry (values R0) e r c = Some y →
       (y == survival
               (λ c' : nat, if decide ((c' : Z) ≤ r + 0) then 0
                  else written Lambda0 1 contacts e c' *
                       default 0 (mask !! (c' - (r + 1))%nat)) c)%Q).
Proof.
  intros Hpair Hnn HR e r c y.
  apply compute_Lambdas_dSIR_Ok in HR as (L & m0 & r0 & Hm0 & Hr0 & HL & -> & ->).
  destruct (populated_pair n _ _ _ _ Hpair HL) as [HpairL _].
  assert (length r0 = n) as Hn.
  { destruct Hpair as [_ Hsq _]. unfold square_values in Hsq.
    apply getitem_Ok in Hm0 as (? & _ & Hm0). apply getitem_Ok in Hr0 as (? & _ & Hr0).
    rewrite Forall_lookup in Hsq. destruct (Hsq _ _ Hm0) as [_ Hrows].
    rewrite Forall_lookup in Hrows. eauto. }
  rewrite Hn.
  split; intros Hy; (eapply final_survival; [|exact Hy]); intros c' x Hx.
  - rewrite (masked_rate 1 n mask (Mask1 mask n)
               (tril_zero (shape1 (values L.2)) 1 (values L.2))
               (λ c'', written Lambda1 2 contacts e c'')
               e r c' x); [| | |apply length_Mask1| |exact Hx].
    + case_decide; [reflexivity|].
      replace (Z.to_nat (r + 1 + 1)) with (r + 2)%nat by lia. reflexivity.
    + lia.
    + intros r' Hr'. rewrite lookup_Mask1 by done. do 2 f_equal. lia.
    + intros c'' z Hz.
      apply (tril_written n L.1 L.2 1 Lambda1 2 contacts _ e r c'' z HpairL
               (or_intror eq_refl)); [|done].
      intros c3 z3. apply (populated_written _ _ _ _ e r c3 Hnn HL).
  - rewrite (masked_rate 0 n mask (Mask0 mask n)
               (tril_zero (shape1 (values L.2)) 0 (values L.1))
               (λ c'', written Lambda0 1 contacts e c'')
               e r c' x); [| | |apply length_Mask0| |exact Hx].
    + case_decide; [reflexivity|].
      replace (Z.to_nat (r + 0 + 1)) with (r + 1)%nat by lia. reflexivity.
    + lia.
    + intros r' Hr'. rewrite lookup_Mask0 by done. do 2 f_equal. lia.
    + intros c'' z Hz.
      apply (tril_written n L.1 L.2 0 Lambda0 1 contacts _ e r c'' z HpairL
               (or_introl eq_refl)); [|done].
      intros c3 z3. apply (populated_written _ _ _ _ e r c3 Hnn HL).
Qed.

(** X13. What an entry of the result of [compute_Lambdas_dSIR] depends on.
    On a pair with the same number of edges and n × n matrices and contacts
    at times >= 0, the final value of Lambda1 in row r and column c of the
    slot e is 1 when, in each column r + 1 < c' <= c of that slot, the rate
    filed is 0 or the mask coefficient number c' - (r + 2) is 0, a
    coefficient past the end of the mask being 0; and it is the same for
    two contact lists and two masks that give the same rates and the same
    coefficients in these columns.  For Lambda0 the columns are
    r < c' <= c and the coefficient is number c' - (r + 1). *)
Theorem compute_Lambdas_dSIR_filed_rates n Lambda0 Lambda1 contacts mask R0 R1 :
  lambda_pair n Lambda0 Lambda1 → Forall (λ cc, 0 ≤ cc2 cc) contacts →
  compute_Lambdas_dSIR Lambda0 Lambda1 contacts mask = Ok (R0, R1) →
  ∀ (e r c : nat) y,
    (entry (values R1) e r c = Some y →
       ((∀ c' : nat, (r + 1 < c' ≤ c)%nat →
           (written Lambda1 2 contacts e c' == 0)%Q ∨
           (default 0 (mask !! (c' - (r + 2))%nat) == 0)%Q) → (y == 1)%Q) ∧
       (∀ contacts' mask' S0 S1 y',
          Forall (λ cc, 0 ≤ cc2 cc) contacts' →
          compute_Lambdas_dSIR Lambda0 Lambda1 contacts' mask' = Ok (S0, S1) →
          (∀ c' : nat, (r + 1 < c' ≤ c)%nat →
             (written Lambda1 2 contacts e c'
              == written Lambda1 2 contacts' e c')%Q ∧
             (default 0 (mask !! (c' - (r + 2))%nat)
              == default 0 (mask' !! (c' - (r + 2))%nat))%Q) →
          entry (values S1) e r c = Some y' → (y == y')%Q)) ∧
    (entry (values R0) e r c = Some y →
       ((∀ c' : nat, (r < c' ≤ c)%nat →
           (written Lambda0 1 contacts e c' == 0)%Q ∨
           (default 0 (mask !! (c' - (r + 1))%nat) == 0)%Q) → (y == 1)%Q) ∧
       (∀ contacts' mask' S0 S1 y',
          Forall (λ cc, 0 ≤ cc2 cc) contacts' →
          compute_Lambdas_dSIR Lambda0 Lambda1 contacts' mask' = Ok (S0, S1) →
          (∀ c' : nat, (r < c' ≤ c)%nat →
             (written Lambda0 1 contacts e c'
              == written Lambda0 1 contacts' e c')%Q ∧
             (default 0 (mask !! (c' - (r + 1))%nat)
              == default 0 (mask' !! (c' - (r + 1))%nat))%Q) →
          entry (values S0) e r c = Some y' → (y == y')%Q)).
Proof.
  intros Hpair Hnn HR e r c y. split; intros Hy.
  - apply (compute_Lambdas_dSIR_closed_form n _ _ _ _ _ _ Hpair Hnn HR e r c y) in Hy.
    split.
    + intros Hz. rewrite Hy. apply survival_one. intros c' Hc'.
      case_decide; [reflexivity|].
      destruct (Hz c') as [-> | ->]; [lia|ring|ring].
    + intros cs' mask' S0 S1 y' Hnn' HS Hw Hy'.
      apply (compute_Lambdas_dSIR_closed_form n _ _ _ _ _ _ Hpair Hnn' HS e r c y')
        in Hy'.
      rewrite Hy, Hy'. apply survival_ext. intros c' Hc'.
      case_decide; [reflexivity|].
      destruct (Hw c') as [-> ->]; [lia|reflexivity].
  - apply (compute_Lambdas_dSIR_closed_form n _ _ _ _ _ _ Hpair Hnn HR e r c y) in Hy.
    split.
    + intros Hz. rewrite Hy. apply survival_one. intros c' Hc'.
      case_decide; [reflexivity|].
      destruct (Hz c') as [-> | ->]; [lia|ring|ring].
    + intros cs' mask' S0 S1 y' Hnn' HS Hw Hy'.
      apply (compute_Lambdas_dSIR_closed_form n _ _ _ _ _ _ Hpair Hnn' HS e r c y')
        in Hy'.
      rewrite Hy, Hy'. apply survival_ext. intros c' Hc'.
      case_decide; [reflexivity|].
      destruct (Hw c') as [-> ->]; [lia|reflexivity].
Qed.

Lemma compute_Lambdas_dSIR_filed_rates_witness :
  ∃ R0 R1 S0 S1 y y',
    compute_Lambdas_dSIR two_steps_tensor two_steps_tensor two_steps_contacts
      [(1 # 2)%Q] = Ok (R0, R1) ∧
    compute_Lambdas_dSIR two_steps_tensor two_steps_tensor two_steps_contacts
      [(1 # 2)%Q; (1 # 3)%Q] = Ok (S0, S1) ∧
    entry (values R1) 1 0 2 = Some y ∧ entry (values S1) 1 0 2 = Some y' ∧
    (y == y')%Q.
Proof.
  eexists _, _, _, _, _, _. split; [vm_compute; reflexivity|].
  split; [vm_compute; reflexivity|]. split; [vm_compute; reflexivity|].
  split; [vm_compute; reflexivity|].
  refine (proj2 (proj1 (compute_Lambdas_dSIR_filed_rates 4 two_steps_tensor
                          two_steps_tensor two_steps_contacts [(1 # 2)%Q] _ _
                          two_steps_pair two_steps_times _ 1%nat 0%nat 2%nat _) _)
            two_steps_contacts [(1 # 2)%Q; (1 # 3)%Q] _ _ _ two_steps_times _ _ _).
  - vm_compute; reflexivity.
  - vm_compute; reflexivity.
  - vm_compute; reflexivity.
  - intros c' Hc'. assert (c' = 2%nat) as -> by lia.
    split; vm_compute; reflexivity.
  - vm_compute; reflexivity.
Defined.

(** X18. A mask of ones is no mask, entry by entry.  On a pair with the
    same number of edges and n × n matrices and contacts at times >= 0 on
    which both builders return: the final value of Lambda1 in row r and
    column c of a slot is the same after [compute_Lambdas_dSIR] as after
    [compute_Lambdas] when the mask coefficients number c' - (r + 2) are 1
    for the columns r + 1 < c' <= c; for Lambda0 the columns are
    r < c' <= c and the coefficients are number c' - (r + 1). *)
Theorem ones_in_mask_leave_entry n Lambda0 Lambda1 contacts mask R0 R1 S0 S1 :
  lambda_pair n Lambda0 Lambda1 → Forall (λ cc, 0 ≤ cc2 cc) contacts →
  compute_Lambdas_dSIR Lambda0 Lambda1 contacts mask = Ok (R0, R1) →
  compute_Lambdas Lambda0 Lambda1 contacts = Ok (S0, S1) →
  ∀ (e r c : nat) y y',
    ((∀ c' : nat, (r + 1 < c' ≤ c)%nat →
        (default 0 (mask !! (c' - (r + 2))%nat) == 1)%Q) →
     entry (values R1) e r c = Some y → entry (values S1) e r c = Some y' →
     (y == y')%Q) ∧
    ((∀ c' : nat, (r < c' ≤ c)%nat →
        (default 0 (mask !! (c' - (r + 1))%nat) == 1)%Q) →
     entry (values R0) e r c = Some y → entry (values S0) e r c = Some y' →
     (y == y')%Q).
Proof.
  intros Hpair Hnn HR HS e r c y y'. split; intros Hm Hy Hy'.
  - apply (compute_Lambdas_dSIR_closed_form n _ _ _ _ _ _ Hpair Hnn HR e r c y) in Hy.
    apply (compute_Lambdas_closed_form n _ _ _ _ _ e r c y' Hpair Hnn HS) in Hy'.
    rewrite Hy, Hy'. apply survival_ext. intros c' Hc'.
    case_decide; [reflexivity|]. rewrite Hm by lia. ring.
  - apply (compute_Lambdas_dSIR_closed_form n _ _ _ _ _ _ Hpair Hnn HR e r c y) in Hy.
    apply (compute_Lambdas_closed_form n _ _ _ _ _ e r c y' Hpair Hnn HS) in Hy'.
    rewrite Hy, Hy'. apply survival_ext. intros c' Hc'.
    case_decide; [reflexivity|]. rewrite Hm by lia. ring.
Qed.

Lemma ones_in_mask_leave_entry_witness :
  ∃ R0 R1 S0 S1 y y',
    compute_Lambdas_dSIR two_steps_tensor two_steps_tensor two_steps_contacts
      [1%Q] = Ok (R0, R1) ∧
    compute_Lambdas two_steps_tensor two_steps_tensor two_steps_contacts
      = Ok (S0, S1) ∧
    entry (values R1) 1 0 2 = Some y ∧ entry (values S1) 1 0 2 = Some y' ∧
    (y == y')%Q.
Proof.
  eexists _, _, _, _, _, _. split; [vm_compute; reflexivity|].
  split; [vm_compute; reflexivity|]. split; [vm_compute; reflexivity|].
  split; [vm_compute; reflexivity|].
  refine (proj1 (ones_in_mask_leave_entry 4 two_steps_tensor two_steps_tensor
                   two_steps_contacts [1%Q] _ _ _ _
                   two_steps_pair two_steps_times _ _ 1%nat 0%nat 2%nat _ _) _ _ _).
  - vm_compute; reflexivity.
  - vm_compute; reflexivity.
  - intros c' Hc'. assert (c' = 2%nat) as -> by lia. vm_compute. reflexivity.
  - vm_compute; reflexivity.
  - vm_compute; reflexivity.
Defined.

(** ** Later rows *)

Lemma written_from_unit t off e c cs :
  Forall (λ cc, in_unit (cc3 cc)) cs →
  ∀ x0, in_unit x0 → in_unit (written_from t off e c x0 cs).
Proof.
  unfold written_from. induction 1 as [|cc cs Hcc _ IH]; intros x0 Hx0; [done|].
  simpl. apply IH. by case_decide.
Qed.

Lemma prodQ_mono l l' :
  Forall2 (λ x y, 0 <= x <= y)%Q l l' → (0 <= prodQ l <= prodQ l')%Q.
Proof.
  induction 1 as [|x y l l' Hxy _ IH]; simpl; [lra|]. nra.
Qed.

Lemma survival_mono (a b : nat → Q) c :
  (∀ c', 0 <= 1 - a c' <= 1 - b c')%Q → (survival a c <= survival b c)%Q.
Proof.
  intros Hab. unfold survival. apply prodQ_mono.
  apply Forall2_fmap, Forall_Forall2_diag, Forall_forall. intros c' _. apply Hab.
Qed.

(** X14. After [compute_Lambdas] on contacts at times >= 0 with rates in
    [0, 1], the values of a column never decrease down the rows: in every
    matrix of Lambda0 and of Lambda1 the value in row r and column c is at
    most the value in row r' and column c when r <= r'. *)
Theorem later_rows_larger n Lambda0 Lambda1 contacts R0 R1 :
  lambda_pair n Lambda0 Lambda1 →
  Forall (λ cc, 0 ≤ cc2 cc) contacts →
  Forall (λ cc, in_unit (cc3 cc)) contacts →
  compute_Lambdas Lambda0 Lambda1 contacts = Ok (R0, R1) →
  ∀ (e r r' c : nat) y y', (r ≤ r')%nat →
    (entry (values R1) e r c = Some y → entry (values R1) e r' c = Some y' →
       (y <= y')%Q) ∧
    (entry (values R0) e r c = Some y → entry (values R0) e r' c = Some y' →
       (y <= y')%Q).
Proof.
  intros Hpair Hnn Hunit HR e r r' c y y' Hr.
  split; intros Hy Hy'.
  - apply (compute_Lambdas_closed_form n _ _ _ _ _ e r c y Hpair Hnn HR) in Hy.
    apply (compute_Lambdas_closed_form n _ _ _ _ _ e r' c y' Hpair Hnn HR) in Hy'.
    rewrite Hy, Hy'. apply survival_mono. intros c'.
    pose proof (written_from_unit Lambda1 2 e c' _ Hunit 0%Q) as Hw.
    unfold written. unfold in_unit in Hw.
    repeat case_decide; try lra; exfalso; clear -Hr H H0; lia.
  - apply (compute_Lambdas_closed_form n _ _ _ _ _ e r c y Hpair Hnn HR) in Hy.
    apply (compute_Lambdas_closed_form n _ _ _ _ _ e r' c y' Hpair Hnn HR) in Hy'.
    rewrite Hy, Hy'. apply survival_mono. intros c'.
    pose proof (written_from_unit Lambda0 1 e c' _ Hunit 0%Q) as Hw.
    unfold written. unfold in_unit in Hw.
    repeat case_decide; try lra; exfalso; clear -Hr H H0; lia.
Qed.

Lemma later_rows_larger_witness :
  ∃ R0 R1 y y',
    compute_Lambdas two_steps_tensor two_steps_tensor two_steps_contacts
      = Ok (R0, R1) ∧
    entry (values R0) 1 0 2 = Some y ∧ entry (values R0) 1 1 2 = Some y' ∧
    (y <= y')%Q.
Proof.
  eexists _, _, _, _. split; [vm_compute; reflexivity|].
  split; [vm_compute; reflexivity|]. split; [vm_compute; reflexivity|].
  refine (proj2 (later_rows_larger 4 two_steps_tensor two_steps_tensor
                   two_steps_contacts _ _ two_steps_pair two_steps_times _ _
                   1%nat 0%nat 1%nat 2%nat _ _ _) _ _).
  - unfold two_steps_contacts, in_unit. repeat constructor; simpl; lra.
  - vm_compute; reflexivity.
  - lia.
  - vm_compute; reflexivity.
  - vm_compute; reflexivity.
Defined.

(** ** The order of the contacts *)

Lemma view_ncols n t i j w :
  square_values n (values t) → get_ij t i j = Ok w →
  ncols (default [] (view_read t w)) = n.
Proof.
  intros Hsq Hw. apply get_ij_Ok in Hw as (idx & _ & Hp).
  apply py_index_Ok in Hp as [Hp _].
  destruct (lookup_lt_is_Some_2 _ _ Hp) as [m Hm].
  unfold view_read. rewrite Hm. simpl.
  unfold square_values in Hsq. rewrite Forall_lookup in Hsq.
  destruct (Hsq _ _ Hm) as [Hlen Hrows].
  destruct m as [|row m]; [done|]. simpl. by apply Forall_cons in Hrows as [? _].
Qed.

Lemma populate_filed n L cc :
  square_values n (values L.1) → square_values n (values L.2) →
  (∃ L', populate L cc = Ok L') ↔ contact_filed n L cc.
Proof.
  intros S0 S1. split.
  - intros [L' HL].
    apply populate_steps in HL as (w1 & w0 & c1 & c0 & Hw1 & Hc1 & _ & Hw0 & Hc0 & _).
    rewrite (view_ncols n _ _ _ _ S1 Hw1) in Hc1.
    rewrite (view_ncols n _ _ _ _ S0 Hw0) in Hc0.
    unfold contact_filed. eauto 10.
  - intros ([w1 Hw1] & [c1 Hc1] & [w0 Hw0] & [c0 Hc0]).
    unfold populate, view_set_col. rewrite Hw1. simpl.
    rewrite (view_ncols n _ _ _ _ S1 Hw1), Hc1. simpl.
    rewrite Hw0. simpl.
    rewrite (view_ncols n _ _ _ _ S0 Hw0), Hc0. simpl. eauto.
Qed.

Lemma contact_filed_step n L L' cc cc' :
  populate L cc = Ok L' → contact_filed n L' cc' ↔ contact_filed n L cc'.
Proof.
  intros HL.
  apply populate_steps in HL as (w1 & w0 & c1 & c0 & _ & _ & E1 & _ & _ & E0).
  unfold contact_filed. by rewrite E1, E0, !get_ij_view_write.
Qed.

(** The loop returns exactly when each contact alone can be filed. *)
Lemma for_each_populate_filed n cs :
  ∀ L, square_values n (values L.1) → square_values n (values L.2) →
       (∃ L', for_each populate L cs = Ok L') ↔ Forall (contact_filed n L) cs.
Proof.
  induction cs as [|cc cs IH]; intros L S0 S1; simpl.
  - split; [by intros|eauto].
  - split.
    + intros [L' HL]. inv_bind HL. rename x into L1.
      destruct (for_each_populate_square n [cc] L L1) as [S0' S1'];
        [by simpl; rewrite E|done..|].
      apply Forall_cons. split.
      * apply (populate_filed n L cc S0 S1). eauto.
      * eapply Forall_impl; [apply (IH L1 S0' S1'); eauto|].
        intros cc'. by apply (contact_filed_step n L L1 cc cc').
    + intros H. apply Forall_cons in H as [Hcc Hcs].
      apply (populate_filed n L cc S0 S1) in Hcc as [L1 HL1]. rewrite HL1. simpl.
      destruct (for_each_populate_square n [cc] L L1) as [S0' S1'];
        [by simpl; rewrite HL1|done..|].
      apply (IH L1 S0' S1').
      eapply Forall_impl; [exact Hcs|].
      intros cc'. by apply (contact_filed_step n L L1 cc cc').
Qed.

Lemma written_from_found t off e c x0 cs cc :
  cc ∈ cs → files_at t off e c cc →
  (∀ cc', cc' ∈ cs → files_at t off e c cc' → cc3 cc' = cc3 cc) →
  written_from t off e c x0 cs = cc3 cc.
Proof.
  induction cs as [|cc' cs IH] using rev_ind; intros Hin Hf Hsame.
  - by apply elem_of_nil in Hin.
  - rewrite written_from_app. unfold written_from at 1. simpl.
    case_decide as Hf'.
    + apply Hsame; [|done]. apply elem_of_app. right. by apply list_elem_of_singleton.
    + apply IH; [|done|].
      * apply elem_of_app in Hin as [Hin|Hin]; [done|].
        apply list_elem_of_singleton in Hin as ->. done.
      * intros cc'' Hcc''. apply Hsame, elem_of_app. by left.
Qed.

Lemma written_from_none t off e c cs :
  Forall (λ cc, ¬ files_at t off e c cc) cs →
  ∀ x0, written_from t off e c x0 cs = x0.
Proof.
  unfold written_from. induction 1 as [|cc cs Hcc _ IH]; intros x0; [done|].
  simpl. rewrite decide_False by done. apply IH.
Qed.

Lemma written_perm t off cs cs' e c :
  consistent_rates t cs → cs ≡ₚ cs' →
  written t off cs e c = written t off cs' e c.
Proof.
  intros Hcons Hperm. unfold written.
  assert (∀ cc cc', cc ∈ cs → cc' ∈ cs → files_at t off e c cc →
                    files_at t off e c cc' → cc3 cc' = cc3 cc) as Hsame.
  { intros cc cc' Hcc Hcc' [Hg Ht] [Hg' Ht'].
    apply Hcons; [done|done|congruence|lia]. }
  destruct (decide (Exists (files_at t off e c) cs)) as [Hex|Hex].
  - apply Exists_exists in Hex as (cc & Hcc & Hf).
    rewrite (written_from_found t off e c 0%Q cs cc), (written_from_found t off e c 0%Q cs' cc);
      [done| |done| |done|done|].
    + by rewrite <- Hperm.
    + intros cc' Hcc'. rewrite <- Hperm in Hcc'. by apply Hsame.
    + intros cc' Hcc'. by apply Hsame.
  - assert (Forall (λ cc, ¬ files_at t off e c cc) cs) as Hno.
    { apply Forall_forall. intros cc Hcc Hf. apply Hex, Exists_exists. eauto. }
    rewrite (written_from_none _ _ _ _ _ Hno).
    rewrite Hperm in Hno. by rewrite (written_from_none _ _ _ _ _ Hno).
Qed.

(** The state after the loop does not depend on the order of contacts with
    consistent rates. *)
Lemma for_each_populate_perm n Lambda0 Lambda1 cs cs' L :
  lambda_pair n Lambda0 Lambda1 → same_topology Lambda0 Lambda1 →
  Forall (λ cc, 0 ≤ cc2 cc) cs → consistent_rates Lambda1 cs → cs ≡ₚ cs' →
  for_each populate
    (set_values (fill 0%Q (values Lambda0)) Lambda0,
     set_values (fill 0%Q (values Lambda1)) Lambda1) cs = Ok L →
  for_each populate
    (set_values (fill 0%Q (values Lambda0)) Lambda0,
     set_values (fill 0%Q (values Lambda1)) Lambda1) cs' = Ok L.
Proof.
  intros Hpair Htop Hnn Hcons Hperm HL.
  pose proof Hpair as [Hlen Sq0 Sq1].
  assert (consistent_rates Lambda0 cs) as Hcons0.
  { intros cc cc' Hcc Hcc'. rewrite !(get_ij_same_topology _ _ _ _ Htop Hlen).
    by apply Hcons. }
  pose proof (for_each_populate_filed n cs
                (set_values (fill 0%Q (values Lambda0)) Lambda0,
                 set_values (fill 0%Q (values Lambda1)) Lambda1)) as Hcs.
  pose proof (for_each_populate_filed n cs'
                (set_values (fill 0%Q (values Lambda0)) Lambda0,
                 set_values (fill 0%Q (values Lambda1)) Lambda1)) as Hcs'.
  simpl in Hcs, Hcs'.
  specialize (Hcs (square_values_fill _ _ _ Sq0) (square_values_fill _ _ _ Sq1)).
  specialize (Hcs' (square_values_fill _ _ _ Sq0) (square_values_fill _ _ _ Sq1)).
  destruct (proj2 Hcs') as [L' HL'].
  { rewrite <- Hperm. apply Hcs. eauto. }
  rewrite HL'. f_equal.
  assert (Forall (λ cc, 0 ≤ cc2 cc) cs') as Hnn' by by rewrite <- Hperm.
  destruct (populated_pair n _ _ _ _ Hpair HL) as [[HlenL SL0 SL1] HlenL0].
  destruct (populated_pair n _ _ _ _ Hpair HL') as [[HlenL' SL0' SL1'] HlenL0'].
  destruct (for_each_populate_set_values _ _ _ HL) as [E0 E1].
  destruct (for_each_populate_set_values _ _ _ HL') as [E0' E1'].
  assert (values L'.1 = values L.1) as V0.
  { apply (square_values_eq n); [done|done|congruence|].
    intros e r c y y' Hy Hy'.
    apply (populated_written _ _ _ _ e r c Hnn' HL') in Hy.
    apply (populated_written _ _ _ _ e r c Hnn HL) in Hy'.
    rewrite Hy, Hy'. symmetry. by apply written_perm. }
  assert (values L'.2 = values L.2) as V1.
  { apply (square_values_eq n); [done|done|congruence|].
    intros e r c y y' Hy Hy'.
    apply (populated_written _ _ _ _ e r c Hnn' HL') in Hy.
    apply (populated_written _ _ _ _ e r c Hnn HL) in Hy'.
    rewrite Hy, Hy'. symmetry. by apply written_perm. }
  destruct L as [A0 A1], L' as [B0 B1]. simpl in *.
  rewrite E0, E1, E0', E1', V0, V1. done.
Qed.

(** X15. The order of the contacts does not matter when contacts that
    address the same matrix at the same time carry the same rate.  On a
    pair of tensors with the same topology, the same number of edges and
    n × n matrices, and contacts at times >= 0: when a builder returns
    (R0, R1) for a list of contacts, it returns (R0, R1) for every
    reordering of the list. *)
Theorem contact_order_irrelevant n Lambda0 Lambda1 contacts contacts' R0 R1 :
  lambda_pair n Lambda0 Lambda1 → same_topology Lambda0 Lambda1 →
  Forall (λ cc, 0 ≤ cc2 cc) contacts → consistent_rates Lambda1 contacts →
  contacts ≡ₚ contacts' →
  (compute_Lambdas Lambda0 Lambda1 contacts = Ok (R0, R1) →
     compute_Lambdas Lambda0 Lambda1 contacts' = Ok (R0, R1)) ∧
  (∀ mask, compute_Lambdas_dSIR Lambda0 Lambda1 contacts mask = Ok (R0, R1) →
           compute_Lambdas_dSIR Lambda0 Lambda1 contacts' mask = Ok (R0, R1)).
Proof.
  intros Hpair Htop Hnn Hcons Hperm. split.
  - intros HR. pose proof HR as HR'. unfold compute_Lambdas in HR'. inv_bind HR'.
    unfold compute_Lambdas in HR |- *. cbv zeta in *.
    rewrite (for_each_populate_perm n _ _ _ _ _ Hpair Htop Hnn Hcons Hperm E).
    by rewrite E in HR.
  - intros mask HR. pose proof HR as HR'. unfold compute_Lambdas_dSIR in HR'.
    inv_bind HR'. inv_bind HR'. inv_bind HR'.
    unfold compute_Lambdas_dSIR in HR |- *. rewrite E in HR |- *. simpl in HR |- *.
    rewrite E0 in HR |- *. simpl in HR |- *. cbv zeta in *.
    rewrite (for_each_populate_perm n _ _ _ _ _ Hpair Htop Hnn Hcons Hperm E1).
    by rewrite E1 in HR.
Qed.

Lemma contact_order_irrelevant_witness :
  ∃ R0 R1,
    compute_Lambdas two_steps_tensor two_steps_tensor two_steps_contacts
      = Ok (R0, R1) ∧
    compute_Lambdas two_steps_tensor two_steps_tensor (reverse two_steps_contacts)
      = Ok (R0, R1).
Proof.
  eexists _, _. split; [vm_compute; reflexivity|].
  refine (proj1 (contact_order_irrelevant 4 two_steps_tensor two_steps_tensor
                   two_steps_contacts (reverse two_steps_contacts) _ _
                   two_steps_pair _ two_steps_times _ _) _).
  - by repeat split.
  - intros cc cc' Hcc Hcc'. unfold two_steps_contacts in Hcc, Hcc'.
    apply elem_of_cons in Hcc as [->|Hcc];
      [|apply list_elem_of_singleton in Hcc as ->];
      (apply elem_of_cons in Hcc' as [->|Hcc'];
        [|apply list_elem_of_singleton in Hcc' as ->]);
      simpl; intros _ Ht; (done || discriminate Ht).
  - symmetry. apply reverse_Permutation.
  - vm_compute; reflexivity.
Defined.

(** ** When the builders return *)

Lemma list_index_raise_kind l x e : list_index l x = Raise e → e = ValueError.
Proof.
  induction l as [|y l IH]; simpl; [by intros [= <-]|].
  case_bool_decide; [done|].
  destruct (list_index l x) as [k|e'] eqn:E; simpl; [done|].
  intros [= <-]. by apply IH.
Qed.

Lemma get_idx_ij_raise_kind t i j e :
  get_idx_ij t i j = Raise e → e = ValueError ∨ e = IndexError.
Proof.
  unfold get_idx_ij. intros H.
  destruct (getitem (adj_list t) j) as [a|e1] eqn:E1; simpl in H.
  2: { injection H as <-. right. by eapply getitem_Ok_or_IndexError. }
  destruct (list_index a i) as [k|e2] eqn:E2; simpl in H.
  2: { injection H as <-. left. by eapply list_index_raise_kind. }
  destruct (getitem (idx_list t) j) as [r|e3] eqn:E3; simpl in H.
  2: { injection H as <-. right. by eapply getitem_Ok_or_IndexError. }
  right. by eapply getitem_Ok_or_IndexError.
Qed.

Lemma get_ij_raise_kind t i j e :
  get_ij t i j = Raise e → e = ValueError ∨ e = IndexError.
Proof.
  unfold get_ij. intros H.
  destruct (get_idx_ij t i j) as [idx|e1] eqn:E1; simpl in H.
  2: { injection H as <-. by eapply get_idx_ij_raise_kind. }
  destruct (py_index (length (values t)) idx) as [p|e2] eqn:E2; simpl in H; [done|].
  injection H as <-. right. by apply py_index_inv in E2 as [-> _].
Qed.

Lemma view_set_col_raise_kind t w col x e :
  view_set_col t w col x = Raise e → e = IndexError.
Proof.
  unfold view_set_col. intros H.
  destruct (py_index _ col) as [c|e1] eqn:E1; simpl in H; [done|].
  injection H as <-. by apply py_index_inv in E1 as [-> _].
Qed.

Lemma populate_raise_kind L cc e :
  populate L cc = Raise e → e = ValueError ∨ e = IndexError.
Proof.
  unfold populate. intros H.
  destruct (get_ij L.2 (cc0 cc) (cc1 cc)) as [w1|e1] eqn:E1; simpl in H.
  2: { injection H as <-. by eapply get_ij_raise_kind. }
  destruct (view_set_col L.2 w1 (cc2 cc + 2) (cc3 cc)) as [t1|e2] eqn:E2; simpl in H.
  2: { injection H as <-. right. by eapply view_set_col_raise_kind. }
  destruct (get_ij L.1 (cc0 cc) (cc1 cc)) as [w0|e3] eqn:E3; simpl in H.
  2: { injection H as <-. by eapply get_ij_raise_kind. }
  destruct (view_set_col L.1 w0 (cc2 cc + 1) (cc3 cc)) as [t0|e4] eqn:E4; simpl in H;
    [done|].
  injection H as <-. right. by eapply view_set_col_raise_kind.
Qed.

Lemma for_each_populate_raise_kind cs :
  ∀ L e, for_each populate L cs = Raise e → e = ValueError ∨ e = IndexError.
Proof.
  induction cs as [|cc cs IH]; intros L e H; simpl in H; [done|].
  destruct (populate L cc) as [L1|e1] eqn:E1; simpl in H.
  - by eapply IH.
  - injection H as <-. by eapply populate_raise_kind.
Qed.

Lemma contact_filed_fill n Lambda0 Lambda1 cc :
  contact_filed n (set_values (fill 0%Q (values Lambda0)) Lambda0,
                   set_values (fill 0%Q (values Lambda1)) Lambda1) cc
  ↔ contact_filed n (Lambda0, Lambda1) cc.
Proof.
  unfold contact_filed. simpl.
  by rewrite !get_ij_set_values by apply length_fill.
Qed.

Lemma loop_returns_iff n Lambda0 Lambda1 cs :
  lambda_pair n Lambda0 Lambda1 →
  (∃ L, for_each populate
          (set_values (fill 0%Q (values Lambda0)) Lambda0,
           set_values (fill 0%Q (values Lambda1)) Lambda1) cs = Ok L)
  ↔ Forall (contact_filed n (Lambda0, Lambda1)) cs.
Proof.
  intros [_ Sq0 Sq1].
  pose proof (for_each_populate_filed n cs
                (set_values (fill 0%Q (values Lambda0)) Lambda0,
                 set_values (fill 0%Q (values Lambda1)) Lambda1)) as Hcs.
  simpl in Hcs.
  specialize (Hcs (square_values_fill _ _ _ Sq0) (square_values_fill _ _ _ Sq1)).
  rewrite Hcs. split; intros H; (eapply Forall_impl; [exact H|]);
    intros cc; by apply contact_filed_fill.
Qed.

(** X16. When the builders return.  On a pair of tensors with the same
    number of edges and n × n matrices, [compute_Lambdas] returns exactly
    when, for each contact (i, j, t, lam), [get_ij(i, j)] returns on both
    tensors and t + 2 and t + 1 are subscripts of a row of length n (a
    negative subscript counts from the end).  [compute_Lambdas_dSIR]
    returns exactly when, besides, [values] of Lambda0 holds a matrix and n is
    not 0.
    When a builder does not return it raises [ValueError] or
    [IndexError]. *)
Theorem builders_return_iff n Lambda0 Lambda1 contacts :
  lambda_pair n Lambda0 Lambda1 →
  ((∃ R0 R1, compute_Lambdas Lambda0 Lambda1 contacts = Ok (R0, R1))
   ↔ Forall (contact_filed n (Lambda0, Lambda1)) contacts) ∧
  (∀ mask,
     (∃ R0 R1, compute_Lambdas_dSIR Lambda0 Lambda1 contacts mask = Ok (R0, R1))
     ↔ values Lambda0 ≠ [] ∧ n ≠ 0%nat ∧
       Forall (contact_filed n (Lambda0, Lambda1)) contacts) ∧
  (∀ e, compute_Lambdas Lambda0 Lambda1 contacts = Raise e ∨
        (∃ mask, compute_Lambdas_dSIR Lambda0 Lambda1 contacts mask = Raise e) →
        e = ValueError ∨ e = IndexError).
Proof.
  intros Hpair. pose proof (loop_returns_iff n _ _ contacts Hpair) as Hloop.
  split_and!.
  - rewrite <- Hloop. unfold compute_Lambdas. split.
    + intros (R0 & R1 & HR). inv_bind HR. eauto.
    + intros [L ->]. simpl. eauto.
  - intros mask. rewrite <- Hloop. unfold compute_Lambdas_dSIR. split.
    + intros (R0 & R1 & HR). inv_bind HR. inv_bind HR. inv_bind HR.
      apply getitem_Ok in E as (p & Hp & Hm0).
      apply getitem_Ok in E0 as (q & Hq & _).
      apply py_index_Ok in Hp as [Hp _]. apply py_index_Ok in Hq as [Hq _].
      destruct Hpair as [_ Sq0 _]. unfold square_values in Sq0.
      rewrite Forall_lookup in Sq0. destruct (Sq0 _ _ Hm0) as [Hlen _].
      split_and!; [|lia|eauto].
      intros Hnil. rewrite Hnil in Hp. simpl in Hp. lia.
    + intros (Hne & Hn & [L HL]).
      destruct (values Lambda0) as [|m0 v] eqn:Ev; [done|].
      destruct Hpair as [_ Sq0 _]. rewrite Ev in Sq0.
      apply Forall_cons in Sq0 as [[Hlen _] _].
      destruct m0 as [|r0 m0]; [simpl in Hlen; lia|].
      assert (getitem ((r0 :: m0) :: v) 0 = Ok (r0 :: m0)) as ->
        by exact (getitem_nat ((r0 :: m0) :: v) 0 (r0 :: m0) eq_refl).
      cbn [mbind result_bind].
      assert (getitem (r0 :: m0) 0 = Ok r0) as ->
        by exact (getitem_nat (r0 :: m0) 0 r0 eq_refl).
      cbn [mbind result_bind]. cbv zeta. rewrite HL. simpl. eauto.
  - intros e [H|[mask H]].
    + unfold compute_Lambdas in H.
      destruct (for_each populate _ contacts) as [L|e'] eqn:E; simpl in H; [done|].
      injection H as <-. by eapply for_each_populate_raise_kind.
    + unfold compute_Lambdas_dSIR in H.
      destruct (getitem (values Lambda0) 0) as [m0|e0] eqn:E0; simpl in H.
      2: { injection H as <-. right. by eapply getitem_Ok_or_IndexError. }
      destruct (getitem m0 0) as [r0|e1] eqn:E1; simpl in H.
      2: { injection H as <-. right. by eapply getitem_Ok_or_IndexError. }
      destruct (for_each populate _ contacts) as [L|e'] eqn:E; simpl in H; [done|].
      injection H as <-. by eapply for_each_populate_raise_kind.
Qed.

Lemma builders_return_iff_witness :
  ∃ R0 R1,
    compute_Lambdas two_steps_tensor two_steps_tensor [(0, 1, -2, (1 # 2)%Q)]
      = Ok (R0, R1).
Proof.
  refine (proj2 (proj1 (builders_return_iff 4 two_steps_tensor two_steps_tensor
                          [(0, 1, -2, (1 # 2)%Q)] two_steps_pair)) _).
  apply Forall_cons. split; [|apply Forall_nil_2].
  unfold contact_filed. simpl. split_and!; eexists; vm_compute; reflexivity.
Defined.

(** ** Negative receivers *)

Lemma getitem_wrap {A} (l : list A) (j : Z) :
  0 ≤ j < length l → getitem l (j - length l) = getitem l j.
Proof.
  intros Hj. unfold getitem, py_index.
  rewrite (bool_decide_false (0 ≤ j - length l < length l)) by lia.
  rewrite (bool_decide_true (- length l ≤ j - length l < 0)) by lia.
  rewrite (bool_decide_true (0 ≤ j < length l)) by lia.
  by replace (j - length l + length l) with j by lia.
Qed.

(** X17. The accessors take a receiver counted from the end.  On a
    constructed tensor and for a node j of [0 .. N-1], [get_idx_ij],
    [get_ij] and [get_neigh_i] give for the receiver j - N what they give
    for j, whatever that is. *)
Theorem negative_receiver_wraps N T contacts t i j :
  init N T contacts = Ok t → 0 ≤ j < N →
  get_idx_ij t i (j - N) = get_idx_ij t i j ∧
  get_ij t i (j - N) = get_ij t i j ∧
  get_neigh_i t (j - N) = get_neigh_i t j.
Proof.
  intros Ht Hj.
  pose proof (init_length_adj_list _ _ _ _ Ht) as Hadj.
  pose proof (layout_length t (init_layout _ _ _ _ Ht)) as Hidx.
  assert (getitem (adj_list t) (j - N) = getitem (adj_list t) j) as Ea.
  { replace N with (Z.of_nat (length (adj_list t))) at 1 by lia.
    apply getitem_wrap. lia. }
  assert (getitem (idx_list t) (j - N) = getitem (idx_list t) j) as Ei.
  { replace N with (Z.of_nat (length (idx_list t))) at 1 by lia.
    apply getitem_wrap. lia. }
  assert (get_idx_ij t i (j - N) = get_idx_ij t i j) as E.
  { unfold get_idx_ij. by rewrite Ea, Ei. }
  split_and!; [done| |].
  - unfold get_ij. by rewrite E.
  - unfold get_neigh_i. by rewrite Ei.
Qed.

Lemma negative_receiver_wraps_witness :
  get_idx_ij scenario_tensor 0 (1 - 2) = get_idx_ij scenario_tensor 0 1.
Proof.
  refine (proj1 (negative_receiver_wraps 2 1 scenario_contacts scenario_tensor
                   0 1 init_scenario _)).
  lia.
Defined.
